(** * Shared and unique ownership handles (shared.h, unique.h)

    A shallow embedding of the control-block hierarchy, of [SharedPtr] and
    of [UniquePtr], with the properties of their reference counting.

    The heap of control blocks, the handle objects of the caller and the
    trace of allocations and destructions are threaded through a small
    state monad.  Handle objects live in a store indexed by their name, so
    that two references to one handle ([h = std::move(h)]) alias. *)

From stdpp Require Import gmap list fin_maps.

(** ** Machine integers

    The counters are [size_t]: 64-bit unsigned, wrapping. *)

Definition SIZE_MAX : Z := 2 ^ 64 - 1.

(** [x++] and [--x] on a [size_t]. *)
Definition size_t_incr (n : Z) : Z := ((n + 1) mod 2 ^ 64)%Z.
Definition size_t_decr (n : Z) : Z := ((n - 1) mod 2 ^ 64)%Z.

Definition is_size_t (n : Z) : Prop := (0 ≤ n ≤ SIZE_MAX)%Z.

(** ** Pointers *)

(** Address of a control block; [ControlBlockBase*] is [option addr], with
    [None] for [nullptr]. *)
Abbreviation addr := positive.

(** Name of the storage of a handle object (a variable or a temporary). *)
Abbreviation var := nat.

(** A [T*]: null, a pointer to an object of its own allocation, or the
    pointer to the [holder_] storage inside the control block at [b]. *)
Inductive ptr :=
  | nullptr
  | ObjPtr (a : N)
  | HolderPtr (b : addr).

#[global] Instance ptr_eq_dec : EqDecision ptr.
Proof. solve_decision. Defined.

(** ** Trace of the allocator, of constructors and of destructors *)

Inductive event :=
  | EvNewControlBlockPtr (b : addr) (p : ptr)  (* new ControlBlockPtr<T>(p) at b *)
  | EvNewControlBlockMakeShared (b : addr)     (* new ControlBlockMakeShared<T> at b *)
  | EvPlacementNew (b : addr) (ok : bool)      (* new (&holder_) T(args...); ok = false: T's constructor threw *)
  | EvDeleteObj (b : addr) (p : ptr)           (* delete p_obj_, by the block at b *)
  | EvDestroyHolder (b : addr) (constructed : bool)
                                               (* holder_->~T(), by the block at b; was a T constructed there? *)
  | EvDeleteThis (b : addr).                   (* delete this, by the block at b *)

#[global] Instance event_eq_dec : EqDecision event.
Proof. solve_decision. Defined.

(** * unique.h *)

Module UniquePtr.
Section UniquePtr.

(** [Deleter] is the class of the deleter; a call [deleter(p)] is recorded
    with the deleter and the pointer it was given. *)
Context {Deleter : Type}.

(** What the move operations of the class [Deleter] leave behind.  The
    object moved to gets the value of the object moved from ([Deleter] is
    MoveConstructible and MoveAssignable); what stays in the object moved
    from, and what the move assignment of an object to itself leaves in it,
    is the choice of the class. *)
Class Moves := {
  (* [d] after [Deleter(std::move(d))], of the value of [d] *)
  moved_from : Deleter → Deleter;
  (* [src] after [dst = std::move(src)], of the values of [dst] and [src] *)
  move_assigned_from : Deleter → Deleter → Deleter;
  (* [d] after [d = std::move(d)], of the value of [d] *)
  self_move_assigned : Deleter → Deleter
}.

Context `{Moves}.

(** The data members of [UniquePtr<T, Deleter>]. *)
Record t := Make {
  raw_ptr_ : ptr;
  del_ : Deleter
}.

(** The calls of deleters so far are threaded through the members. *)
Definition D (A : Type) : Type := list (Deleter * ptr) → A * list (Deleter * ptr).

Definition ret {A} (a : A) : D A := fun calls => (a, calls).

Definition bind {A B} (m : D A) (k : A → D B) : D B :=
  fun calls => let (a, calls') := m calls in k a calls'.

(** [deleter(p)]. *)
Definition invoke (deleter : Deleter) (p : ptr) : D unit :=
  fun calls => (tt, calls ++ [(deleter, p)]).

(** [UniquePtr(T* ptr, Deleter deleter)]. *)
Definition ctor (ptr : ptr) (deleter : Deleter) : t :=
  {| raw_ptr_ := ptr; del_ := deleter |}.

Definition Get (this : t) : ptr := raw_ptr_ this.

Definition GetDeleter (this : t) : Deleter := del_ this.

Definition operator_bool (this : t) : bool :=
  if decide (Get this = nullptr) then false else true.

(** [Release()]: the held pointer, and [this] afterwards. *)
Definition Release (this : t) : D (ptr * t) :=
  let res_ptr := Get this in
  ret (res_ptr, {| raw_ptr_ := nullptr; del_ := del_ this |}).

(** [Reset(T* ptr = nullptr)]: [this] afterwards. *)
Definition Reset (this : t) (ptr : ptr) : D t :=
  let old := raw_ptr_ this in
  let this' := {| raw_ptr_ := ptr; del_ := del_ this |} in
  if decide (old = nullptr) then ret this'
  else bind (invoke (GetDeleter this') old) (fun _ => ret this').

(** [~UniquePtr()]. *)
Definition dtor (this : t) : D unit :=
  if decide (raw_ptr_ this = nullptr) then ret tt
  else invoke (GetDeleter this) (raw_ptr_ this).

(** [UniquePtr(UniquePtr&& other)]: the new handle, and [other] afterwards.
    [del_] is move-constructed from the deleter of [other]. *)
Definition move_ctor (other : t) : D (t * t) :=
  bind (Release other) (fun r =>
    let (p, other') := r in
    ret ({| raw_ptr_ := p; del_ := GetDeleter other' |},
         {| raw_ptr_ := raw_ptr_ other'; del_ := moved_from (GetDeleter other') |})).

(** [operator=(UniquePtr&& other)], for two distinct handles: [this] and
    [other] afterwards.  [del_] is move-assigned from the deleter of
    [other]. *)
Definition operator_assign_move (this other : t) : D (t * t) :=
  bind (Release other) (fun r =>
    let (p, other') := r in
    bind (Reset this p) (fun this' =>
      ret ({| raw_ptr_ := raw_ptr_ this'; del_ := GetDeleter other' |},
           {| raw_ptr_ := raw_ptr_ other';
              del_ := move_assigned_from (GetDeleter this') (GetDeleter other') |}))).

(** [operator=(std::nullptr_t)]: [this] afterwards. *)
Definition operator_assign_nullptr (this : t) : D t :=
  Reset this nullptr.

(** [Swap(UniquePtr& other)], for two distinct handles: [this] and [other]
    afterwards. *)
Definition Swap (this other : t) : t * t :=
  ({| raw_ptr_ := raw_ptr_ other; del_ := del_ other |},
   {| raw_ptr_ := raw_ptr_ this; del_ := del_ this |}).

(** ** Callers

    A caller is a sequence of statements over named handles.  The handle
    objects live in a store, so that the two references of a statement may
    be one object; [released] is what the calls of [Release()] returned to
    the caller.  [None]: the caller is not a program (it names a handle
    that is not alive, or constructs one over a live one). *)
Record machine := Machine {
  handles : gmap var t;
  calls : list (Deleter * ptr);
  released : list ptr
}.

Definition start : machine :=
  {| handles := ∅; calls := []; released := [] |}.

Definition C (A : Type) : Type := machine → option (A * machine).

(** A member function called on the handle object named [x]. *)
Definition member {A} (x : var) (f : t → D (A * t)) : C A :=
  fun m =>
    h ← handles m !! x;
    let '((a, h'), calls') := f h (calls m) in
    Some (a, {| handles := <[x := h']> (handles m); calls := calls';
                released := released m |}).

(** A const member function, and an assignment to the data members. *)
Definition observe {A} (x : var) (f : t → A) : C A :=
  fun m => h ← handles m !! x; Some (f h, m).

Definition update (x : var) (f : t → t) : C unit :=
  member x (fun h => ret (tt, f h)).

Definition construct (x : var) (h : t) : C unit :=
  fun m =>
    match handles m !! x with
    | Some _ => None
    | None => Some (tt, {| handles := <[x := h]> (handles m); calls := calls m;
                           released := released m |})
    end.

Inductive op :=
  | UNew (x : var) (p : ptr) (d : Deleter)   (* UniquePtr<T, Deleter> x(p, d); *)
  | UMoveNew (x y : var)                     (* UniquePtr<T, Deleter> x(std::move(y)); *)
  | UMoveAssign (x y : var)                  (* x = std::move(y); *)
  | UAssignNullptr (x : var)                 (* x = nullptr; *)
  | URelease (x : var)                       (* x.Release(); *)
  | UReset (x : var) (p : ptr)               (* x.Reset(p); *)
  | USwap (x y : var)                        (* x.Swap(y); *)
  | UDestroy (x : var).                      (* x's lifetime ends *)

Definition step (o : op) : C unit :=
  match o with
  | UNew x p d => construct x (ctor p d)
  | UMoveNew x y => fun m =>
      '(new, m) ← member y move_ctor m;
      construct x new m
  | UMoveAssign x y => fun m =>
      (* Reset(other.Release()); *)
      '(p, m) ← member y Release m;
      '(_, m) ← member x (fun h => bind (Reset h p) (fun h' => ret (tt, h'))) m;
      (* del_ = std::forward<Deleter>(other.GetDeleter()); the two deleters
         are one object when the two handles are *)
      '(dst, m) ← observe x GetDeleter m;
      '(src, m) ← observe y GetDeleter m;
      if decide (x = y) then
        update x (fun h => {| raw_ptr_ := raw_ptr_ h; del_ := self_move_assigned src |}) m
      else
        '(_, m) ← update x (fun h => {| raw_ptr_ := raw_ptr_ h; del_ := src |}) m;
        update y (fun h => {| raw_ptr_ := raw_ptr_ h;
                              del_ := move_assigned_from dst src |}) m
  | UAssignNullptr x =>
      member x (fun h => bind (operator_assign_nullptr h) (fun h' => ret (tt, h')))
  | URelease x => fun m =>
      '(p, m) ← member x Release m;
      Some (tt, {| handles := handles m; calls := calls m;
                   released := released m ++ [p] |})
  | UReset x p =>
      member x (fun h => bind (Reset h p) (fun h' => ret (tt, h')))
  | USwap x y => fun m =>
      (* std::swap(this->raw_ptr_, other.raw_ptr_); *)
      '(a, m) ← observe x Get m;
      '(b, m) ← observe y Get m;
      '(_, m) ← update x (fun h => {| raw_ptr_ := b; del_ := del_ h |}) m;
      '(_, m) ← update y (fun h => {| raw_ptr_ := a; del_ := del_ h |}) m;
      (* std::swap(this->del_, other.del_); *)
      '(a, m) ← observe x GetDeleter m;
      '(b, m) ← observe y GetDeleter m;
      '(_, m) ← update x (fun h => {| raw_ptr_ := raw_ptr_ h; del_ := b |}) m;
      update y (fun h => {| raw_ptr_ := raw_ptr_ h; del_ := a |}) m
  | UDestroy x => fun m =>
      h ← handles m !! x;
      let '(_, calls') := dtor h (calls m) in
      Some (tt, {| handles := delete x (handles m); calls := calls';
                   released := released m |})
  end.

Fixpoint run (prog : list op) (m : machine) : option machine :=
  match prog with
  | [] => Some m
  | o :: prog' => '(_, m') ← step o m; run prog' m'
  end.

(** How many times the statements of a caller hand the pointer [p] to a
    handle. *)
Definition hands_over (p : ptr) (o : op) : bool :=
  match o with
  | UNew _ p' _ => bool_decide (p' = p)
  | UReset _ p' => bool_decide (p' = p)
  | _ => false
  end.

Definition handed_over (p : ptr) (prog : list op) : nat :=
  length (List.filter (hands_over p) prog).

(** How many times a deleter was called on [p], and how many times
    [Release()] returned [p]. *)
Definition deleter_calls (p : ptr) (cs : list (Deleter * ptr)) : nat :=
  length (List.filter (fun c => bool_decide (c.2 = p)) cs).

Definition handed_back (p : ptr) (ps : list ptr) : nat :=
  length (List.filter (fun q => bool_decide (q = p)) ps).

End UniquePtr.
Arguments Moves : clear implicits.
Arguments t : clear implicits.
Arguments machine : clear implicits.
Arguments op : clear implicits.
Arguments C : clear implicits.
End UniquePtr.

(** * shared.h *)

(** The handle: [SharedPtr<T>]'s two data members. *)
Record SharedPtr := MkSharedPtr {
  p_ctrl_block_ : option addr;
  raw_ptr_ : ptr
}.

#[global] Instance SharedPtr_eq_dec : EqDecision SharedPtr.
Proof. solve_decision. Defined.

(** A payload for the examples: an integer whose constructor throws on a
    negative argument. *)
Definition nonneg_ctor (a : Z) : option Z :=
  if (a <? 0)%Z then None else Some a.

(** The number of entries of a finite map whose value satisfies [P]. *)
Definition count_if `{Countable K} {A} (P : A → Prop) `{∀ a, Decision (P a)}
    (m : gmap K A) : nat :=
  size (filter (λ kv : K * A, P kv.2) m).

(** The number of live [UniquePtr]s that hold the pointer [p]. *)
Definition holding {Deleter} (p : ptr) (hs : gmap var (UniquePtr.t Deleter)) : nat :=
  count_if (fun h => UniquePtr.raw_ptr_ h = p) hs.

(** Numbered deleters for the examples, of a class whose moves leave 0 in
    the object moved from. *)
#[global] Instance numbered_deleter : UniquePtr.Moves nat :=
  {| UniquePtr.moved_from := fun _ => 0;
     UniquePtr.move_assigned_from := fun _ _ => 0;
     UniquePtr.self_move_assigned := fun _ => 0 |}.

(** Two [UniquePtr]s for the examples, [0] and [1], each holding an object;
    the deleters are numbered. *)
Definition two_unique : UniquePtr.machine nat :=
  {| UniquePtr.handles :=
       {[ 0 := {| UniquePtr.raw_ptr_ := ObjPtr 5; UniquePtr.del_ := 7 |};
          1 := {| UniquePtr.raw_ptr_ := ObjPtr 6; UniquePtr.del_ := 8 |} ]};
     UniquePtr.calls := [];
     UniquePtr.released := [] |}.

Section Shared.

(** [T] is the payload type, [Args] the argument lists of its constructors,
    and [T_ctor args] the value [T(args...)] constructs, or [None] when the
    constructor throws. *)
Context {T Args : Type} (T_ctor : Args → option T).

(** ** Control blocks *)

Record ControlBlockPtr := MkControlBlockPtr {
  cbp_weak_cnt_ : Z;       (* size_t weak_cnt_ = 0 *)
  cbp_shared_cnt_ : Z;     (* size_t shared_cnt_ = 1 *)
  p_obj_ : ptr
}.

Record ControlBlockMakeShared := MkControlBlockMakeShared {
  cbm_weak_cnt_ : Z;       (* size_t weak_cnt_ = 0 *)
  cbm_shared_cnt_ : Z;     (* size_t shared_cnt_ = 1 *)
  holder_ : option T       (* aligned storage; None while no T lives in it *)
}.

(** An object whose dynamic type derives from [ControlBlockBase]. *)
Inductive ControlBlockBase :=
  | CBPtr (c : ControlBlockPtr)
  | CBMakeShared (c : ControlBlockMakeShared).

Definition shared_cnt_ (blk : ControlBlockBase) : Z :=
  match blk with
  | CBPtr c => cbp_shared_cnt_ c
  | CBMakeShared c => cbm_shared_cnt_ c
  end.

Definition weak_cnt_ (blk : ControlBlockBase) : Z :=
  match blk with
  | CBPtr c => cbp_weak_cnt_ c
  | CBMakeShared c => cbm_weak_cnt_ c
  end.

(** ** State *)

Record state := MkState {
  heap : gmap addr ControlBlockBase;   (* the live control blocks *)
  brk : addr;                          (* next address operator new returns *)
  trace : list event;
  frame : gmap var SharedPtr           (* the live handle objects *)
}.

Definition init : state :=
  {| heap := ∅; brk := 1%positive; trace := []; frame := ∅ |}.

(** ** The monad

    [Throw]: a C++ exception is propagating.  [Stuck]: the caller is not a
    program (it names a handle that is not alive, or constructs one over a
    live one).  [UB]: undefined behaviour (a null or dangling control-block
    pointer is dereferenced). *)
Inductive outcome (A : Type) :=
  | Ok (a : A) (s : state)
  | Throw (s : state)
  | Stuck
  | UB.
Arguments Ok {A} a s.
Arguments Throw {A} s.
Arguments Stuck {A}.
Arguments UB {A}.

Definition M (A : Type) : Type := state → outcome A.

Definition ret {A} (a : A) : M A := fun s => Ok a s.

Definition bind {A B} (m : M A) (k : A → M B) : M B :=
  fun s =>
    match m s with
    | Ok a s' => k a s'
    | Throw s' => Throw s'
    | Stuck => Stuck
    | UB => UB
    end.

Notation "x <- m ;; k" := (bind m (fun x => k))
  (at level 100, m at next level, k at level 200, right associativity).
Notation "m ;;; k" := (bind m (fun _ => k))
  (at level 100, k at level 200, right associativity).

(** Stack unwinding: when [m] throws, run [cleanup], then keep throwing. *)
Definition unwinding {A} (m : M A) (cleanup : M unit) : M A :=
  fun s =>
    match m s with
    | Throw s' =>
        match cleanup s' with
        | Ok _ s'' => Throw s''
        | Throw s'' => Throw s''
        | Stuck => Stuck
        | UB => UB
        end
    | r => r
    end.

Definition throw {A} : M A := fun s => Throw s.
Definition undefined {A} : M A := fun _ => UB.

Definition emit (e : event) : M unit :=
  fun s => Ok tt {| heap := heap s; brk := brk s; trace := trace s ++ [e]; frame := frame s |}.

(** *** The heap *)

(** [operator new] for a control block: a fresh address. *)
Definition new_block (blk : ControlBlockBase) : M addr :=
  fun s => Ok (brk s)
    {| heap := <[brk s := blk]> (heap s); brk := Pos.succ (brk s);
       trace := trace s; frame := frame s |}.

(** [*this] for a control block; a dangling [this] is undefined. *)
Definition load_block (this : addr) : M ControlBlockBase :=
  fun s => match heap s !! this with Some blk => Ok blk s | None => UB end.

Definition store_block (this : addr) (blk : ControlBlockBase) : M unit :=
  fun s => Ok tt {| heap := <[this := blk]> (heap s); brk := brk s;
                    trace := trace s; frame := frame s |}.

(** [operator delete] for a control block. *)
Definition delete_block (this : addr) : M unit :=
  fun s => Ok tt {| heap := delete this (heap s); brk := brk s;
                    trace := trace s; frame := frame s |}.

(** *** The handle objects *)

(** Storage for a new handle object named [this]. *)
Definition construct (this : var) (h : SharedPtr) : M unit :=
  fun s => match frame s !! this with
           | Some _ => Stuck
           | None => Ok tt {| heap := heap s; brk := brk s; trace := trace s;
                              frame := <[this := h]> (frame s) |}
           end.

Definition read (this : var) : M SharedPtr :=
  fun s => match frame s !! this with Some h => Ok h s | None => Stuck end.

Definition write (this : var) (h : SharedPtr) : M unit :=
  fun s => match frame s !! this with
           | Some _ => Ok tt {| heap := heap s; brk := brk s; trace := trace s;
                                frame := <[this := h]> (frame s) |}
           | None => Stuck
           end.

(** The storage of [this] ends. *)
Definition destroy (this : var) : M unit :=
  fun s => Ok tt {| heap := heap s; brk := brk s; trace := trace s;
                    frame := delete this (frame s) |}.

(** The name of a temporary: storage no live handle occupies. *)
Definition temporary : M var :=
  fun s => Ok (fresh (dom (frame s))) s.

(** ** ControlBlockPtr<T> *)

Definition ControlBlockPtr_ctor (ptr : ptr) : ControlBlockPtr :=
  {| cbp_weak_cnt_ := 0; cbp_shared_cnt_ := 1; p_obj_ := ptr |}.

Definition ControlBlockPtr_IncrSharedCount (this : addr) (c : ControlBlockPtr) : M unit :=
  store_block this
    (CBPtr {| cbp_weak_cnt_ := cbp_weak_cnt_ c;
              cbp_shared_cnt_ := size_t_incr (cbp_shared_cnt_ c);
              p_obj_ := p_obj_ c |}).

Definition ControlBlockPtr_GetSharedCount (c : ControlBlockPtr) : Z :=
  cbp_shared_cnt_ c.

(** [delete p_obj_]. *)
Definition ControlBlockPtr_OnZeroShared (this : addr) (c : ControlBlockPtr) : M unit :=
  emit (EvDeleteObj this (p_obj_ c)).

(** [delete this]. *)
Definition ControlBlockPtr_OnZeroWeak (this : addr) : M unit :=
  emit (EvDeleteThis this) ;;;
  delete_block this.

Definition ControlBlockPtr_DecrSharedCount (this : addr) (c : ControlBlockPtr) : M unit :=
  let c' := {| cbp_weak_cnt_ := cbp_weak_cnt_ c;
               cbp_shared_cnt_ := size_t_decr (cbp_shared_cnt_ c);
               p_obj_ := p_obj_ c |} in
  store_block this (CBPtr c') ;;;
  if (cbp_shared_cnt_ c' =? 0)%Z && (cbp_weak_cnt_ c' =? 0)%Z then
    ControlBlockPtr_OnZeroShared this c' ;;;
    ControlBlockPtr_OnZeroWeak this
  else if (cbp_shared_cnt_ c' =? 0)%Z then
    ControlBlockPtr_OnZeroShared this c'
  else ret tt.

(** ** ControlBlockMakeShared<T> *)

Definition ControlBlockMakeShared_ctor : ControlBlockMakeShared :=
  {| cbm_weak_cnt_ := 0; cbm_shared_cnt_ := 1; holder_ := None |}.

Definition ControlBlockMakeShared_IncrSharedCount
    (this : addr) (c : ControlBlockMakeShared) : M unit :=
  store_block this
    (CBMakeShared {| cbm_weak_cnt_ := cbm_weak_cnt_ c;
                     cbm_shared_cnt_ := size_t_incr (cbm_shared_cnt_ c);
                     holder_ := holder_ c |}).

Definition ControlBlockMakeShared_GetSharedCount (c : ControlBlockMakeShared) : Z :=
  cbm_shared_cnt_ c.

(** [reinterpret_cast<T*>(&holder_)->~T()]: the destructor is called on the
    storage whether or not a [T] was constructed there; the event records
    which. *)
Definition ControlBlockMakeShared_OnZeroShared
    (this : addr) (c : ControlBlockMakeShared) : M unit :=
  emit (EvDestroyHolder this (bool_decide (is_Some (holder_ c)))) ;;;
  store_block this
    (CBMakeShared {| cbm_weak_cnt_ := cbm_weak_cnt_ c;
                     cbm_shared_cnt_ := cbm_shared_cnt_ c;
                     holder_ := None |}).

(** [delete this]. *)
Definition ControlBlockMakeShared_OnZeroWeak (this : addr) : M unit :=
  emit (EvDeleteThis this) ;;;
  delete_block this.

Definition ControlBlockMakeShared_DecrSharedCount
    (this : addr) (c : ControlBlockMakeShared) : M unit :=
  let c' := {| cbm_weak_cnt_ := cbm_weak_cnt_ c;
               cbm_shared_cnt_ := size_t_decr (cbm_shared_cnt_ c);
               holder_ := holder_ c |} in
  store_block this (CBMakeShared c') ;;;
  if (cbm_shared_cnt_ c' =? 0)%Z && (cbm_weak_cnt_ c' =? 0)%Z then
    ControlBlockMakeShared_OnZeroShared this c' ;;;
    ControlBlockMakeShared_OnZeroWeak this
  else if (cbm_shared_cnt_ c' =? 0)%Z then
    ControlBlockMakeShared_OnZeroShared this c'
  else ret tt.

(** ** ControlBlockBase: the virtual calls *)

Definition IncrSharedCount (this : addr) : M unit :=
  blk <- load_block this ;;
  match blk with
  | CBPtr c => ControlBlockPtr_IncrSharedCount this c
  | CBMakeShared c => ControlBlockMakeShared_IncrSharedCount this c
  end.

Definition DecrSharedCount (this : addr) : M unit :=
  blk <- load_block this ;;
  match blk with
  | CBPtr c => ControlBlockPtr_DecrSharedCount this c
  | CBMakeShared c => ControlBlockMakeShared_DecrSharedCount this c
  end.

Definition GetSharedCount (this : addr) : M Z :=
  blk <- load_block this ;;
  match blk with
  | CBPtr c => ret (ControlBlockPtr_GetSharedCount c)
  | CBMakeShared c => ret (ControlBlockMakeShared_GetSharedCount c)
  end.

(** [p->f()] through a [ControlBlockBase*]. *)
Definition arrow {A} (p : option addr) (f : addr → M A) : M A :=
  match p with
  | Some b => f b
  | None => undefined
  end.

(** [new ControlBlockPtr<T>(ptr)]. *)
Definition new_ControlBlockPtr (ptr : ptr) : M addr :=
  b <- new_block (CBPtr (ControlBlockPtr_ctor ptr)) ;;
  emit (EvNewControlBlockPtr b ptr) ;;;
  ret b.

(** [new ControlBlockMakeShared<T>]. *)
Definition new_ControlBlockMakeShared : M addr :=
  b <- new_block (CBMakeShared ControlBlockMakeShared_ctor) ;;
  emit (EvNewControlBlockMakeShared b) ;;;
  ret b.

(** [new (&(dynamic_cast<ControlBlockMakeShared<T>*>(p)->holder_)) T(args...)]:
    the pointer to the constructed object, or the exception of [T]'s
    constructor. *)
Definition placement_new (p : addr) (args : Args) : M ptr :=
  blk <- load_block p ;;
  match blk with
  | CBMakeShared c =>
      match T_ctor args with
      | Some v =>
          emit (EvPlacementNew p true) ;;;
          store_block p
            (CBMakeShared {| cbm_weak_cnt_ := cbm_weak_cnt_ c;
                             cbm_shared_cnt_ := cbm_shared_cnt_ c;
                             holder_ := Some v |}) ;;;
          ret (HolderPtr p)
      | None =>
          emit (EvPlacementNew p false) ;;;
          throw
      end
  | CBPtr _ => undefined
  end.

(** ** SharedPtr<T> *)

Definition empty_handle : SharedPtr :=
  {| p_ctrl_block_ := None; raw_ptr_ := nullptr |}.

(** *** Observers *)

Definition Get (this : var) : M ptr :=
  h <- read this ;;
  ret (raw_ptr_ h).

Definition operator_bool (this : var) : M bool :=
  p <- Get this ;;
  ret (if decide (p = nullptr) then false else true).

Definition UseCount (this : var) : M Z :=
  h <- read this ;;
  match p_ctrl_block_ h with
  | None => ret 0%Z
  | Some b => GetSharedCount b
  end.

(** *** Constructors *)

(** [SharedPtr()] and [SharedPtr(std::nullptr_t)]. *)
Definition SharedPtr_default (this : var) : M unit :=
  construct this {| p_ctrl_block_ := None; raw_ptr_ := nullptr |}.

Definition SharedPtr_nullptr (this : var) : M unit :=
  construct this {| p_ctrl_block_ := None; raw_ptr_ := nullptr |}.

(** [explicit SharedPtr(T* ptr)] (and its [Y*] template). *)
Definition SharedPtr_from_raw (this : var) (ptr : ptr) : M unit :=
  b <- new_ControlBlockPtr ptr ;;
  construct this {| p_ctrl_block_ := Some b; raw_ptr_ := ptr |}.

(** [SharedPtr(const SharedPtr& other)] (and its [SharedPtr<Y>] template). *)
Definition SharedPtr_copy (this other : var) : M unit :=
  nonempty <- operator_bool other ;;
  if negb nonempty then
    construct this {| p_ctrl_block_ := None; raw_ptr_ := nullptr |}
  else
    o <- read other ;;
    construct this {| p_ctrl_block_ := p_ctrl_block_ o; raw_ptr_ := raw_ptr_ o |} ;;;
    arrow (p_ctrl_block_ o) IncrSharedCount.

(** [SharedPtr(SharedPtr&& other)] (and its [SharedPtr<Y>] template). *)
Definition SharedPtr_move (this other : var) : M unit :=
  o <- read other ;;
  construct this {| p_ctrl_block_ := p_ctrl_block_ o; raw_ptr_ := raw_ptr_ o |} ;;;
  write other {| p_ctrl_block_ := None; raw_ptr_ := nullptr |}.

(** The aliasing constructor [SharedPtr(const SharedPtr<Y>& other, T* ptr)].
    Its first statement, [if (!other) raw_ptr_ = nullptr], tests [other]
    and assigns a member that the last statement assigns again; nothing
    returns in between, so the control-block pointer of [other] is
    dereferenced whether or not [other] is empty. *)
Definition SharedPtr_alias (this other : var) (ptr : ptr) : M unit :=
  nonempty <- operator_bool other ;;
  o <- read other ;;
  arrow (p_ctrl_block_ o) IncrSharedCount ;;;
  construct this {| p_ctrl_block_ := p_ctrl_block_ o; raw_ptr_ := ptr |}.

(** *** Destructor *)

Definition SharedPtr_dtor (this : var) : M unit :=
  h <- read this ;;
  match p_ctrl_block_ h with
  | Some b => DecrSharedCount b
  | None => ret tt
  end ;;;
  destroy this.

(** *** Modifiers *)

Definition Swap (this other : var) : M unit :=
  a <- read this ;;
  b <- read other ;;
  write this {| p_ctrl_block_ := p_ctrl_block_ b; raw_ptr_ := raw_ptr_ a |} ;;;
  write other {| p_ctrl_block_ := p_ctrl_block_ a; raw_ptr_ := raw_ptr_ b |} ;;;
  a <- read this ;;
  b <- read other ;;
  write this {| p_ctrl_block_ := p_ctrl_block_ a; raw_ptr_ := raw_ptr_ b |} ;;;
  write other {| p_ctrl_block_ := p_ctrl_block_ b; raw_ptr_ := raw_ptr_ a |}.

Definition Reset (this : var) : M unit :=
  tmp <- temporary ;;
  SharedPtr_default tmp ;;;
  Swap tmp this ;;;
  SharedPtr_dtor tmp.

Definition Reset_ptr (this : var) (ptr : ptr) : M unit :=
  tmp <- temporary ;;
  SharedPtr_from_raw tmp ptr ;;;
  Swap tmp this ;;;
  SharedPtr_dtor tmp.

(** *** Assignment *)

(** [operator=(const SharedPtr& other)]. *)
Definition operator_assign (this other : var) : M unit :=
  tmp <- temporary ;;
  SharedPtr_copy tmp other ;;;
  Swap tmp this ;;;
  SharedPtr_dtor tmp.

(** [operator=(SharedPtr&& other)]. *)
Definition operator_assign_move (this other : var) : M unit :=
  tmp <- temporary ;;
  SharedPtr_move tmp other ;;;
  Swap tmp this ;;;
  SharedPtr_dtor tmp.

(** *** MakeShared

    [result] is the handle the caller receives: the local [result] of the
    function, constructed in the caller's storage (moving it there on
    return leaves the same state).  When [T]'s constructor throws,
    unwinding destroys [result]. *)
Definition MakeShared (result : var) (args : Args) : M unit :=
  SharedPtr_default result ;;;
  unwinding
    (b <- new_ControlBlockMakeShared ;;
     h <- read result ;;
     write result {| p_ctrl_block_ := Some b; raw_ptr_ := raw_ptr_ h |} ;;;
     h <- read result ;;
     p <- arrow (p_ctrl_block_ h) (fun b => placement_new b args) ;;
     write result {| p_ctrl_block_ := p_ctrl_block_ h; raw_ptr_ := p |})
    (SharedPtr_dtor result).

(** *** Comparison *)

(** [operator==(const SharedPtr<T>& left, const SharedPtr<U>& right)]. *)
Definition operator_eq (left right : var) : M bool :=
  l <- Get left ;;
  r <- Get right ;;
  ret (bool_decide (l = r)).

(** ** Callers

    A caller is a sequence of statements over named handles. *)
Inductive op :=
  | OpDefault (x : var)                   (* SharedPtr<T> x; *)
  | OpNullptr (x : var)                   (* SharedPtr<T> x(nullptr); *)
  | OpFromRaw (x : var) (p : ptr)         (* SharedPtr<T> x(p); *)
  | OpCopy (x y : var)                    (* SharedPtr<T> x(y); *)
  | OpMove (x y : var)                    (* SharedPtr<T> x(std::move(y)); *)
  | OpAlias (x y : var) (p : ptr)         (* SharedPtr<T> x(y, p); *)
  | OpMakeShared (x : var) (args : Args)  (* auto x = MakeShared<T>(args...); caught when it throws *)
  | OpAssign (x y : var)                  (* x = y; *)
  | OpAssignMove (x y : var)              (* x = std::move(y); *)
  | OpReset (x : var)                     (* x.Reset(); *)
  | OpResetPtr (x : var) (p : ptr)        (* x.Reset(p); *)
  | OpSwap (x y : var)                    (* x.Swap(y); *)
  | OpDestroy (x : var).                  (* x's lifetime ends *)

(** [try { m } catch (...) {}]. *)
Definition catch (m : M unit) : M unit :=
  fun s => match m s with Throw s' => Ok tt s' | r => r end.

Definition step (o : op) : M unit :=
  match o with
  | OpDefault x => SharedPtr_default x
  | OpNullptr x => SharedPtr_nullptr x
  | OpFromRaw x p => SharedPtr_from_raw x p
  | OpCopy x y => SharedPtr_copy x y
  | OpMove x y => SharedPtr_move x y
  | OpAlias x y p => SharedPtr_alias x y p
  | OpMakeShared x args => catch (MakeShared x args)
  | OpAssign x y => operator_assign x y
  | OpAssignMove x y => operator_assign_move x y
  | OpReset x => Reset x
  | OpResetPtr x p => Reset_ptr x p
  | OpSwap x y => Swap x y
  | OpDestroy x => SharedPtr_dtor x
  end.

Fixpoint run (prog : list op) : M unit :=
  match prog with
  | [] => ret tt
  | o :: prog' => step o ;;; run prog'
  end.

(** ** Vocabulary of the properties *)

(** The block [blk] with its shared counter set to [n]. *)
Definition with_shared_cnt (n : Z) (blk : ControlBlockBase) : ControlBlockBase :=
  match blk with
  | CBPtr c =>
      CBPtr {| cbp_weak_cnt_ := cbp_weak_cnt_ c; cbp_shared_cnt_ := n; p_obj_ := p_obj_ c |}
  | CBMakeShared c =>
      CBMakeShared {| cbm_weak_cnt_ := cbm_weak_cnt_ c; cbm_shared_cnt_ := n;
                      holder_ := holder_ c |}
  end.

(** The block after its destroy-payload operation ran. *)
Definition payload_destroyed (blk : ControlBlockBase) : ControlBlockBase :=
  match blk with
  | CBPtr c => CBPtr c
  | CBMakeShared c =>
      CBMakeShared {| cbm_weak_cnt_ := cbm_weak_cnt_ c; cbm_shared_cnt_ := cbm_shared_cnt_ c;
                      holder_ := None |}
  end.

(** What the destroy-payload operation of the block at [this] leaves in the trace. *)
Definition destroy_payload (this : addr) (blk : ControlBlockBase) : list event :=
  match blk with
  | CBPtr c => [EvDeleteObj this (p_obj_ c)]
  | CBMakeShared c => [EvDestroyHolder this (bool_decide (is_Some (holder_ c)))]
  end.

(** What destroy-self of the block at [this] leaves in the trace. *)
Definition destroy_self (this : addr) : list event := [EvDeleteThis this].

(** The handle [h] is an owner of the control block at [b]. *)
Definition owns (b : addr) (h : SharedPtr) : Prop := p_ctrl_block_ h = Some b.

#[global] Instance owns_dec b h : Decision (owns b h).
Proof. unfold owns. apply _. Defined.

(** The number of live handles that own the block at [b]. *)
Definition owners (b : addr) (fr : gmap var SharedPtr) : nat :=
  count_if (owns b) fr.

(** [blk] is a [ControlBlockPtr] made for the raw pointer [p]. *)
Definition holds (p : ptr) (blk : ControlBlockBase) : Prop :=
  match blk with
  | CBPtr c => p_obj_ c = p
  | CBMakeShared _ => False
  end.

#[global] Instance holds_dec p blk : Decision (holds p blk).
Proof. destruct blk; simpl; apply _. Defined.

(** The number of live control blocks made for the raw pointer [p]. *)
Definition holders (p : ptr) (hp : gmap addr ControlBlockBase) : nat :=
  count_if (holds p) hp.

(** How many times a control block was made for the raw pointer [p], and
    how many times [delete] was called on [p]. *)
Definition registers (p : ptr) (e : event) : bool :=
  match e with
  | EvNewControlBlockPtr _ p' => bool_decide (p' = p)
  | _ => false
  end.

Definition registrations (p : ptr) (tr : list event) : nat :=
  length (List.filter (registers p) tr).

Definition deletes (p : ptr) (e : event) : bool :=
  match e with
  | EvDeleteObj _ p' => bool_decide (p' = p)
  | _ => false
  end.

Definition object_deletions (p : ptr) (tr : list event) : nat :=
  length (List.filter (deletes p) tr).

(** Does [e] record a run of the destroy-payload operation of the block at [b]? *)
Definition destroys_payload_of (b : addr) (e : event) : bool :=
  match e with
  | EvDeleteObj b' _ => bool_decide (b' = b)
  | EvDestroyHolder b' _ => bool_decide (b' = b)
  | _ => false
  end.

(** How many times the payload of the block at [b] was destroyed. *)
Definition payload_destructions (b : addr) (tr : list event) : nat :=
  length (List.filter (destroys_payload_of b) tr).

(** The block at [b] was allocated at some point. *)
Definition allocated (b : addr) (s : state) : Prop := (b < brk s)%positive.

#[global] Instance allocated_dec b s : Decision (allocated b s).
Proof. unfold allocated. apply _. Defined.

(** The invariant of the data model: a handle has a control block exactly
    when it has a raw pointer. *)
Definition paired (h : SharedPtr) : Prop :=
  p_ctrl_block_ h = None ↔ raw_ptr_ h = nullptr.

(** The number of calls of [operator new] in a trace. *)
Definition is_allocation (e : event) : bool :=
  match e with
  | EvNewControlBlockPtr _ _ => true
  | EvNewControlBlockMakeShared _ => true
  | _ => false
  end.

Definition allocations (tr : list event) : nat :=
  length (List.filter is_allocation tr).

(** Well-formed states: every control block counts its owners, none has a
    weak reference, every handle that names a block names a live one, a
    payload was destroyed when and only when its block was, and every
    control block made for a raw pointer is alive or has deleted it. *)
Record Inv (s : state) : Prop := MkInv {
  inv_heap : ∀ b blk, heap s !! b = Some blk →
    allocated b s ∧ weak_cnt_ blk = 0%Z ∧
    shared_cnt_ blk = Z.of_nat (owners b (frame s)) ∧ 1 ≤ owners b (frame s);
  inv_frame : ∀ x h b, frame s !! x = Some h → owns b h → is_Some (heap s !! b);
  inv_raw : ∀ x h, frame s !! x = Some h → raw_ptr_ h ≠ nullptr → p_ctrl_block_ h ≠ None;
  inv_trace : ∀ b, payload_destructions b (trace s) =
    match heap s !! b with
    | Some _ => 0
    | None => if decide (b < brk s)%positive then 1 else 0
    end;
  inv_objects : ∀ p,
    object_deletions p (trace s) + holders p (heap s) = registrations p (trace s);
  inv_size : (Z.of_nat (size (frame s)) ≤ SIZE_MAX)%Z
}.

(** [spec m s Q E U]: from [s], when [m] returns [a] in [s'] then [Q a s'],
    when it throws in [s'] then [E s'], and its behaviour is undefined only
    when [U]. *)
Definition spec {A} (m : M A) (s : state)
    (Q : A → state → Prop) (E : state → Prop) (U : Prop) : Prop :=
  match m s with
  | Ok a s' => Q a s'
  | Throw s' => E s'
  | Stuck => True
  | UB => U
  end.

(** Statements that use the aliasing constructor. *)
Definition is_alias (o : op) : Prop :=
  match o with
  | OpAlias _ _ _ => True
  | _ => False
  end.

(** The trace of [s'] continues that of [s]. *)
Definition extends (s s' : state) : Prop :=
  ∃ evs, trace s' = trace s ++ evs.

Create HintDb mono.

(** [m] only adds to the trace, whatever its outcome. *)
Definition monotone {A} (m : M A) : Prop :=
  ∀ s, spec m s (fun _ s' => extends s s') (fun s' => extends s s') True.

(** [ind b h]: 1 when [h] owns the block at [b], 0 otherwise. *)
Definition ind (b : addr) (h : SharedPtr) : nat :=
  if decide (owns b h) then 1 else 0.

(** What a constructor, [Swap] and the destructor leave behind. *)
Definition grown s : unit → state → Prop :=
  fun _ s' => Inv s' ∧ size (frame s') = S (size (frame s)).
Definition kept s : unit → state → Prop :=
  fun _ s' => Inv s' ∧ size (frame s') = size (frame s).
Definition shrunk s : unit → state → Prop :=
  fun _ s' => Inv s' ∧ size (frame s') = Nat.pred (size (frame s)).
Definition never : state → Prop := fun _ => False.

(** The state [s] with the handle objects [fr]. *)
Definition with_frame (fr : gmap var SharedPtr) (s : state) : state :=
  {| heap := heap s; brk := brk s; trace := trace s; frame := fr |}.

(** ** Handles made from a null pointer

    [from_null prog]: the names of the live handles that hold, when the
    caller [prog] is done, what a statement made from a null raw pointer.
    The constructor from a raw pointer, [Reset(ptr)] and the aliasing
    constructor make such a handle when the pointer they are given is null; move construction, move
    assignment and [Swap] pass it on; every other statement makes its
    handle anew. *)
Definition swap_names (x y : var) (N : gset var) : gset var :=
  (N ∖ {[x; y]}) ∪ (if decide (y ∈ N) then {[x]} else ∅)
                 ∪ (if decide (x ∈ N) then {[y]} else ∅).

Definition move_names (x y : var) (N : gset var) : gset var :=
  (N ∖ {[x; y]}) ∪ (if decide (y ∈ N) then {[x]} else ∅).

Definition null_made (o : op) (N : gset var) : gset var :=
  match o with
  | OpFromRaw x p | OpResetPtr x p | OpAlias x _ p =>
      if decide (p = nullptr) then N ∪ {[x]} else N ∖ {[x]}
  | OpMove x y => move_names x y N
  | OpAssignMove x y => if decide (x = y) then N else move_names x y N
  | OpSwap x y => swap_names x y N
  | OpDefault x | OpNullptr x | OpCopy x _ | OpMakeShared x _
  | OpAssign x _ | OpReset x | OpDestroy x => N ∖ {[x]}
  end.

Definition from_null (prog : list op) : gset var :=
  fold_left (fun N o => null_made o N) prog ∅.

(** Every live handle whose name is not in [N] satisfies the invariant of
    the handle. *)
Definition Paired_except (N : gset var) (fr : gmap var SharedPtr) : Prop :=
  ∀ x h, fr !! x = Some h → x ∉ N → paired h.

(** ** Ownership, by the words of the specification

    Shared ownership as the specification words it: handles are values
    that share in an object or in none; many handles jointly own one
    object, and the object is destroyed, and its control block released,
    when the last owning handle disappears.  There is no counter here, no
    temporary and no [Swap] inside assignment.  The objects are named by
    the address of their control block, which the allocator gives out in
    order. *)
Inductive payload :=
  | Separate (p : ptr)              (* allocated by the caller, at [p] *)
  | Inline (constructed : bool).    (* in the storage of its control block *)

Definition payload_of (blk : ControlBlockBase) : payload :=
  match blk with
  | CBPtr c => Separate (p_obj_ c)
  | CBMakeShared c => Inline (bool_decide (is_Some (holder_ c)))
  end.

Record ownership := Ownership {
  own_handles : gmap var SharedPtr;   (* what each live handle shares in, and its pointer *)
  own_objects : gmap addr payload;    (* the owned objects *)
  own_next : addr;                    (* the name of the next object *)
  own_log : list event                (* allocations, constructions, destructions *)
}.

Definition own_init : ownership :=
  {| own_handles := ∅; own_objects := ∅; own_next := 1%positive; own_log := [] |}.

(** The destruction of a payload. *)
Definition destruction (b : addr) (pl : payload) : list event :=
  match pl with
  | Separate p => [EvDeleteObj b p]
  | Inline constructed => [EvDestroyHolder b constructed]
  end.

(** A handle stopped sharing in [b]: when no handle owns [b] any more, its
    payload is destroyed and its control block released. *)
Definition settle (b : option addr) (a : ownership) : ownership :=
  match b with
  | Some b =>
      match own_objects a !! b with
      | Some pl =>
          if decide (owners b (own_handles a) = 0) then
            {| own_handles := own_handles a;
               own_objects := delete b (own_objects a);
               own_next := own_next a;
               own_log := own_log a ++ destruction b pl ++ [EvDeleteThis b] |}
          else a
      | None => a
      end
  | None => a
  end.

Definition with_handles (hs : gmap var SharedPtr) (a : ownership) : ownership :=
  {| own_handles := hs; own_objects := own_objects a; own_next := own_next a;
     own_log := own_log a |}.

(** A new object [pl], named [own_next a]; [evs] is how it was made. *)
Definition with_object (pl : payload) (evs : list event) (a : ownership) : ownership :=
  {| own_handles := own_handles a;
     own_objects := <[own_next a := pl]> (own_objects a);
     own_next := Pos.succ (own_next a);
     own_log := own_log a ++ evs |}.

(** What a copy of [h] holds: "if source is empty, result is empty;
    otherwise shares the control block". *)
Definition copy_of (h : SharedPtr) : SharedPtr :=
  if decide (raw_ptr_ h = nullptr) then empty_handle else h.

(** The statements, as the specification of the shared handle words them:
    construction from a raw pointer makes a new object with one owner;
    MakeShared makes one in its control block; a copy shares what its
    source shares, an empty one nothing; a move transfers and empties the
    source; the aliasing constructor shares the object of a handle and
    exposes the pointer it is given; assignment, Reset and destruction let
    go of what the handle held.  [None]: the caller is not a program, or
    shares through the aliasing constructor in a handle that owns
    nothing. *)
Definition own_step (o : op) (a : ownership) : option ownership :=
  let hs := own_handles a in
  let b := own_next a in
  match o with
  | OpDefault x | OpNullptr x =>
      match hs !! x with
      | None => Some (with_handles (<[x := empty_handle]> hs) a)
      | Some _ => None
      end
  | OpFromRaw x p =>
      match hs !! x with
      | None =>
          Some (with_handles (<[x := {| p_ctrl_block_ := Some b; raw_ptr_ := p |}]> hs)
                  (with_object (Separate p) [EvNewControlBlockPtr b p] a))
      | Some _ => None
      end
  | OpCopy x y =>
      match hs !! x, hs !! y with
      | None, Some hy => Some (with_handles (<[x := copy_of hy]> hs) a)
      | _, _ => None
      end
  | OpMove x y =>
      match hs !! x, hs !! y with
      | None, Some hy => Some (with_handles (<[y := empty_handle]> (<[x := hy]> hs)) a)
      | _, _ => None
      end
  | OpAlias x y p =>
      match hs !! x, hs !! y with
      | None, Some hy =>
          match p_ctrl_block_ hy with
          | Some c =>
              Some (with_handles (<[x := {| p_ctrl_block_ := Some c; raw_ptr_ := p |}]> hs) a)
          | None => None
          end
      | _, _ => None
      end
  | OpMakeShared x args =>
      match hs !! x with
      | None =>
          match T_ctor args with
          | Some _ =>
              Some (with_handles
                      (<[x := {| p_ctrl_block_ := Some b; raw_ptr_ := HolderPtr b |}]> hs)
                      (with_object (Inline true)
                         [EvNewControlBlockMakeShared b; EvPlacementNew b true] a))
          | None =>
              (* construction fails: the control block is released, and
                 there is no object to destroy *)
              Some {| own_handles := hs; own_objects := own_objects a;
                      own_next := Pos.succ b;
                      own_log := own_log a ++ [EvNewControlBlockMakeShared b;
                                               EvPlacementNew b false;
                                               EvDeleteThis b] |}
          end
      | Some _ => None
      end
  | OpAssign x y =>
      match hs !! x, hs !! y with
      | Some hx, Some hy =>
          Some (settle (p_ctrl_block_ hx) (with_handles (<[x := copy_of hy]> hs) a))
      | _, _ => None
      end
  | OpAssignMove x y =>
      match hs !! x, hs !! y with
      | Some hx, Some hy =>
          Some (settle (p_ctrl_block_ hx)
                  (with_handles (<[x := hy]> (<[y := empty_handle]> hs)) a))
      | _, _ => None
      end
  | OpReset x =>
      match hs !! x with
      | Some hx => Some (settle (p_ctrl_block_ hx) (with_handles (<[x := empty_handle]> hs) a))
      | None => None
      end
  | OpResetPtr x p =>
      match hs !! x with
      | Some hx =>
          Some (settle (p_ctrl_block_ hx)
                  (with_handles (<[x := {| p_ctrl_block_ := Some b; raw_ptr_ := p |}]> hs)
                     (with_object (Separate p) [EvNewControlBlockPtr b p] a)))
      | None => None
      end
  | OpSwap x y =>
      match hs !! x, hs !! y with
      | Some hx, Some hy => Some (with_handles (<[y := hx]> (<[x := hy]> hs)) a)
      | _, _ => None
      end
  | OpDestroy x =>
      match hs !! x with
      | Some hx => Some (settle (p_ctrl_block_ hx) (with_handles (delete x hs) a))
      | None => None
      end
  end.

Fixpoint own_run (prog : list op) (a : ownership) : option ownership :=
  match prog with
  | [] => Some a
  | o :: prog' => a' ← own_step o a; own_run prog' a'
  end.

(** What the code has made of the ownership: its handles, and its control
    blocks without their counters. *)
Definition ownership_of (s : state) : ownership :=
  {| own_handles := frame s; own_objects := payload_of <$> heap s;
     own_next := brk s; own_log := trace s |}.

(** Statements whose payload is constructed: [T]'s constructor returns. *)
Definition constructs (o : op) : Prop :=
  match o with
  | OpMakeShared _ args => is_Some (T_ctor args)
  | _ => True
  end.

(** How many times the statements of a caller hand the raw pointer [p] to
    a handle. *)
Definition hands_over (p : ptr) (o : op) : bool :=
  match o with
  | OpFromRaw _ p' | OpResetPtr _ p' => bool_decide (p' = p)
  | _ => false
  end.

Definition handed_over (p : ptr) (prog : list op) : nat :=
  length (List.filter (hands_over p) prog).

(** ** States of the examples *)

(** One handle, [0], the only owner of the object at 5. *)
Definition one_owner : state :=
  {| heap := {[ 1%positive := CBPtr (ControlBlockPtr_ctor (ObjPtr 5)) ]};
     brk := 2%positive;
     trace := [EvNewControlBlockPtr 1 (ObjPtr 5)];
     frame := {[ 0 := {| p_ctrl_block_ := Some 1%positive; raw_ptr_ := ObjPtr 5 |} ]} |}.

(** Two handles, [0] and [1], each the only owner of an object. *)
Definition two_objects : state :=
  {| heap := {[ 1%positive := CBPtr (ControlBlockPtr_ctor (ObjPtr 5));
                2%positive := CBPtr (ControlBlockPtr_ctor (ObjPtr 6)) ]};
     brk := 3%positive;
     trace := [EvNewControlBlockPtr 1 (ObjPtr 5); EvNewControlBlockPtr 2 (ObjPtr 6)];
     frame := {[ 0 := {| p_ctrl_block_ := Some 1%positive; raw_ptr_ := ObjPtr 5 |};
                 1 := {| p_ctrl_block_ := Some 2%positive; raw_ptr_ := ObjPtr 6 |} ]} |}.

(** The object at 5 owned by [3] and, through an aliasing handle, by [1];
    [0] was moved from; [2] owns the object at 6. *)
Definition aliased_and_moved : state :=
  {| heap := {[ 1%positive := CBPtr {| cbp_weak_cnt_ := 0; cbp_shared_cnt_ := 2;
                                       p_obj_ := ObjPtr 5 |};
                2%positive := CBPtr (ControlBlockPtr_ctor (ObjPtr 6)) ]};
     brk := 3%positive;
     trace := [EvNewControlBlockPtr 1 (ObjPtr 5); EvNewControlBlockPtr 2 (ObjPtr 6)];
     frame := {[ 0 := empty_handle;
                 1 := {| p_ctrl_block_ := Some 1%positive; raw_ptr_ := ObjPtr 9 |};
                 2 := {| p_ctrl_block_ := Some 2%positive; raw_ptr_ := ObjPtr 6 |};
                 3 := {| p_ctrl_block_ := Some 1%positive; raw_ptr_ := ObjPtr 5 |} ]} |}.

(** Resolve the lookups in updated stores. *)
Ltac lookups :=
  repeat (simpl;
    first [ rewrite lookup_insert_eq
          | rewrite lookup_insert_ne by done
          | match goal with
            | H : frame _ !! _ = _ |- _ => rewrite H
            | H : heap _ !! _ = _ |- _ => rewrite H
            end ]);
  simpl.

(** * Properties *)

Implicit Types (s : state) (blk : ControlBlockBase).

Lemma size_t_decr_pos n : (0 < n ≤ SIZE_MAX)%Z → size_t_decr n = (n - 1)%Z.
Proof. unfold size_t_decr, SIZE_MAX. intros. apply Z.mod_small. lia. Qed.

Lemma size_t_incr_small n : (0 ≤ n < SIZE_MAX)%Z → size_t_incr n = (n + 1)%Z.
Proof. unfold size_t_incr, SIZE_MAX. intros. apply Z.mod_small. lia. Qed.

Lemma size_t_decr_incr n : is_size_t n → size_t_decr (size_t_incr n) = n.
Proof.
  unfold is_size_t, size_t_decr, size_t_incr, SIZE_MAX. intros Hn.
  destruct (decide (n = 2 ^ 64 - 1)%Z) as [->|Hne].
  - reflexivity.
  - rewrite (Z.mod_small (n + 1)) by lia. rewrite Z.mod_small; lia.
Qed.

(** *** What the virtual calls compute *)

Lemma GetSharedCount_run s this blk :
  heap s !! this = Some blk →
  GetSharedCount this s = Ok (shared_cnt_ blk) s.
Proof.
  intros Hb. unfold GetSharedCount, bind, load_block. rewrite Hb.
  by destruct blk.
Qed.

Lemma GetSharedCount_dangling s this :
  heap s !! this = None → GetSharedCount this s = UB.
Proof. intros Hb. unfold GetSharedCount, bind, load_block. by rewrite Hb. Qed.

Lemma IncrSharedCount_run s this blk :
  heap s !! this = Some blk →
  IncrSharedCount this s =
    Ok tt {| heap := <[this := with_shared_cnt (size_t_incr (shared_cnt_ blk)) blk]> (heap s);
             brk := brk s; trace := trace s; frame := frame s |}.
Proof.
  intros Hb. unfold IncrSharedCount, bind, load_block. rewrite Hb.
  by destruct blk.
Qed.

Lemma IncrSharedCount_dangling s this :
  heap s !! this = None → IncrSharedCount this s = UB.
Proof. intros Hb. unfold IncrSharedCount, bind, load_block. by rewrite Hb. Qed.

Lemma DecrSharedCount_dangling s this :
  heap s !! this = None → DecrSharedCount this s = UB.
Proof. intros Hb. unfold DecrSharedCount, bind, load_block. by rewrite Hb. Qed.

(** Owners remain. *)
Lemma DecrSharedCount_more s this blk :
  heap s !! this = Some blk →
  size_t_decr (shared_cnt_ blk) ≠ 0%Z →
  DecrSharedCount this s =
    Ok tt {| heap := <[this := with_shared_cnt (size_t_decr (shared_cnt_ blk)) blk]> (heap s);
             brk := brk s; trace := trace s; frame := frame s |}.
Proof.
  intros Hb Hnz. unfold DecrSharedCount, bind, load_block. rewrite Hb.
  apply Z.eqb_neq in Hnz.
  destruct blk as [c|c]; simpl in *;
    unfold ControlBlockPtr_DecrSharedCount, ControlBlockMakeShared_DecrSharedCount,
      bind, store_block; simpl; by rewrite Hnz.
Qed.

(** The last owner goes while weak references remain. *)
Lemma DecrSharedCount_last_weak s this blk :
  heap s !! this = Some blk →
  size_t_decr (shared_cnt_ blk) = 0%Z →
  weak_cnt_ blk ≠ 0%Z →
  DecrSharedCount this s =
    Ok tt {| heap := <[this := payload_destroyed (with_shared_cnt 0 blk)]> (heap s);
             brk := brk s; trace := trace s ++ destroy_payload this blk; frame := frame s |}.
Proof.
  intros Hb Hz Hw. unfold DecrSharedCount, bind, load_block. rewrite Hb.
  apply Z.eqb_neq in Hw.
  destruct blk as [c|c]; simpl in *;
    unfold ControlBlockPtr_DecrSharedCount, ControlBlockMakeShared_DecrSharedCount,
      ControlBlockPtr_OnZeroShared, ControlBlockMakeShared_OnZeroShared,
      bind, store_block, emit; simpl; rewrite Hz, Hw; simpl.
  - done.
  - by rewrite insert_insert_eq.
Qed.

(** The last owner goes and no weak reference remains. *)
Lemma DecrSharedCount_last s this blk :
  heap s !! this = Some blk →
  size_t_decr (shared_cnt_ blk) = 0%Z →
  weak_cnt_ blk = 0%Z →
  DecrSharedCount this s =
    Ok tt {| heap := delete this (heap s); brk := brk s;
             trace := trace s ++ destroy_payload this blk ++ destroy_self this;
             frame := frame s |}.
Proof.
  intros Hb Hz Hw. unfold DecrSharedCount, bind, load_block. rewrite Hb.
  destruct blk as [c|c]; simpl in *;
    unfold ControlBlockPtr_DecrSharedCount, ControlBlockMakeShared_DecrSharedCount,
      ControlBlockPtr_OnZeroShared, ControlBlockMakeShared_OnZeroShared,
      ControlBlockPtr_OnZeroWeak, ControlBlockMakeShared_OnZeroWeak,
      bind, store_block, emit, delete_block; simpl; rewrite Hz, Hw; simpl.
  - by rewrite delete_insert_eq, <- app_assoc.
  - by rewrite !delete_insert_eq, <- app_assoc.
Qed.

(** *** Counting owners *)

Lemma count_if_insert_new `{Countable K} {A} (P : A → Prop) `{∀ a, Decision (P a)}
    (m : gmap K A) k a :
  m !! k = None →
  count_if P (<[k := a]> m) = count_if P m + (if decide (P a) then 1 else 0).
Proof.
  intros Hk. unfold count_if. destruct (decide (P a)) as [Ha|Ha].
  - rewrite map_filter_insert_True by done.
    rewrite map_size_insert_None; [lia|].
    by rewrite map_lookup_filter_None; left.
  - rewrite map_filter_insert_False by done.
    rewrite delete_id by done. lia.
Qed.

Lemma count_if_delete `{Countable K} {A} (P : A → Prop) `{∀ a, Decision (P a)}
    (m : gmap K A) k a :
  m !! k = Some a →
  count_if P (delete k m) + (if decide (P a) then 1 else 0) = count_if P m.
Proof.
  intros Hk. rewrite <- (insert_delete_id m k a) at 2 by done.
  rewrite count_if_insert_new by apply lookup_delete_eq. done.
Qed.

Lemma count_if_insert_upd `{Countable K} {A} (P : A → Prop) `{∀ a, Decision (P a)}
    (m : gmap K A) k a a0 :
  m !! k = Some a0 →
  count_if P (<[k := a]> m) + (if decide (P a0) then 1 else 0) =
  count_if P m + (if decide (P a) then 1 else 0).
Proof.
  intros Hk. rewrite <- (insert_delete_eq m).
  rewrite count_if_insert_new by apply lookup_delete_eq.
  pose proof (count_if_delete P m k a0 Hk). lia.
Qed.

Lemma count_if_le_size `{Countable K} {A} (P : A → Prop) `{∀ a, Decision (P a)}
    (m : gmap K A) :
  count_if P m ≤ size m.
Proof. apply map_subseteq_size, map_filter_subseteq. Qed.

Lemma count_if_none `{Countable K} {A} (P : A → Prop) `{∀ a, Decision (P a)}
    (m : gmap K A) :
  (∀ k a, m !! k = Some a → ¬ P a) → count_if P m = 0.
Proof.
  intros Hnone. unfold count_if.
  destruct (decide (size (filter (λ kv : K * A, P kv.2) m) = 0)) as [Hz|Hnz]; [done|].
  apply map_size_ne_0_lookup in Hnz as [k [a Hk]].
  apply map_lookup_filter_Some in Hk as [Hk Ha]. by destruct (Hnone k a Hk).
Qed.

Lemma owners_insert_new b x h (fr : gmap var SharedPtr) :
  fr !! x = None → owners b (<[x := h]> fr) = owners b fr + ind b h.
Proof. apply count_if_insert_new. Qed.

Lemma owners_delete b x h (fr : gmap var SharedPtr) :
  fr !! x = Some h → owners b (delete x fr) + ind b h = owners b fr.
Proof. apply count_if_delete. Qed.

Lemma owners_insert_upd b x h h0 (fr : gmap var SharedPtr) :
  fr !! x = Some h0 →
  owners b (<[x := h]> fr) + ind b h0 = owners b fr + ind b h.
Proof. apply count_if_insert_upd. Qed.

Lemma owners_pos b x h (fr : gmap var SharedPtr) :
  fr !! x = Some h → owns b h → 1 ≤ owners b fr.
Proof.
  intros Hx Ho. pose proof (owners_delete b x h fr Hx) as Hd.
  unfold ind in Hd. rewrite decide_True in Hd by done. lia.
Qed.

Lemma owners_le_size b (fr : gmap var SharedPtr) : owners b fr ≤ size fr.
Proof. apply count_if_le_size. Qed.

Lemma owners_none b (fr : gmap var SharedPtr) :
  (∀ x h, fr !! x = Some h → ¬ owns b h) → owners b fr = 0.
Proof. apply count_if_none. Qed.

Lemma ind_owns b h : owns b h → ind b h = 1.
Proof. intros. unfold ind. by rewrite decide_True. Qed.

Lemma ind_not_owns b h : ¬ owns b h → ind b h = 0.
Proof. intros. unfold ind. by rewrite decide_False. Qed.

Lemma ind_other b b' h : owns b' h → b ≠ b' → ind b h = 0.
Proof. unfold owns. intros H Hne. apply ind_not_owns. unfold owns. congruence. Qed.

Lemma ind_null b h : p_ctrl_block_ h = None → ind b h = 0.
Proof. intros H. apply ind_not_owns. unfold owns. congruence. Qed.

(** *** Counting destructions *)

Lemma payload_destructions_app b tr1 tr2 :
  payload_destructions b (tr1 ++ tr2) =
  payload_destructions b tr1 + payload_destructions b tr2.
Proof. unfold payload_destructions. by rewrite List.filter_app, length_app. Qed.

Lemma payload_destructions_destroy_payload b this blk :
  payload_destructions b (destroy_payload this blk) = if decide (this = b) then 1 else 0.
Proof.
  unfold payload_destructions.
  destruct blk; simpl; case_bool_decide; by case_decide.
Qed.

Lemma payload_destructions_destroy_self b this :
  payload_destructions b (destroy_self this) = 0.
Proof. done. Qed.

Lemma registrations_app p tr1 tr2 :
  registrations p (tr1 ++ tr2) = registrations p tr1 + registrations p tr2.
Proof. unfold registrations. by rewrite List.filter_app, length_app. Qed.

Lemma object_deletions_app p tr1 tr2 :
  object_deletions p (tr1 ++ tr2) = object_deletions p tr1 + object_deletions p tr2.
Proof. unfold object_deletions. by rewrite List.filter_app, length_app. Qed.

Lemma object_deletions_destroy_payload p this blk :
  object_deletions p (destroy_payload this blk) = if decide (holds p blk) then 1 else 0.
Proof.
  unfold object_deletions. destruct blk as [c|c]; simpl; [|done].
  case_bool_decide; by case_decide.
Qed.

Lemma registrations_destroy_payload p this blk :
  registrations p (destroy_payload this blk) = 0.
Proof. by destruct blk. Qed.

Lemma holds_with_shared_cnt p n blk : holds p (with_shared_cnt n blk) ↔ holds p blk.
Proof. by destruct blk. Qed.

Lemma holders_update p b n blk (hp : gmap addr ControlBlockBase) :
  hp !! b = Some blk → holders p (<[b := with_shared_cnt n blk]> hp) = holders p hp.
Proof.
  intros Hb. pose proof (count_if_insert_upd (holds p) hp b (with_shared_cnt n blk) blk Hb) as H1.
  fold (holders p hp) in H1. fold (holders p (<[b := with_shared_cnt n blk]> hp)) in H1.
  pose proof (holds_with_shared_cnt p n blk) as Hiff.
  repeat case_decide; tauto || lia.
Qed.

(** *** Well-formed states are preserved *)

Lemma Inv_init : Inv init.
Proof.
  split; simpl.
  - intros b blk. by rewrite lookup_empty.
  - intros x h b. by rewrite lookup_empty.
  - intros x h. by rewrite lookup_empty.
  - intros b. rewrite lookup_empty. case_decide; [lia|done].
  - intros p. unfold holders. by rewrite count_if_none by by intros ? ?; rewrite lookup_empty.
  - rewrite map_size_empty. unfold SIZE_MAX. lia.
Qed.

Lemma Inv_fresh_block s : Inv s → heap s !! brk s = None.
Proof.
  intros HI. destruct (heap s !! brk s) as [blk|] eqn:Hb; [|done].
  apply (inv_heap s HI) in Hb as [Ha _]. unfold allocated in Ha. lia.
Qed.

Lemma Inv_fresh_owners s : Inv s → owners (brk s) (frame s) = 0.
Proof.
  intros HI. apply owners_none. intros x h Hx Ho.
  destruct (inv_frame s HI x h (brk s) Hx Ho) as [blk Hb].
  by rewrite Inv_fresh_block in Hb.
Qed.

Lemma Inv_owners_zero s b : Inv s → (owners b (frame s) = 0 ↔ heap s !! b = None).
Proof.
  intros HI. split.
  - intros Hz. destruct (heap s !! b) as [blk|] eqn:Hb; [|done].
    destruct (inv_heap s HI b blk Hb) as (_ & _ & _ & Hpos). lia.
  - intros Hb. apply owners_none. intros x h Hx Ho.
    destruct (inv_frame s HI x h b Hx Ho) as [blk Hb']. congruence.
Qed.

Lemma Inv_count_bound s b blk :
  Inv s → heap s !! b = Some blk → (0 < shared_cnt_ blk ≤ SIZE_MAX)%Z.
Proof.
  intros HI Hb. destruct (inv_heap s HI b blk Hb) as (_ & _ & Hc & Hpos).
  pose proof (owners_le_size b (frame s)). pose proof (inv_size s HI). lia.
Qed.

(** A handle without a control block appears. *)
Lemma Inv_construct_empty s x h :
  Inv s → frame s !! x = None →
  p_ctrl_block_ h = None → raw_ptr_ h = nullptr →
  (Z.of_nat (size (frame s)) < SIZE_MAX)%Z →
  Inv {| heap := heap s; brk := brk s; trace := trace s; frame := <[x := h]> (frame s) |}.
Proof.
  intros HI Hx Hc Hr Hsz. split; simpl.
  - intros b blk Hb. rewrite owners_insert_new, ind_null by done.
    rewrite Nat.add_0_r. by apply (inv_heap s HI).
  - intros y h' b Hy Ho. apply lookup_insert_Some in Hy as [[-> <-]|[_ Hy]].
    + unfold owns in Ho. congruence.
    + by apply (inv_frame s HI y h').
  - intros y h' Hy. apply lookup_insert_Some in Hy as [[-> <-]|[_ Hy]]; [done|].
    by apply (inv_raw s HI y).
  - apply (inv_trace s HI).
  - apply (inv_objects s HI).
  - rewrite map_size_insert_None by done. lia.
Qed.

(** A handle appears that shares the live block at [b], whose counter is incremented. *)
Lemma Inv_construct_shared s x b blk p :
  Inv s → frame s !! x = None → heap s !! b = Some blk →
  (Z.of_nat (size (frame s)) < SIZE_MAX)%Z →
  Inv {| heap := <[b := with_shared_cnt (size_t_incr (shared_cnt_ blk)) blk]> (heap s);
         brk := brk s; trace := trace s;
         frame := <[x := {| p_ctrl_block_ := Some b; raw_ptr_ := p |}]> (frame s) |}.
Proof.
  intros HI Hx Hb Hsz. split; simpl.
  - intros b' blk' Hb'. rewrite owners_insert_new by done.
    apply lookup_insert_Some in Hb' as [[<- <-]|[Hne Hb']].
    + destruct (inv_heap s HI b blk Hb) as (Ha & Hw & Hc & Hpos).
      rewrite ind_owns by done.
      pose proof (owners_le_size b (frame s)).
      rewrite size_t_incr_small by lia.
      repeat split; [done|by destruct blk|destruct blk; simpl in *; lia|lia].
    + rewrite (ind_other b' b) by done. rewrite Nat.add_0_r.
      by apply (inv_heap s HI).
  - intros y h' b' Hy Ho. destruct (decide (b' = b)) as [->|Hne].
    + rewrite lookup_insert_eq. eauto.
    + rewrite lookup_insert_ne by done.
      apply lookup_insert_Some in Hy as [[-> <-]|[_ Hy]].
      * unfold owns in Ho. simpl in Ho. congruence.
      * by apply (inv_frame s HI y h').
  - intros y h' Hy. apply lookup_insert_Some in Hy as [[-> <-]|[_ Hy]]; [done|].
    by apply (inv_raw s HI y).
  - intros b'. rewrite (inv_trace s HI b').
    destruct (decide (b' = b)) as [->|Hne].
    + by rewrite lookup_insert_eq, Hb.
    + by rewrite lookup_insert_ne.
  - intros p'. rewrite holders_update by done. apply (inv_objects s HI).
  - rewrite map_size_insert_None by done. lia.
Qed.

(** A handle appears that owns a block just allocated. *)
Lemma Inv_construct_new s x blk p evs :
  Inv s → frame s !! x = None →
  weak_cnt_ blk = 0%Z → shared_cnt_ blk = 1%Z →
  (∀ b, payload_destructions b evs = 0) →
  (∀ p, object_deletions p evs = 0 ∧
        registrations p evs = if decide (holds p blk) then 1 else 0) →
  (Z.of_nat (size (frame s)) < SIZE_MAX)%Z →
  Inv {| heap := <[brk s := blk]> (heap s); brk := Pos.succ (brk s);
         trace := trace s ++ evs;
         frame := <[x := {| p_ctrl_block_ := Some (brk s); raw_ptr_ := p |}]> (frame s) |}.
Proof.
  intros HI Hx Hw Hc Hev Hobj Hsz. split; simpl.
  - intros b' blk' Hb'. rewrite owners_insert_new by done. unfold allocated; simpl.
    apply lookup_insert_Some in Hb' as [[<- <-]|[Hne Hb']].
    + rewrite Inv_fresh_owners, ind_owns by done. repeat split; try done; lia.
    + rewrite (ind_other b' (brk s)) by done. rewrite Nat.add_0_r.
      destruct (inv_heap s HI b' blk' Hb') as (Ha & ?). unfold allocated in Ha.
      split; [lia|done].
  - intros y h' b' Hy Ho. destruct (decide (b' = brk s)) as [->|Hne].
    + rewrite lookup_insert_eq. eauto.
    + rewrite lookup_insert_ne by done.
      apply lookup_insert_Some in Hy as [[-> <-]|[_ Hy]].
      * unfold owns in Ho. simpl in Ho. congruence.
      * by apply (inv_frame s HI y h').
  - intros y h' Hy. apply lookup_insert_Some in Hy as [[-> <-]|[_ Hy]]; [done|].
    by apply (inv_raw s HI y).
  - intros b'. rewrite payload_destructions_app, Hev, Nat.add_0_r, (inv_trace s HI b').
    destruct (decide (b' = brk s)) as [->|Hne].
    + by rewrite lookup_insert_eq, Inv_fresh_block, decide_False by (done || lia).
    + rewrite lookup_insert_ne by done. destruct (heap s !! b'); [done|].
      repeat case_decide; done || lia.
  - intros p'. destruct (Hobj p') as [Hdel Hreg].
    rewrite object_deletions_app, registrations_app, Hdel, Hreg.
    unfold holders. rewrite count_if_insert_new by by apply Inv_fresh_block.
    pose proof (inv_objects s HI p') as Hold. unfold holders in Hold. lia.
  - rewrite map_size_insert_None by done. lia.
Qed.

(** The handles are rearranged: every block keeps its number of owners. *)
Lemma Inv_reframe s (fr' : gmap var SharedPtr) :
  Inv s →
  (∀ b, owners b fr' = owners b (frame s)) →
  (∀ x h, fr' !! x = Some h → h = empty_handle ∨ ∃ y, frame s !! y = Some h) →
  (Z.of_nat (size fr') ≤ SIZE_MAX)%Z →
  Inv {| heap := heap s; brk := brk s; trace := trace s; frame := fr' |}.
Proof.
  intros HI Hown Hfrom Hsz. split; simpl.
  - intros b blk Hb. rewrite Hown. by apply (inv_heap s HI).
  - intros x h b Hx Ho. destruct (Hfrom x h Hx) as [->|[y Hy]].
    + unfold owns in Ho. simpl in Ho. congruence.
    + by apply (inv_frame s HI y h).
  - intros x h Hx. destruct (Hfrom x h Hx) as [->|[y Hy]]; [done|].
    by apply (inv_raw s HI y).
  - apply (inv_trace s HI).
  - apply (inv_objects s HI).
  - done.
Qed.

(** The source of a move becomes empty, the destination takes its place. *)
Lemma Inv_move s x y h :
  Inv s → frame s !! x = None → frame s !! y = Some h →
  (Z.of_nat (size (frame s)) < SIZE_MAX)%Z →
  Inv {| heap := heap s; brk := brk s; trace := trace s;
         frame := <[y := empty_handle]> (<[x := h]> (frame s)) |}.
Proof.
  intros HI Hx Hy Hsz. assert (x ≠ y) as Hne by congruence.
  apply Inv_reframe; [done|..].
  - intros b.
    pose proof (owners_insert_upd b y empty_handle h (<[x := h]> (frame s))) as H1.
    rewrite lookup_insert_ne in H1 by done. specialize (H1 Hy).
    rewrite (owners_insert_new b x h (frame s)) in H1 by done.
    rewrite (ind_null b empty_handle) in H1 by done. lia.
  - intros z h' Hz. apply lookup_insert_Some in Hz as [[_ <-]|[_ Hz]]; [by left|].
    apply lookup_insert_Some in Hz as [[_ <-]|[_ Hz]]; right; eauto.
  - rewrite map_size_insert_Some by (rewrite lookup_insert_ne by done; eauto).
    rewrite map_size_insert_None by done. lia.
Qed.

(** Two handles exchange their contents. *)
Lemma Inv_swap s x y a b :
  Inv s → frame s !! x = Some a → frame s !! y = Some b → x ≠ y →
  Inv {| heap := heap s; brk := brk s; trace := trace s;
         frame := <[y := a]> (<[x := b]> (frame s)) |}.
Proof.
  intros HI Hx Hy Hne. apply Inv_reframe; [done|..].
  - intros c.
    pose proof (owners_insert_upd c y a b (<[x := b]> (frame s))) as H1.
    rewrite lookup_insert_ne in H1 by done. specialize (H1 Hy).
    pose proof (owners_insert_upd c x b a (frame s) Hx) as H2. lia.
  - intros z h' Hz. apply lookup_insert_Some in Hz as [[_ <-]|[_ Hz]]; [right; eauto|].
    apply lookup_insert_Some in Hz as [[_ <-]|[_ Hz]]; right; eauto.
  - rewrite map_size_insert_Some by (rewrite lookup_insert_ne by done; eauto).
    rewrite map_size_insert_Some by eauto. apply (inv_size s HI).
Qed.

(** A handle without a control block disappears. *)
Lemma Inv_destroy_empty s x h :
  Inv s → frame s !! x = Some h → p_ctrl_block_ h = None →
  Inv {| heap := heap s; brk := brk s; trace := trace s; frame := delete x (frame s) |}.
Proof.
  intros HI Hx Hc. apply Inv_reframe; [done|..].
  - intros b. pose proof (owners_delete b x h (frame s) Hx) as H1.
    rewrite ind_null in H1 by done. lia.
  - intros z h' Hz. apply lookup_delete_Some in Hz as [_ Hz]. right; eauto.
  - rewrite map_size_delete_Some by eauto. pose proof (inv_size s HI). lia.
Qed.

(** An owner disappears: its block's counter is decremented, and the block
    goes with its last owner. *)
Lemma Inv_destroy_owner s x h b :
  Inv s → frame s !! x = Some h → owns b h →
  ∃ s1, DecrSharedCount b s = Ok tt s1 ∧ frame s1 = frame s ∧
        Inv {| heap := heap s1; brk := brk s1; trace := trace s1;
               frame := delete x (frame s) |}.
Proof.
  intros HI Hx Ho.
  destruct (inv_frame s HI x h b Hx Ho) as [blk Hb].
  destruct (inv_heap s HI b blk Hb) as (Ha & Hw & Hc & Hpos).
  pose proof (Inv_count_bound s b blk HI Hb) as Hbound.
  pose proof (owners_delete b x h (frame s) Hx) as Hdel. rewrite ind_owns in Hdel by done.
  pose proof (size_t_decr_pos (shared_cnt_ blk) Hbound) as Hdecr.
  assert (Z.of_nat (size (delete x (frame s))) ≤ SIZE_MAX)%Z as Hsz.
  { rewrite map_size_delete_Some by eauto. pose proof (inv_size s HI). lia. }
  assert (∀ b', b' ≠ b → owners b' (delete x (frame s)) = owners b' (frame s)) as Hother.
  { intros b' Hne. pose proof (owners_delete b' x h (frame s) Hx) as H1.
    rewrite (ind_other b' b) in H1 by done. lia. }
  destruct (decide (owners b (frame s) = 1)) as [Hlast|Hmore].
  - eexists. split; [apply (DecrSharedCount_last s b blk); [done|lia|done]|].
    split; [done|]. simpl. split; simpl.
    + intros b' blk' Hb'. apply lookup_delete_Some in Hb' as [Hne Hb'].
      rewrite Hother by done. by apply (inv_heap s HI).
    + intros y h' b' Hy Hoy. apply lookup_delete_Some in Hy as [Hney Hy].
      destruct (decide (b' = b)) as [->|Hne].
      * exfalso. assert (delete x (frame s) !! y = Some h') as Hy'
          by by rewrite lookup_delete_ne.
        pose proof (owners_pos b y h' _ Hy' Hoy). lia.
      * rewrite lookup_delete_ne by done. by apply (inv_frame s HI y h').
    + intros y h' Hy. apply lookup_delete_Some in Hy as [_ Hy]. by apply (inv_raw s HI y).
    + intros b'. rewrite !payload_destructions_app, payload_destructions_destroy_payload,
        payload_destructions_destroy_self, (inv_trace s HI b').
      destruct (decide (b = b')) as [<-|Hne].
      * rewrite lookup_delete_eq, Hb. unfold allocated in Ha. by rewrite decide_True.
      * rewrite lookup_delete_ne by done. simpl. apply Nat.add_0_r.
    + intros p'. rewrite !object_deletions_app, !registrations_app,
        object_deletions_destroy_payload, registrations_destroy_payload.
      pose proof (count_if_delete (holds p') (heap s) b blk Hb) as Hh.
      pose proof (inv_objects s HI p') as Hold. unfold holders in *. simpl.
      change (object_deletions p' (destroy_self b)) with 0.
      change (registrations p' (destroy_self b)) with 0. lia.
    + done.
  - eexists. split; [apply (DecrSharedCount_more s b blk); [done|lia]|].
    split; [done|]. simpl. split; simpl.
    + intros b' blk' Hb'. apply lookup_insert_Some in Hb' as [[<- <-]|[Hne Hb']].
      * repeat split; [done|by destruct blk|destruct blk; simpl in *; lia|lia].
      * rewrite Hother by done. by apply (inv_heap s HI).
    + intros y h' b' Hy Hoy. apply lookup_delete_Some in Hy as [Hney Hy].
      destruct (decide (b' = b)) as [->|Hne].
      * rewrite lookup_insert_eq. eauto.
      * rewrite lookup_insert_ne by done. by apply (inv_frame s HI y h').
    + intros y h' Hy. apply lookup_delete_Some in Hy as [_ Hy]. by apply (inv_raw s HI y).
    + intros b'. rewrite (inv_trace s HI b').
      destruct (decide (b' = b)) as [->|Hne].
      * by rewrite lookup_insert_eq, Hb.
      * by rewrite lookup_insert_ne.
    + intros p'. rewrite holders_update by done. apply (inv_objects s HI).
    + done.
Qed.

(** A block is allocated and released at once, its destroy-payload operation
    having run. *)
Lemma Inv_alloc_release s evs :
  Inv s →
  (∀ b, payload_destructions b evs = if decide (b = brk s) then 1 else 0) →
  (∀ p, object_deletions p evs = 0 ∧ registrations p evs = 0) →
  Inv {| heap := heap s; brk := Pos.succ (brk s); trace := trace s ++ evs;
         frame := frame s |}.
Proof.
  intros HI Hev Hobj. split; simpl.
  - intros b blk Hb. destruct (inv_heap s HI b blk Hb) as (Ha & ?).
    unfold allocated in *. simpl. split; [lia|done].
  - apply (inv_frame s HI).
  - apply (inv_raw s HI).
  - intros b. rewrite payload_destructions_app, Hev, (inv_trace s HI b).
    destruct (heap s !! b) as [blk|] eqn:Hb.
    + destruct (inv_heap s HI b blk Hb) as (Ha & ?). unfold allocated in Ha.
      rewrite decide_False by lia. done.
    + repeat case_decide; lia.
  - intros p'. destruct (Hobj p') as [Hdel Hreg].
    rewrite object_deletions_app, registrations_app, Hdel, Hreg.
    pose proof (inv_objects s HI p'). lia.
  - apply (inv_size s HI).
Qed.

(** *** Rules for [spec] *)

Lemma spec_bind {A B} (m : M A) (k : A → M B) s Q Q' E U :
  spec m s Q E U →
  (∀ a s', Q a s' → spec (k a) s' Q' E U) →
  spec (bind m k) s Q' E U.
Proof.
  unfold spec at 1 3. unfold bind. intros Hm Hk.
  destruct (m s) as [a s'| | |]; [by apply Hk|done..].
Qed.

Lemma spec_weaken {A} (m : M A) s (Q Q' : A → state → Prop) (E E' : state → Prop) (U U' : Prop) :
  spec m s Q E U →
  (∀ a s', Q a s' → Q' a s') → (∀ s', E s' → E' s') → (U → U') →
  spec m s Q' E' U'.
Proof. unfold spec. intros Hm HQ HE HU. destruct (m s); auto. Qed.

Lemma spec_Ok {A} (m : M A) s a s' Q E U :
  spec m s Q E U → m s = Ok a s' → Q a s'.
Proof. unfold spec. intros Hm Heq. by rewrite Heq in Hm. Qed.

Lemma spec_not_UB {A} (m : M A) s Q E :
  spec m s Q E False → m s ≠ UB.
Proof. unfold spec. intros Hm Hub. by rewrite Hub in Hm. Qed.

(** *** What the members of [SharedPtr] compute *)

Lemma Swap_run s x y a b :
  x ≠ y → frame s !! x = Some a → frame s !! y = Some b →
  Swap x y s = Ok tt {| heap := heap s; brk := brk s; trace := trace s;
                        frame := <[y := a]> (<[x := b]> (frame s)) |}.
Proof.
  intros Hne Hx Hy. unfold Swap, bind, read, write.
  lookups. destruct a, b. simpl. do 2 f_equal.
  apply map_eq. intros z.
  destruct (decide (y = z)) as [->|Hyz].
  { by rewrite !lookup_insert_eq. }
  destruct (decide (x = z)) as [->|Hxz].
  { rewrite !(lookup_insert_ne _ y z) by done. by rewrite !lookup_insert_eq. }
  by rewrite !lookup_insert_ne by done.
Qed.

Lemma Swap_self s x a :
  frame s !! x = Some a → Swap x x s = Ok tt s.
Proof.
  intros Hx. unfold Swap, bind, read, write.
  lookups. rewrite !insert_insert_eq. destruct a. simpl.
  rewrite insert_id by done. by destruct s.
Qed.

Lemma Swap_absent_l s x y : frame s !! x = None → Swap x y s = Stuck.
Proof. intros Hx. unfold Swap, bind, read. by rewrite Hx. Qed.

Lemma Swap_absent_r s x y : frame s !! y = None → Swap x y s = Stuck.
Proof.
  intros Hy. unfold Swap, bind, read. destruct (frame s !! x); [|done]. by rewrite Hy.
Qed.

Lemma SharedPtr_from_raw_run s x p :
  frame s !! x = None →
  SharedPtr_from_raw x p s =
    Ok tt {| heap := <[brk s := CBPtr (ControlBlockPtr_ctor p)]> (heap s);
             brk := Pos.succ (brk s);
             trace := trace s ++ [EvNewControlBlockPtr (brk s) p];
             frame := <[x := {| p_ctrl_block_ := Some (brk s); raw_ptr_ := p |}]> (frame s) |}.
Proof.
  intros Hx.
  unfold SharedPtr_from_raw, new_ControlBlockPtr, new_block, emit, bind, ret, construct.
  simpl. by rewrite Hx.
Qed.

Lemma MakeShared_run_ok s x args v :
  frame s !! x = None → T_ctor args = Some v →
  MakeShared x args s =
    Ok tt {| heap := <[brk s := CBMakeShared {| cbm_weak_cnt_ := 0; cbm_shared_cnt_ := 1;
                                                 holder_ := Some v |}]> (heap s);
             brk := Pos.succ (brk s);
             trace := trace s ++ [EvNewControlBlockMakeShared (brk s);
                                  EvPlacementNew (brk s) true];
             frame := <[x := {| p_ctrl_block_ := Some (brk s);
                                raw_ptr_ := HolderPtr (brk s) |}]> (frame s) |}.
Proof.
  intros Hx Hv.
  unfold MakeShared, SharedPtr_default, unwinding, new_ControlBlockMakeShared, new_block,
    placement_new, arrow, emit, bind, ret, construct, read, write, load_block, store_block.
  lookups. rewrite Hv. lookups.
  by rewrite !insert_insert_eq, <- app_assoc.
Qed.

Lemma MakeShared_run_throw s x args :
  frame s !! x = None → T_ctor args = None →
  MakeShared x args s =
    Throw {| heap := delete (brk s) (heap s);
             brk := Pos.succ (brk s);
             trace := trace s ++ [EvNewControlBlockMakeShared (brk s);
                                  EvPlacementNew (brk s) false;
                                  EvDestroyHolder (brk s) false;
                                  EvDeleteThis (brk s)];
             frame := frame s |}.
Proof.
  intros Hx Hv.
  unfold MakeShared, SharedPtr_default, unwinding, new_ControlBlockMakeShared, new_block,
    placement_new, arrow, emit, throw, bind, ret, construct, read, write,
    load_block, store_block.
  lookups. rewrite Hv. lookups.
  unfold SharedPtr_dtor, DecrSharedCount, ControlBlockMakeShared_DecrSharedCount,
    ControlBlockMakeShared_OnZeroShared, ControlBlockMakeShared_OnZeroWeak,
    emit, bind, ret, read, destroy, load_block, store_block, delete_block.
  lookups.
  rewrite !insert_insert_eq, !delete_insert_eq, (delete_id (frame s)) by done.
  by rewrite <- !app_assoc.
Qed.

Lemma MakeShared_occupied s x args h :
  frame s !! x = Some h → MakeShared x args s = Stuck.
Proof.
  intros Hx. unfold MakeShared, SharedPtr_default, bind, construct. by rewrite Hx.
Qed.

Lemma Get_run s x h : frame s !! x = Some h → Get x s = Ok (raw_ptr_ h) s.
Proof. intros Hx. unfold Get, bind, read, ret. by rewrite Hx. Qed.

Lemma operator_bool_run s x h :
  frame s !! x = Some h →
  operator_bool x s = Ok (if decide (raw_ptr_ h = nullptr) then false else true) s.
Proof. intros Hx. unfold operator_bool, bind, ret. by rewrite (Get_run s x h). Qed.

Lemma UseCount_run_empty s x h :
  frame s !! x = Some h → p_ctrl_block_ h = None → UseCount x s = Ok 0%Z s.
Proof. intros Hx Hc. unfold UseCount, bind, read, ret. by rewrite Hx, Hc. Qed.

Lemma UseCount_run s x h b blk :
  frame s !! x = Some h → p_ctrl_block_ h = Some b → heap s !! b = Some blk →
  UseCount x s = Ok (shared_cnt_ blk) s.
Proof.
  intros Hx Hc Hb. unfold UseCount, bind, read. rewrite Hx, Hc.
  by apply GetSharedCount_run.
Qed.

(** What a use count that was read tells about the handle. *)
Lemma UseCount_inv s x c s' :
  UseCount x s = Ok c s' →
  s' = s ∧ ∃ h, frame s !! x = Some h ∧
    ((p_ctrl_block_ h = None ∧ c = 0%Z) ∨
     (∃ b blk, p_ctrl_block_ h = Some b ∧ heap s !! b = Some blk ∧ c = shared_cnt_ blk)).
Proof.
  unfold UseCount, bind, read, ret. destruct (frame s !! x) as [h|] eqn:Hx; [|done].
  destruct (p_ctrl_block_ h) as [b|] eqn:Hc.
  - destruct (heap s !! b) as [blk|] eqn:Hb.
    + rewrite (GetSharedCount_run s b blk) by done. intros [= <- <-].
      split; [done|]. exists h. split; [done|]. right. eauto.
    + by rewrite GetSharedCount_dangling.
  - intros [= <- <-]. split; [done|]. exists h. split; [done|]. by left.
Qed.

Lemma SharedPtr_default_run s x :
  frame s !! x = None →
  SharedPtr_default x s =
    Ok tt {| heap := heap s; brk := brk s; trace := trace s;
             frame := <[x := empty_handle]> (frame s) |}.
Proof. intros Hx. unfold SharedPtr_default, construct. by rewrite Hx. Qed.

(** Copying a handle whose raw pointer is null: the copy is empty and no
    counter moves. *)
Lemma SharedPtr_copy_run_empty s x y o :
  frame s !! x = None → frame s !! y = Some o → raw_ptr_ o = nullptr →
  SharedPtr_copy x y s =
    Ok tt {| heap := heap s; brk := brk s; trace := trace s;
             frame := <[x := empty_handle]> (frame s) |}.
Proof.
  intros Hx Hy Hr. unfold SharedPtr_copy, bind. rewrite (operator_bool_run s y o) by done.
  rewrite decide_True by done. simpl. unfold construct. by rewrite Hx.
Qed.

(** Copying a handle whose raw pointer is not null. *)
Lemma SharedPtr_copy_run_shared s x y o b blk :
  frame s !! x = None → frame s !! y = Some o → raw_ptr_ o ≠ nullptr →
  p_ctrl_block_ o = Some b → heap s !! b = Some blk →
  SharedPtr_copy x y s =
    Ok tt {| heap := <[b := with_shared_cnt (size_t_incr (shared_cnt_ blk)) blk]> (heap s);
             brk := brk s; trace := trace s;
             frame := <[x := o]> (frame s) |}.
Proof.
  intros Hx Hy Hr Hc Hb. unfold SharedPtr_copy, bind.
  rewrite (operator_bool_run s y o) by done. rewrite decide_False by done. simpl.
  unfold read, construct. rewrite Hy, Hx, Hc. simpl.
  rewrite (IncrSharedCount_run _ b blk) by done. simpl.
  destruct o as [c r]. simpl in *. by rewrite Hc.
Qed.

Lemma SharedPtr_move_run s x y o :
  frame s !! x = None → frame s !! y = Some o →
  SharedPtr_move x y s =
    Ok tt {| heap := heap s; brk := brk s; trace := trace s;
             frame := <[y := empty_handle]> (<[x := o]> (frame s)) |}.
Proof.
  intros Hx Hy. assert (x ≠ y) as Hne by congruence.
  unfold SharedPtr_move, bind, read, construct, write. lookups. by destruct o.
Qed.

Lemma SharedPtr_alias_run s x y p o b blk :
  frame s !! x = None → frame s !! y = Some o →
  p_ctrl_block_ o = Some b → heap s !! b = Some blk →
  SharedPtr_alias x y p s =
    Ok tt {| heap := <[b := with_shared_cnt (size_t_incr (shared_cnt_ blk)) blk]> (heap s);
             brk := brk s; trace := trace s;
             frame := <[x := {| p_ctrl_block_ := Some b; raw_ptr_ := p |}]> (frame s) |}.
Proof.
  intros Hx Hy Hc Hb. unfold SharedPtr_alias, bind.
  rewrite (operator_bool_run s y o) by done.
  unfold read, construct. rewrite Hy, Hc. simpl.
  rewrite (IncrSharedCount_run _ b blk) by done. simpl. by rewrite Hx.
Qed.

Lemma SharedPtr_dtor_run_empty s x h :
  frame s !! x = Some h → p_ctrl_block_ h = None →
  SharedPtr_dtor x s =
    Ok tt {| heap := heap s; brk := brk s; trace := trace s;
             frame := delete x (frame s) |}.
Proof. intros Hx Hc. unfold SharedPtr_dtor, bind, read, ret, destroy. by rewrite Hx, Hc. Qed.

Lemma SharedPtr_dtor_run_owner s x h b s1 :
  frame s !! x = Some h → p_ctrl_block_ h = Some b →
  DecrSharedCount b s = Ok tt s1 →
  SharedPtr_dtor x s =
    Ok tt {| heap := heap s1; brk := brk s1; trace := trace s1;
             frame := delete x (frame s1) |}.
Proof.
  intros Hx Hc Hd. unfold SharedPtr_dtor, bind, read, destroy. by rewrite Hx, Hc, Hd.
Qed.

(** [DecrSharedCount] touches its own block only, and no handle. *)
Lemma DecrSharedCount_frame s b blk :
  heap s !! b = Some blk →
  ∃ s1, DecrSharedCount b s = Ok tt s1 ∧ frame s1 = frame s ∧ brk s1 = brk s ∧
        ∀ b', b' ≠ b → heap s1 !! b' = heap s !! b'.
Proof.
  intros Hb.
  destruct (decide (size_t_decr (shared_cnt_ blk) = 0%Z)) as [Hz|Hnz];
    [destruct (decide (weak_cnt_ blk = 0%Z)) as [Hw|Hw]|].
  - eexists. split; [by apply (DecrSharedCount_last s b blk)|]. simpl.
    repeat split; try done. intros b' Hne. by rewrite lookup_delete_ne.
  - eexists. split; [by apply (DecrSharedCount_last_weak s b blk)|]. simpl.
    repeat split; try done. intros b' Hne. by rewrite lookup_insert_ne.
  - eexists. split; [by apply (DecrSharedCount_more s b blk)|]. simpl.
    repeat split; try done. intros b' Hne. by rewrite lookup_insert_ne.
Qed.

(** *** Every member preserves well-formedness *)

Lemma SharedPtr_default_spec s x :
  Inv s → (Z.of_nat (size (frame s)) < SIZE_MAX)%Z →
  spec (SharedPtr_default x) s (grown s) never False.
Proof.
  intros HI Hsz. unfold spec, SharedPtr_default, construct.
  destruct (frame s !! x) eqn:Hx; [done|].
  split; [by apply Inv_construct_empty|]. simpl. by rewrite map_size_insert_None.
Qed.

Lemma SharedPtr_from_raw_spec s x p :
  Inv s → (Z.of_nat (size (frame s)) < SIZE_MAX)%Z →
  spec (SharedPtr_from_raw x p) s (grown s) never False.
Proof.
  intros HI Hsz. unfold spec.
  destruct (frame s !! x) eqn:Hx.
  - unfold SharedPtr_from_raw, new_ControlBlockPtr, new_block, emit, bind, ret, construct.
    simpl. by rewrite Hx.
  - rewrite SharedPtr_from_raw_run by done.
    split; [|simpl; by rewrite map_size_insert_None].
    apply Inv_construct_new; try done.
    intros p'. split; [done|]. unfold registrations. simpl.
    case_bool_decide; by case_decide.
Qed.

Lemma SharedPtr_copy_spec s x y :
  Inv s → (Z.of_nat (size (frame s)) < SIZE_MAX)%Z →
  spec (SharedPtr_copy x y) s (grown s) never False.
Proof.
  intros HI Hsz. unfold spec, SharedPtr_copy, operator_bool, Get, bind, read, ret.
  destruct (frame s !! y) as [o|] eqn:Hy; [|done].
  destruct (decide (raw_ptr_ o = nullptr)) as [Hnull|Hnn]; simpl.
  - unfold construct. destruct (frame s !! x) eqn:Hx; [done|].
    split; [by apply Inv_construct_empty|]. simpl. by rewrite map_size_insert_None.
  - rewrite Hy. unfold construct. destruct (frame s !! x) eqn:Hx; [done|].
    destruct (p_ctrl_block_ o) as [b|] eqn:Hc; [|by destruct (inv_raw s HI y o Hy Hnn)].
    destruct (inv_frame s HI y o b Hy Hc) as [blk Hb].
    simpl. rewrite (IncrSharedCount_run _ b blk) by done. simpl.
    split; [by apply Inv_construct_shared|]. simpl. by rewrite map_size_insert_None.
Qed.

Lemma SharedPtr_move_spec s x y :
  Inv s → (Z.of_nat (size (frame s)) < SIZE_MAX)%Z →
  spec (SharedPtr_move x y) s (grown s) never False.
Proof.
  intros HI Hsz. unfold spec, SharedPtr_move, bind, read, construct, write.
  destruct (frame s !! y) as [o|] eqn:Hy; [|done].
  destruct (frame s !! x) eqn:Hx; [done|]. simpl.
  assert (x ≠ y) as Hne by congruence.
  rewrite lookup_insert_ne, Hy by done. destruct o as [c r]. simpl.
  split; [by apply (Inv_move s x y)|]. simpl.
  rewrite map_size_insert_Some by (rewrite lookup_insert_ne by done; eauto).
  by rewrite map_size_insert_None.
Qed.

(** The aliasing constructor dereferences [other]'s control-block pointer
    even when it is null. *)
Lemma SharedPtr_alias_spec s x y p :
  Inv s → (Z.of_nat (size (frame s)) < SIZE_MAX)%Z →
  spec (SharedPtr_alias x y p) s (grown s) never
    (∃ o, frame s !! y = Some o ∧ p_ctrl_block_ o = None).
Proof.
  intros HI Hsz. unfold spec, SharedPtr_alias, operator_bool, Get, bind, read, ret.
  destruct (frame s !! y) as [o|] eqn:Hy; [|done]. simpl. rewrite Hy.
  destruct (p_ctrl_block_ o) as [b|] eqn:Hc; [|simpl; eauto].
  destruct (inv_frame s HI y o b Hy Hc) as [blk Hb].
  simpl. rewrite (IncrSharedCount_run _ b blk) by done.
  unfold construct. simpl. destruct (frame s !! x) eqn:Hx; [done|].
  split; [by apply Inv_construct_shared|]. simpl. by rewrite map_size_insert_None.
Qed.

Lemma SharedPtr_dtor_spec s x :
  Inv s → spec (SharedPtr_dtor x) s (shrunk s) never False.
Proof.
  intros HI. unfold spec, SharedPtr_dtor, bind, read.
  destruct (frame s !! x) as [h|] eqn:Hx; [|done].
  destruct (p_ctrl_block_ h) as [b|] eqn:Hc.
  - destruct (Inv_destroy_owner s x h b HI Hx Hc) as (s1 & Hrun & Hfr & HI1).
    rewrite Hrun. unfold destroy. rewrite Hfr.
    split; [done|]. simpl. by rewrite map_size_delete_Some.
  - unfold ret, destroy. split; [by apply (Inv_destroy_empty s x h)|].
    simpl. by rewrite map_size_delete_Some.
Qed.

Lemma Swap_spec s x y :
  Inv s → spec (Swap x y) s (kept s) never False.
Proof.
  intros HI. unfold spec.
  destruct (frame s !! x) as [a|] eqn:Hx; [|by rewrite Swap_absent_l].
  destruct (frame s !! y) as [b|] eqn:Hy; [|by rewrite Swap_absent_r].
  destruct (decide (x = y)) as [->|Hne].
  - rewrite (Swap_self s y a) by done. by split.
  - rewrite (Swap_run s x y a b) by done.
    split; [by apply Inv_swap|]. simpl.
    rewrite map_size_insert_Some by (rewrite lookup_insert_ne by done; eauto).
    by rewrite map_size_insert_Some.
Qed.

Lemma MakeShared_spec s x args :
  Inv s → (Z.of_nat (size (frame s)) < SIZE_MAX)%Z →
  spec (MakeShared x args) s (grown s) (kept s tt) False.
Proof.
  intros HI Hsz. unfold spec.
  destruct (frame s !! x) as [h|] eqn:Hx; [by rewrite (MakeShared_occupied s x args h)|].
  destruct (T_ctor args) as [v|] eqn:Hv.
  - rewrite (MakeShared_run_ok s x args v) by done.
    split; [|simpl; by rewrite map_size_insert_None].
    by apply Inv_construct_new.
  - rewrite (MakeShared_run_throw s x args) by done.
    rewrite delete_id by by apply Inv_fresh_block.
    split; [|done]. apply Inv_alloc_release; [done| |done].
    intros b. unfold payload_destructions. simpl.
    case_bool_decide; case_decide; done || congruence.
Qed.

Lemma spec_catch (m : M unit) s (Q : unit → state → Prop) E U :
  spec m s Q E U → (∀ s', E s' → Q tt s') → spec (catch m) s Q never U.
Proof.
  unfold spec, catch. intros Hm HE. destruct (m s) as [[] s'|s'| |]; auto.
Qed.

(** A temporary is constructed by [ctor], swapped with [x] and destroyed. *)
Lemma via_temporary_spec (ctor : var → M unit) s x U :
  Inv s →
  (∀ tmp, spec (ctor tmp) s (grown s) never U) →
  spec (tmp <- temporary ;; ctor tmp ;;; Swap tmp x ;;; SharedPtr_dtor tmp) s (kept s) never U.
Proof.
  intros HI Hctor. apply spec_bind with (Q := fun _ s' => s' = s); [done|].
  intros tmp ? ->. eapply spec_bind; [apply Hctor|].
  intros [] s1 [HI1 Hsz1]. eapply spec_bind.
  { eapply spec_weaken; [by apply Swap_spec|done|done|done]. }
  intros [] s2 [HI2 Hsz2].
  eapply spec_weaken; [by apply SharedPtr_dtor_spec| |done|done].
  intros [] s3 [HI3 Hsz3]. split; [done|]. rewrite Hsz3, Hsz2, Hsz1. done.
Qed.

Lemma operator_assign_spec s x y :
  Inv s → (Z.of_nat (size (frame s)) < SIZE_MAX)%Z →
  spec (operator_assign x y) s (kept s) never False.
Proof.
  intros HI Hsz. apply (via_temporary_spec (fun tmp => SharedPtr_copy tmp y)); [done|].
  intros tmp. by apply SharedPtr_copy_spec.
Qed.

Lemma operator_assign_move_spec s x y :
  Inv s → (Z.of_nat (size (frame s)) < SIZE_MAX)%Z →
  spec (operator_assign_move x y) s (kept s) never False.
Proof.
  intros HI Hsz. apply (via_temporary_spec (fun tmp => SharedPtr_move tmp y)); [done|].
  intros tmp. by apply SharedPtr_move_spec.
Qed.

Lemma Reset_spec s x :
  Inv s → (Z.of_nat (size (frame s)) < SIZE_MAX)%Z →
  spec (Reset x) s (kept s) never False.
Proof.
  intros HI Hsz. apply (via_temporary_spec (fun tmp => SharedPtr_default tmp)); [done|].
  intros tmp. by apply SharedPtr_default_spec.
Qed.

Lemma Reset_ptr_spec s x p :
  Inv s → (Z.of_nat (size (frame s)) < SIZE_MAX)%Z →
  spec (Reset_ptr x p) s (kept s) never False.
Proof.
  intros HI Hsz. apply (via_temporary_spec (fun tmp => SharedPtr_from_raw tmp p)); [done|].
  intros tmp. by apply SharedPtr_from_raw_spec.
Qed.

(** Every statement keeps the state well-formed and adds at most one handle. *)
Lemma step_spec o s :
  Inv s → (Z.of_nat (size (frame s)) < SIZE_MAX)%Z →
  spec (step o) s (fun _ s' => Inv s' ∧ size (frame s') ≤ S (size (frame s)))
    never (is_alias o).
Proof.
  intros HI Hsz.
  assert (∀ (m : M unit) (Q : unit → state → Prop) (U : Prop),
    (∀ a s', Q a s' → Inv s' ∧ size (frame s') ≤ S (size (frame s))) →
    (U → is_alias o) →
    spec m s Q never U →
    spec m s (fun _ s' => Inv s' ∧ size (frame s') ≤ S (size (frame s)))
      never (is_alias o)) as Hw.
  { intros m Q U HQ HU Hm. eapply spec_weaken; [exact Hm|exact HQ|done|exact HU]. }
  assert (∀ a s', grown s a s' → Inv s' ∧ size (frame s') ≤ S (size (frame s))) as Hg.
  { intros a s' [? ->]. split; [done|lia]. }
  assert (∀ a s', kept s a s' → Inv s' ∧ size (frame s') ≤ S (size (frame s))) as Hk.
  { intros a s' [? ->]. split; [done|lia]. }
  assert (∀ a s', shrunk s a s' → Inv s' ∧ size (frame s') ≤ S (size (frame s))) as Hs.
  { intros a s' [? ->]. split; [done|lia]. }
  destruct o; simpl.
  - apply (Hw _ _ False Hg); [done|]. by apply SharedPtr_default_spec.
  - apply (Hw _ _ False Hg); [done|]. by apply SharedPtr_default_spec.
  - apply (Hw _ _ False Hg); [done|]. by apply SharedPtr_from_raw_spec.
  - apply (Hw _ _ False Hg); [done|]. by apply SharedPtr_copy_spec.
  - apply (Hw _ _ False Hg); [done|]. by apply SharedPtr_move_spec.
  - eapply (Hw _ _ _ Hg); [done|]. by apply SharedPtr_alias_spec.
  - apply (Hw _ (fun _ s' => Inv s' ∧ size (frame s') ≤ S (size (frame s))) False); [done|done|].
    apply spec_catch with (E := kept s tt).
    + eapply spec_weaken; [by apply MakeShared_spec|exact Hg|done|done].
    + intros s' [? ->]. split; [done|lia].
  - apply (Hw _ _ False Hk); [done|]. by apply operator_assign_spec.
  - apply (Hw _ _ False Hk); [done|]. by apply operator_assign_move_spec.
  - apply (Hw _ _ False Hk); [done|]. by apply Reset_spec.
  - apply (Hw _ _ False Hk); [done|]. by apply Reset_ptr_spec.
  - apply (Hw _ _ False Hk); [done|]. by apply Swap_spec.
  - apply (Hw _ _ False Hs); [done|]. by apply SharedPtr_dtor_spec.
Qed.

(** Every caller of fewer than 2^64 statements keeps the state well-formed;
    only the aliasing constructor can make its behaviour undefined. *)
Lemma run_spec prog s :
  Inv s → (Z.of_nat (size (frame s) + length prog) ≤ SIZE_MAX)%Z →
  spec (run prog) s (fun _ s' => Inv s') never (Exists is_alias prog).
Proof.
  revert s. induction prog as [|o prog IH]; intros s HI Hsz; simpl.
  - done.
  - eapply spec_bind.
    + eapply spec_weaken; [apply step_spec; [done|simpl in Hsz; lia]| |done|].
      * intros a s' H. exact H.
      * intros H. by apply Exists_cons_hd.
    + intros [] s' [HI' Hsz']. simpl in Hsz'.
      eapply spec_weaken; [apply IH; [done|simpl in Hsz; lia]|done|done|].
      intros H. by apply Exists_cons_tl.
Qed.

Lemma run_Inv prog s :
  (Z.of_nat (length prog) ≤ SIZE_MAX)%Z → run prog init = Ok tt s → Inv s.
Proof.
  intros Hlen Hrun.
  apply (spec_Ok (run prog) init tt s _ _ _ (run_spec prog init Inv_init Hlen) Hrun).
Qed.

Lemma run_not_UB prog :
  (Z.of_nat (length prog) ≤ SIZE_MAX)%Z → Forall (fun o => ¬ is_alias o) prog →
  run prog init ≠ UB.
Proof.
  intros Hlen Hfree. eapply spec_not_UB.
  eapply spec_weaken; [exact (run_spec prog init Inv_init Hlen)|done|done|].
  intros Hex. apply Exists_exists in Hex as (o & Ho & Halias).
  by apply (proj1 (Forall_forall _ _) Hfree o Ho).
Qed.

(** *** The trace only grows *)

Lemma extends_refl s : extends s s.
Proof. exists []. by rewrite app_nil_r. Qed.

Lemma extends_eq s s' : trace s' = trace s → extends s s'.
Proof. intros H. exists []. by rewrite app_nil_r. Qed.

Lemma extends_trans s1 s2 s3 : extends s1 s2 → extends s2 s3 → extends s1 s3.
Proof. intros [e1 H1] [e2 H2]. exists (e1 ++ e2). by rewrite H2, H1, app_assoc. Qed.

Lemma payload_destructions_extends b s s' :
  extends s s' → payload_destructions b (trace s) ≤ payload_destructions b (trace s').
Proof. intros [evs ->]. rewrite payload_destructions_app. lia. Qed.

Lemma monotone_ret {A} (a : A) : monotone (ret a).
Proof. intros s. by apply extends_eq. Qed.

Lemma monotone_bind {A B} (m : M A) (k : A → M B) :
  monotone m → (∀ a, monotone (k a)) → monotone (bind m k).
Proof.
  intros Hm Hk s. specialize (Hm s). unfold spec, bind in *.
  destruct (m s) as [a s1|s1| |]; try done.
  specialize (Hk a s1). unfold spec in Hk.
  destruct (k a s1) as [b s2|s2| |]; try done; by apply (extends_trans s s1 s2).
Qed.

Lemma monotone_unwinding {A} (m : M A) (cleanup : M unit) :
  monotone m → monotone cleanup → monotone (unwinding m cleanup).
Proof.
  intros Hm Hc s. specialize (Hm s). unfold spec, unwinding in *.
  destruct (m s) as [a s1|s1| |]; try done.
  specialize (Hc s1). unfold spec in Hc.
  destruct (cleanup s1) as [b s2|s2| |]; try done; by apply (extends_trans s s1 s2).
Qed.

Lemma monotone_catch (m : M unit) : monotone m → monotone (catch m).
Proof.
  intros Hm s. specialize (Hm s). unfold spec, catch in *.
  by destruct (m s) as [[] s1|s1| |].
Qed.

Lemma monotone_throw {A} : monotone (throw (A:=A)).
Proof. intros s. by apply extends_eq. Qed.

Lemma monotone_undefined {A} : monotone (undefined (A:=A)).
Proof. by intros s. Qed.

Lemma monotone_emit e : monotone (emit e).
Proof. intros s. by exists [e]. Qed.

Lemma monotone_new_block blk : monotone (new_block blk).
Proof. intros s. by apply extends_eq. Qed.

Lemma monotone_load_block this : monotone (load_block this).
Proof. intros s. unfold spec, load_block. destruct (heap s !! this); [by apply extends_eq|done]. Qed.

Lemma monotone_store_block this blk : monotone (store_block this blk).
Proof. intros s. by apply extends_eq. Qed.

Lemma monotone_delete_block this : monotone (delete_block this).
Proof. intros s. by apply extends_eq. Qed.

Lemma monotone_construct this h : monotone (construct this h).
Proof. intros s. unfold spec, construct. destruct (frame s !! this); [done|by apply extends_eq]. Qed.

Lemma monotone_read this : monotone (read this).
Proof. intros s. unfold spec, read. destruct (frame s !! this); [by apply extends_eq|done]. Qed.

Lemma monotone_write this h : monotone (write this h).
Proof. intros s. unfold spec, write. destruct (frame s !! this); [by apply extends_eq|done]. Qed.

Lemma monotone_destroy this : monotone (destroy this).
Proof. intros s. by apply extends_eq. Qed.

Lemma monotone_temporary : monotone temporary.
Proof. intros s. by apply extends_eq. Qed.

#[local] Hint Resolve monotone_ret monotone_throw monotone_undefined monotone_emit
  monotone_new_block monotone_load_block monotone_store_block monotone_delete_block
  monotone_construct monotone_read monotone_write monotone_destroy monotone_temporary : mono.

(** Take a member apart into its statements. *)
Ltac mono :=
  cbv zeta;
  repeat match goal with
  | |- monotone (bind _ _) => apply monotone_bind
  | |- monotone (unwinding _ _) => apply monotone_unwinding
  | |- monotone (catch _) => apply monotone_catch
  | |- monotone (if ?b then _ else _) => destruct b
  | |- monotone (match ?x with _ => _ end) => destruct x
  | |- ∀ _, _ => intro
  | |- monotone _ => solve [eauto with mono]
  end.

Lemma monotone_IncrSharedCount this : monotone (IncrSharedCount this).
Proof.
  unfold IncrSharedCount, ControlBlockPtr_IncrSharedCount,
    ControlBlockMakeShared_IncrSharedCount. mono.
Qed.

Lemma monotone_DecrSharedCount this : monotone (DecrSharedCount this).
Proof.
  unfold DecrSharedCount, ControlBlockPtr_DecrSharedCount,
    ControlBlockMakeShared_DecrSharedCount, ControlBlockPtr_OnZeroShared,
    ControlBlockPtr_OnZeroWeak, ControlBlockMakeShared_OnZeroShared,
    ControlBlockMakeShared_OnZeroWeak. mono.
Qed.

Lemma monotone_GetSharedCount this : monotone (GetSharedCount this).
Proof. unfold GetSharedCount. mono. Qed.

#[local] Hint Resolve monotone_IncrSharedCount monotone_DecrSharedCount
  monotone_GetSharedCount : mono.

Lemma monotone_operator_bool this : monotone (operator_bool this).
Proof. unfold operator_bool, Get. mono. Qed.

#[local] Hint Resolve monotone_operator_bool : mono.

Lemma monotone_SharedPtr_default this : monotone (SharedPtr_default this).
Proof. unfold SharedPtr_default. mono. Qed.

Lemma monotone_SharedPtr_from_raw this p : monotone (SharedPtr_from_raw this p).
Proof. unfold SharedPtr_from_raw, new_ControlBlockPtr. mono. Qed.

Lemma monotone_SharedPtr_copy this other : monotone (SharedPtr_copy this other).
Proof. unfold SharedPtr_copy, arrow. mono. Qed.

Lemma monotone_SharedPtr_move this other : monotone (SharedPtr_move this other).
Proof. unfold SharedPtr_move. mono. Qed.

Lemma monotone_SharedPtr_alias this other p : monotone (SharedPtr_alias this other p).
Proof. unfold SharedPtr_alias, arrow. mono. Qed.

Lemma monotone_SharedPtr_dtor this : monotone (SharedPtr_dtor this).
Proof. unfold SharedPtr_dtor. mono. Qed.

Lemma monotone_Swap this other : monotone (Swap this other).
Proof. unfold Swap. mono. Qed.

#[local] Hint Resolve monotone_SharedPtr_default monotone_SharedPtr_from_raw
  monotone_SharedPtr_copy monotone_SharedPtr_move monotone_SharedPtr_alias
  monotone_SharedPtr_dtor monotone_Swap : mono.

Lemma monotone_MakeShared this args : monotone (MakeShared this args).
Proof.
  unfold MakeShared, new_ControlBlockMakeShared, arrow, placement_new. mono.
Qed.

#[local] Hint Resolve monotone_MakeShared : mono.

Lemma monotone_step o : monotone (step o).
Proof.
  destruct o; simpl;
    unfold SharedPtr_nullptr, operator_assign, operator_assign_move, Reset, Reset_ptr; mono.
Qed.

Lemma monotone_run prog : monotone (run prog).
Proof.
  induction prog as [|o prog IH]; simpl.
  - apply monotone_ret.
  - apply monotone_bind; [apply monotone_step|done].
Qed.

Lemma run_app pre post s :
  run (pre ++ post) s = bind (run pre) (fun _ => run post) s.
Proof.
  revert s. induction pre as [|o pre IH]; intros s; simpl.
  - done.
  - unfold bind in *. destruct (step o s) as [[] s1|s1| |]; [apply IH|done..].
Qed.

(** *** Handles with a control block exactly when they have a raw pointer *)

(** Decide the memberships that the sets of names branch on. *)
Ltac names :=
  repeat match goal with
         | H : context [decide ?P] |- _ => destruct (decide P)
         | |- context [decide ?P] => destruct (decide P)
         end;
  set_unfold; intros; subst; try tauto; intuition congruence.

Lemma paired_owner b p : p ≠ nullptr → paired {| p_ctrl_block_ := Some b; raw_ptr_ := p |}.
Proof. intros Hp. unfold paired. simpl. split; [done|]. intros. by destruct Hp. Qed.

Lemma paired_nonnull h : raw_ptr_ h ≠ nullptr → is_Some (p_ctrl_block_ h) → paired h.
Proof. intros Hr [b Hc]. unfold paired. rewrite Hc. split; [done|]. intros. by destruct Hr. Qed.

Lemma Paired_except_insert N (fr : gmap var SharedPtr) x h :
  Paired_except N fr → paired h → Paired_except (N ∖ {[x]}) (<[x := h]> fr).
Proof.
  intros HP Hh y h' Hy Hn. apply lookup_insert_Some in Hy as [[_ <-]|[Hne Hy]]; [done|].
  apply (HP y); [done|]. names.
Qed.

Lemma Paired_except_insert_any N (fr : gmap var SharedPtr) x h :
  Paired_except N fr → Paired_except (N ∪ {[x]}) (<[x := h]> fr).
Proof.
  intros HP y h' Hy Hn. apply lookup_insert_Some in Hy as [[<- _]|[Hne Hy]]; [set_solver|].
  apply (HP y); [done|]. names.
Qed.

Lemma Paired_except_delete N (fr : gmap var SharedPtr) x :
  Paired_except N fr → Paired_except (N ∖ {[x]}) (delete x fr).
Proof.
  intros HP y h' Hy Hn. apply lookup_delete_Some in Hy as [Hne Hy].
  apply (HP y); [done|]. names.
Qed.

Lemma Paired_except_absent N (fr : gmap var SharedPtr) x :
  fr !! x = None → Paired_except N fr → Paired_except (N ∖ {[x]}) fr.
Proof.
  intros Hx HP y h' Hy Hn. apply (HP y); [done|].
  assert (y ≠ x) by congruence. names.
Qed.

Lemma Paired_except_mono N N' (fr : gmap var SharedPtr) :
  N ⊆ N' → Paired_except N fr → Paired_except N' fr.
Proof.
  intros Hsub HP y h Hy Hn. apply (HP y); [done|]. intros HN. apply Hn. by apply Hsub.
Qed.

Lemma SharedPtr_default_paired N s x :
  Paired_except N (frame s) →
  spec (SharedPtr_default x) s (fun _ s' => Paired_except (N ∖ {[x]}) (frame s')) never True.
Proof.
  intros HP. unfold spec, SharedPtr_default, construct.
  destruct (frame s !! x); [done|]. by apply Paired_except_insert.
Qed.

Lemma SharedPtr_from_raw_paired N s x p :
  Paired_except N (frame s) →
  spec (SharedPtr_from_raw x p) s
    (fun _ s' => Paired_except (if decide (p = nullptr) then N ∪ {[x]} else N ∖ {[x]})
                   (frame s')) never True.
Proof.
  intros HP. unfold spec. destruct (frame s !! x) eqn:Hx.
  - unfold SharedPtr_from_raw, new_ControlBlockPtr, new_block, emit, bind, ret, construct.
    simpl. by rewrite Hx.
  - rewrite SharedPtr_from_raw_run by done. simpl. case_decide.
    + by apply Paired_except_insert_any.
    + apply Paired_except_insert; [done|by apply paired_owner].
Qed.

Lemma SharedPtr_copy_paired N s x y :
  Paired_except N (frame s) →
  spec (SharedPtr_copy x y) s (fun _ s' => Paired_except (N ∖ {[x]}) (frame s')) never True.
Proof.
  intros HP. unfold spec.
  destruct (frame s !! y) as [o|] eqn:Hy;
    [|unfold SharedPtr_copy, operator_bool, Get, bind, read; by rewrite Hy].
  destruct (frame s !! x) as [h|] eqn:Hx.
  { unfold SharedPtr_copy, operator_bool, Get, bind, read, ret, construct. rewrite Hy. simpl.
    destruct (decide (raw_ptr_ o = nullptr)); simpl; by rewrite ?Hy, Hx. }
  destruct (decide (raw_ptr_ o = nullptr)) as [Hnull|Hnn].
  - rewrite (SharedPtr_copy_run_empty s x y o) by done. by apply Paired_except_insert.
  - destruct (p_ctrl_block_ o) as [b|] eqn:Hc.
    + destruct (heap s !! b) as [blk|] eqn:Hb.
      * rewrite (SharedPtr_copy_run_shared s x y o b blk) by done.
        apply Paired_except_insert; [done|]. apply paired_nonnull; [done|]. by rewrite Hc.
      * unfold SharedPtr_copy, operator_bool, Get, bind, read, ret, construct.
        rewrite Hy. simpl. rewrite decide_False by done. simpl. rewrite Hy, Hx, Hc. simpl.
        by rewrite IncrSharedCount_dangling.
    + unfold SharedPtr_copy, operator_bool, Get, bind, read, ret, construct.
      rewrite Hy. simpl. rewrite decide_False by done. simpl. by rewrite Hy, Hx, Hc.
Qed.

Lemma SharedPtr_move_paired N s x y :
  Paired_except N (frame s) →
  spec (SharedPtr_move x y) s (fun _ s' => Paired_except (move_names x y N) (frame s'))
    never True.
Proof.
  intros HP. unfold spec.
  destruct (frame s !! y) as [o|] eqn:Hy;
    [|unfold SharedPtr_move, bind, read; by rewrite Hy].
  destruct (frame s !! x) as [h|] eqn:Hx.
  { unfold SharedPtr_move, bind, read, construct. by rewrite Hy, Hx. }
  assert (x ≠ y) as Hne by congruence.
  rewrite (SharedPtr_move_run s x y o) by done. simpl.
  intros z h Hz Hn. unfold move_names in Hn.
  apply lookup_insert_Some in Hz as [[<- <-]|[Hzy Hz]]; [done|].
  apply lookup_insert_Some in Hz as [[<- <-]|[Hzx Hz]].
  - apply (HP y); [done|]. names.
  - apply (HP z); [done|]. names.
Qed.

Lemma SharedPtr_alias_paired N s x y p :
  Paired_except N (frame s) →
  spec (SharedPtr_alias x y p) s
    (fun _ s' => Paired_except (if decide (p = nullptr) then N ∪ {[x]} else N ∖ {[x]})
                   (frame s')) never True.
Proof.
  intros HP. unfold spec.
  destruct (frame s !! y) as [o|] eqn:Hy;
    [|unfold SharedPtr_alias, operator_bool, Get, bind, read; by rewrite Hy].
  destruct (p_ctrl_block_ o) as [b|] eqn:Hc.
  - destruct (heap s !! b) as [blk|] eqn:Hb.
    + destruct (frame s !! x) as [h|] eqn:Hx.
      * unfold SharedPtr_alias, operator_bool, Get, bind, read, ret, construct.
        rewrite Hy. simpl. rewrite Hy, Hc. simpl.
        rewrite (IncrSharedCount_run _ b blk) by done. simpl. by rewrite Hx.
      * rewrite (SharedPtr_alias_run s x y p o b blk) by done. simpl. case_decide.
        -- by apply Paired_except_insert_any.
        -- apply Paired_except_insert; [done|by apply paired_owner].
    + unfold SharedPtr_alias, operator_bool, Get, bind, read, ret, construct.
      rewrite Hy. simpl. rewrite Hy, Hc. simpl.
      by rewrite IncrSharedCount_dangling.
  - unfold SharedPtr_alias, operator_bool, Get, bind, read, ret, construct.
    rewrite Hy. simpl. by rewrite Hy, Hc.
Qed.

Lemma SharedPtr_dtor_paired N s x :
  Paired_except N (frame s) →
  spec (SharedPtr_dtor x) s (fun _ s' => Paired_except (N ∖ {[x]}) (frame s')) never True.
Proof.
  intros HP. unfold spec.
  destruct (frame s !! x) as [h|] eqn:Hx;
    [|unfold SharedPtr_dtor, bind, read; by rewrite Hx].
  destruct (p_ctrl_block_ h) as [b|] eqn:Hc.
  - destruct (heap s !! b) as [blk|] eqn:Hb.
    + destruct (DecrSharedCount_frame s b blk Hb) as (s1 & Hrun & Hfr & _).
      rewrite (SharedPtr_dtor_run_owner s x h b s1) by done.
      simpl. rewrite Hfr. by apply Paired_except_delete.
    + unfold SharedPtr_dtor, bind, read. rewrite Hx, Hc.
      by rewrite DecrSharedCount_dangling.
  - rewrite (SharedPtr_dtor_run_empty s x h) by done. by apply Paired_except_delete.
Qed.

Lemma Swap_paired N s x y :
  Paired_except N (frame s) →
  spec (Swap x y) s (fun _ s' => Paired_except (swap_names x y N) (frame s')) never True.
Proof.
  intros HP. unfold spec.
  destruct (frame s !! x) as [a|] eqn:Hx; [|by rewrite Swap_absent_l].
  destruct (frame s !! y) as [b|] eqn:Hy; [|by rewrite Swap_absent_r].
  destruct (decide (x = y)) as [->|Hne].
  - rewrite (Swap_self s y a) by done.
    intros z h Hz Hn. apply (HP z); [done|]. unfold swap_names in Hn.
    names.
  - rewrite (Swap_run s x y a b) by done. simpl.
    intros z h Hz Hn. unfold swap_names in Hn.
    apply lookup_insert_Some in Hz as [[<- <-]|[Hzy Hz]].
    { apply (HP x); [done|]. names. }
    apply lookup_insert_Some in Hz as [[<- <-]|[Hzx Hz]].
    { apply (HP y); [done|]. names. }
    apply (HP z); [done|]. names.
Qed.

Lemma MakeShared_paired N s x args :
  Paired_except N (frame s) →
  spec (MakeShared x args) s
    (fun _ s' => Paired_except (N ∖ {[x]}) (frame s'))
    (fun s' => Paired_except (N ∖ {[x]}) (frame s')) True.
Proof.
  intros HP. unfold spec.
  destruct (frame s !! x) as [h|] eqn:Hx; [by rewrite (MakeShared_occupied s x args h)|].
  destruct (T_ctor args) as [v|] eqn:Hv.
  - rewrite (MakeShared_run_ok s x args v) by done.
    apply Paired_except_insert; [done|by apply paired_owner].
  - rewrite (MakeShared_run_throw s x args) by done. by apply Paired_except_absent.
Qed.

(** A temporary is constructed by [ctor], swapped with [x] and destroyed:
    [x] holds what the temporary held. *)
Lemma via_temporary_paired (ctor : var → M unit) (N1 : var → gset var) N' s x :
  (∀ tmp, spec (ctor tmp) s (fun _ s' => Paired_except (N1 tmp) (frame s')) never True) →
  (∀ tmp, swap_names tmp x (N1 tmp) ∖ {[tmp]} ⊆ N') →
  spec (tmp <- temporary ;; ctor tmp ;;; Swap tmp x ;;; SharedPtr_dtor tmp) s
    (fun _ s' => Paired_except N' (frame s')) never True.
Proof.
  intros Hctor Hsub. apply spec_bind with (Q := fun _ s' => s' = s); [done|].
  intros tmp ? ->. eapply spec_bind; [apply Hctor|].
  intros [] s1 HP1. eapply spec_bind; [by apply Swap_paired|].
  intros [] s2 HP2.
  eapply spec_weaken; [by apply SharedPtr_dtor_paired| |done|done].
  intros [] s3 HP3. by apply (Paired_except_mono _ _ _ (Hsub tmp)).
Qed.

Lemma step_paired o N s :
  Paired_except N (frame s) →
  spec (step o) s (fun _ s' => Paired_except (null_made o N) (frame s')) never True.
Proof.
  intros HP. destruct o; simpl.
  - by apply SharedPtr_default_paired.
  - by apply SharedPtr_default_paired.
  - by apply SharedPtr_from_raw_paired.
  - by apply SharedPtr_copy_paired.
  - by apply SharedPtr_move_paired.
  - by apply SharedPtr_alias_paired.
  - eapply spec_catch; [by apply MakeShared_paired|done].
  - apply (via_temporary_paired (fun tmp => SharedPtr_copy tmp y) (fun tmp => N ∖ {[tmp]})).
    + intros tmp. by apply SharedPtr_copy_paired.
    + intros tmp. unfold swap_names. names.
  - apply (via_temporary_paired (fun tmp => SharedPtr_move tmp y)
             (fun tmp => move_names tmp y N)).
    + intros tmp. by apply SharedPtr_move_paired.
    + intros tmp. unfold swap_names, move_names. names.
  - apply (via_temporary_paired (fun tmp => SharedPtr_default tmp) (fun tmp => N ∖ {[tmp]})).
    + intros tmp. by apply SharedPtr_default_paired.
    + intros tmp. unfold swap_names. names.
  - apply (via_temporary_paired (fun tmp => SharedPtr_from_raw tmp p)
             (fun tmp => if decide (p = nullptr) then N ∪ {[tmp]} else N ∖ {[tmp]})).
    + intros tmp. by apply SharedPtr_from_raw_paired.
    + intros tmp. unfold swap_names. names.
  - by apply Swap_paired.
  - by apply SharedPtr_dtor_paired.
Qed.

Lemma run_paired prog : ∀ N s,
  Paired_except N (frame s) →
  spec (run prog) s
    (fun _ s' => Paired_except (fold_left (fun N o => null_made o N) prog N) (frame s'))
    never True.
Proof.
  induction prog as [|o prog IH]; intros N s HP; simpl.
  - done.
  - eapply spec_bind; [by apply step_paired|].
    intros [] s' HP'. by apply IH.
Qed.

(** ** The invariant of the handle *)

(** C2, amended.  In every state a caller of fewer than 2^64 statements
    reaches, every live handle without a control block has a null raw
    pointer.  Conversely a live handle with a null raw pointer has no
    control block, unless it holds what a statement made from a null raw
    pointer: the handle that the constructor from a raw pointer, Reset(ptr)
    or the aliasing constructor made when given a null pointer, and the
    handles that took it over by move or Swap ([from_null]); the handles
    beside it keep the invariant. *)
Theorem handles_paired prog s :
  (Z.of_nat (length prog) ≤ SIZE_MAX)%Z → run prog init = Ok tt s →
  ∀ x h, frame s !! x = Some h →
    (p_ctrl_block_ h = None → raw_ptr_ h = nullptr) ∧
    (x ∉ from_null prog → (p_ctrl_block_ h = None ↔ raw_ptr_ h = nullptr)).
Proof.
  intros Hlen Hrun x h Hx. split.
  - intros Hc. pose proof (run_Inv prog s Hlen Hrun) as HI.
    destruct (decide (raw_ptr_ h = nullptr)) as [|Hnn]; [done|].
    by destruct (inv_raw s HI x h Hx Hnn).
  - intros Hn.
    assert (Paired_except ∅ (frame init)) as HP0
      by (intros ? ?; simpl; by rewrite lookup_empty).
    pose proof (spec_Ok (run prog) init tt s _ _ _ (run_paired prog ∅ init HP0) Hrun) as HP.
    by apply (HP x h).
Qed.

(** ** The control-block hierarchy *)

(** C4. For every live control block, of either class, whose shared counter
    is positive, DecrSharedCount returns and decrements the counter by one.
    When the counter reaches 0 the destroy-payload operation runs, and when
    the weak counter is 0 too, destroy-self runs after it and the block is
    released.  No other block and no handle is touched. *)
Theorem DecrSharedCount_decrements s this blk :
  heap s !! this = Some blk →
  (0 < shared_cnt_ blk ≤ SIZE_MAX)%Z →
  ∃ s',
    DecrSharedCount this s = Ok tt s' ∧ frame s' = frame s ∧ brk s' = brk s ∧
    (∀ b, b ≠ this → heap s' !! b = heap s !! b) ∧
    if decide (shared_cnt_ blk - 1 = 0)%Z then
      if decide (weak_cnt_ blk = 0%Z) then
        trace s' = trace s ++ destroy_payload this blk ++ destroy_self this ∧
        heap s' !! this = None
      else
        trace s' = trace s ++ destroy_payload this blk ∧
        heap s' !! this = Some (payload_destroyed (with_shared_cnt 0 blk))
    else
      trace s' = trace s ∧
      heap s' !! this = Some (with_shared_cnt (shared_cnt_ blk - 1) blk).
Proof.
  intros Hb Hc. pose proof (size_t_decr_pos _ Hc) as Hdecr.
  destruct (decide (shared_cnt_ blk - 1 = 0)%Z) as [Hz|Hnz];
    [destruct (decide (weak_cnt_ blk = 0%Z)) as [Hw|Hw]|].
  - eexists. split; [apply (DecrSharedCount_last s this blk); [done|lia|done]|]. simpl.
    repeat split; try done; [|apply lookup_delete_eq].
    intros b Hne. by rewrite lookup_delete_ne.
  - eexists. split; [apply (DecrSharedCount_last_weak s this blk); [done|lia|done]|]. simpl.
    repeat split; try done; [|apply lookup_insert_eq].
    intros b Hne. by rewrite lookup_insert_ne.
  - eexists. split; [apply (DecrSharedCount_more s this blk); [done|lia]|]. simpl.
    repeat split; try done; [|by rewrite Hdecr, lookup_insert_eq].
    intros b Hne. by rewrite lookup_insert_ne.
Qed.

(** ** MakeShared *)

(** C5. For every argument list, MakeShared calls operator new once, for a
    ControlBlockMakeShared, and constructs T in the storage of that block.
    When T's constructor returns, MakeShared returns a handle whose raw
    pointer is the address of the block's storage, where the constructed
    value lives, and whose UseCount() is 1; no other block is touched. *)
Theorem MakeShared_single_allocation s x args :
  frame s !! x = None →
  match T_ctor args with
  | Some v =>
      ∃ s', MakeShared x args s = Ok tt s' ∧
        trace s' = trace s ++ [EvNewControlBlockMakeShared (brk s);
                               EvPlacementNew (brk s) true] ∧
        allocations (trace s') = S (allocations (trace s)) ∧
        heap s' !! brk s =
          Some (CBMakeShared {| cbm_weak_cnt_ := 0; cbm_shared_cnt_ := 1;
                                holder_ := Some v |}) ∧
        (∀ b, b ≠ brk s → heap s' !! b = heap s !! b) ∧
        Get x s' = Ok (HolderPtr (brk s)) s' ∧
        UseCount x s' = Ok 1%Z s'
  | None =>
      ∃ s', MakeShared x args s = Throw s' ∧
        allocations (trace s') = S (allocations (trace s))
  end.
Proof.
  intros Hx. destruct (T_ctor args) as [v|] eqn:Hv.
  - eexists. split; [by apply MakeShared_run_ok|]. simpl.
    split; [done|]. split.
    { unfold allocations. rewrite List.filter_app, length_app. simpl. lia. }
    split; [by rewrite lookup_insert_eq|].
    split; [intros b Hne; by rewrite lookup_insert_ne|].
    split.
    + by rewrite (Get_run _ x {| p_ctrl_block_ := Some (brk s);
                                 raw_ptr_ := HolderPtr (brk s) |})
        by apply lookup_insert_eq.
    + by rewrite (UseCount_run _ x {| p_ctrl_block_ := Some (brk s);
                                      raw_ptr_ := HolderPtr (brk s) |} (brk s)
                    (CBMakeShared {| cbm_weak_cnt_ := 0; cbm_shared_cnt_ := 1;
                                     holder_ := Some v |}))
        by (done || apply lookup_insert_eq).
  - eexists. split; [by apply MakeShared_run_throw|]. simpl.
    unfold allocations. rewrite List.filter_app, length_app. simpl. lia.
Qed.

(** ** Use counts *)

Lemma shared_cnt_with_shared_cnt n blk : shared_cnt_ (with_shared_cnt n blk) = n.
Proof. by destruct blk. Qed.

Lemma run_cons o prog s s1 :
  step o s = Ok tt s1 → run (o :: prog) s = run prog s1.
Proof. intros Hstep. simpl. unfold bind. by rewrite Hstep. Qed.

(** Copying a non-empty handle into fresh handles, one after the other. *)
Lemma copies_run dsts : ∀ s h o b blk,
  frame s !! h = Some o → raw_ptr_ o ≠ nullptr →
  p_ctrl_block_ o = Some b → heap s !! b = Some blk →
  NoDup dsts → (∀ d, d ∈ dsts → frame s !! d = None) →
  (0 ≤ shared_cnt_ blk)%Z →
  (shared_cnt_ blk + Z.of_nat (length dsts) ≤ SIZE_MAX)%Z →
  ∃ s' blk',
    run (map (fun d => OpCopy d h) dsts) s = Ok tt s' ∧
    (∀ d, d ∈ dsts → frame s' !! d = Some o) ∧
    (∀ x, x ∉ dsts → frame s' !! x = frame s !! x) ∧
    heap s' !! b = Some blk' ∧
    shared_cnt_ blk' = (shared_cnt_ blk + Z.of_nat (length dsts))%Z.
Proof.
  induction dsts as [|d dsts IH]; intros s h o b blk Hh Hr Hc Hb Hnd Hfresh Hpos Hmax.
  - exists s, blk. simpl. repeat split; try done.
    + intros d Hd. by apply elem_of_nil in Hd.
    + lia.
  - apply NoDup_cons in Hnd as [Hd Hnd]. simpl in Hmax.
    assert (frame s !! d = None) as Hfd by (apply Hfresh; left).
    assert (d ≠ h) as Hdh by congruence.
    set (blk1 := with_shared_cnt (size_t_incr (shared_cnt_ blk)) blk).
    set (s1 := {| heap := <[b := blk1]> (heap s); brk := brk s; trace := trace s;
                  frame := <[d := o]> (frame s) |}).
    assert (step (OpCopy d h) s = Ok tt s1) as Hstep
      by by apply (SharedPtr_copy_run_shared s d h o b blk).
    assert (shared_cnt_ blk1 = (shared_cnt_ blk + 1)%Z) as Hc1.
    { unfold blk1. rewrite shared_cnt_with_shared_cnt. apply size_t_incr_small. lia. }
    destruct (IH s1 h o b blk1) as (s' & blk' & Hrun & Hcopies & Hrest & Hb' & Hcnt).
    + simpl. by rewrite lookup_insert_ne.
    + done.
    + done.
    + simpl. apply lookup_insert_eq.
    + done.
    + intros d' Hd'. simpl. rewrite lookup_insert_ne; [apply Hfresh; by right|].
      intros ->. done.
    + lia.
    + lia.
    + exists s', blk'. split; [by rewrite List.map_cons, (run_cons _ _ s s1)|].
      split; [|split; [|split; [done|]]].
      * intros d' Hd'. apply elem_of_cons in Hd' as [->|Hd']; [|by apply Hcopies].
        rewrite Hrest by done. apply lookup_insert_eq.
      * intros x Hx. apply not_elem_of_cons in Hx as [Hxd Hx].
        rewrite Hrest by done. simpl. by rewrite lookup_insert_ne.
      * rewrite Hcnt, Hc1. simpl. lia.
Qed.

(** C3, amended.  For every handle h that is not empty (its raw pointer is
    not null) and is the only owner of its object (UseCount() is 1), and for
    every n < 2^64 - 1: after n copies of h are constructed, all of them and
    h alive, UseCount() of h, and of each copy, is n + 1. *)
Theorem UseCount_after_copies s h p dsts :
  Get h s = Ok p s → p ≠ nullptr → UseCount h s = Ok 1%Z s →
  NoDup dsts → (∀ d, d ∈ dsts → frame s !! d = None) →
  (Z.of_nat (length dsts) < SIZE_MAX)%Z →
  ∃ s',
    run (map (fun d => OpCopy d h) dsts) s = Ok tt s' ∧
    is_Some (frame s' !! h) ∧ (∀ d, d ∈ dsts → is_Some (frame s' !! d)) ∧
    UseCount h s' = Ok (Z.of_nat (length dsts) + 1)%Z s' ∧
    (∀ d, d ∈ dsts → UseCount d s' = Ok (Z.of_nat (length dsts) + 1)%Z s').
Proof.
  intros Hget Hp Huse Hnd Hfresh Hlen.
  apply UseCount_inv in Huse as (_ & o & Hh & [[_ ?]|(b & blk & Hc & Hb & Hcnt)]); [done|].
  rewrite (Get_run s h o Hh) in Hget. injection Hget as <-.
  destruct (copies_run dsts s h o b blk Hh Hp Hc Hb Hnd Hfresh)
    as (s' & blk' & Hrun & Hcopies & Hrest & Hb' & Hcnt'); [lia|lia|].
  assert (h ∉ dsts) as Hhd.
  { intros Hin. apply Hfresh in Hin. congruence. }
  assert (frame s' !! h = Some o) as Hh' by by rewrite Hrest.
  assert (shared_cnt_ blk' = (Z.of_nat (length dsts) + 1)%Z) as Hfinal by lia.
  exists s'. split; [done|]. split; [eauto|]. split; [eauto|]. split.
  - rewrite <- Hfinal. by apply (UseCount_run s' h o b blk').
  - intros d Hd. rewrite <- Hfinal. apply (UseCount_run s' d o b blk'); [|done|done].
    by apply Hcopies.
Qed.

(** ** The aliasing constructor *)

(** C6. For every live handle A that is not empty and every pointer P, the
    handle constructed from (A, P) returns P from Get(); its UseCount() is
    that of A, which is what it was plus one (as a size_t).  When A is then
    destroyed, nothing is destroyed and no block is released: the trace is
    what it was, the shared counter of the block is back to its positive
    value, and the aliasing handle still returns P. *)
Theorem aliasing_handle s A x P h :
  Inv s → frame s !! A = Some h → raw_ptr_ h ≠ nullptr → frame s !! x = None →
  ∃ c s1 s2,
    UseCount A s = Ok c s ∧ (0 < c ≤ SIZE_MAX)%Z ∧
    SharedPtr_alias x A P s = Ok tt s1 ∧
    Get x s1 = Ok P s1 ∧
    UseCount x s1 = Ok (size_t_incr c) s1 ∧
    UseCount A s1 = Ok (size_t_incr c) s1 ∧
    ((c < SIZE_MAX)%Z → size_t_incr c = (c + 1)%Z) ∧
    SharedPtr_dtor A s1 = Ok tt s2 ∧
    trace s2 = trace s ∧
    dom (heap s2) = dom (heap s) ∧
    frame s2 !! A = None ∧
    Get x s2 = Ok P s2 ∧
    UseCount x s2 = Ok c s2.
Proof.
  intros HI HA Hr Hx. assert (x ≠ A) as Hne by congruence.
  destruct (p_ctrl_block_ h) as [b|] eqn:Hc; [|by destruct (inv_raw s HI A h HA Hr)].
  destruct (inv_frame s HI A h b HA Hc) as [blk Hb].
  pose proof (Inv_count_bound s b blk HI Hb) as Hbound.
  set (c := shared_cnt_ blk) in *.
  set (hx := {| p_ctrl_block_ := Some b; raw_ptr_ := P |}).
  set (blk1 := with_shared_cnt (size_t_incr c) blk).
  set (s1 := {| heap := <[b := blk1]> (heap s); brk := brk s; trace := trace s;
                frame := <[x := hx]> (frame s) |}).
  set (blk2 := with_shared_cnt (size_t_decr (shared_cnt_ blk1)) blk1).
  set (s1' := {| heap := <[b := blk2]> (heap s1); brk := brk s1; trace := trace s1;
                 frame := frame s1 |}).
  set (s2 := {| heap := heap s1'; brk := brk s1'; trace := trace s1';
                frame := delete A (frame s1') |}).
  assert (shared_cnt_ blk1 = size_t_incr c) as Hc1 by apply shared_cnt_with_shared_cnt.
  assert (size_t_decr (shared_cnt_ blk1) = c) as Hdi.
  { rewrite Hc1. apply size_t_decr_incr. unfold is_size_t. lia. }
  assert (frame s1 !! x = Some hx) as Hx1 by apply lookup_insert_eq.
  assert (frame s1 !! A = Some h) as HA1 by (simpl; by rewrite lookup_insert_ne).
  assert (heap s1 !! b = Some blk1) as Hb1 by apply lookup_insert_eq.
  assert (frame s2 !! x = Some hx) as Hx2.
  { simpl. rewrite lookup_delete_ne by done. apply lookup_insert_eq. }
  assert (heap s2 !! b = Some blk2) as Hb2 by apply lookup_insert_eq.
  assert (shared_cnt_ blk2 = c) as Hc2.
  { unfold blk2. by rewrite shared_cnt_with_shared_cnt. }
  exists c, s1, s2.
  split; [by apply (UseCount_run s A h b blk)|]. split; [done|].
  split; [by apply (SharedPtr_alias_run s x A P h b blk)|].
  split; [by apply (Get_run s1 x hx)|].
  split; [rewrite <- Hc1; by apply (UseCount_run s1 x hx b blk1)|].
  split; [rewrite <- Hc1; by apply (UseCount_run s1 A h b blk1)|].
  split; [intros Hlt; apply size_t_incr_small; lia|].
  split.
  { apply (SharedPtr_dtor_run_owner s1 A h b s1'); [done|done|].
    apply (DecrSharedCount_more s1 b blk1); [done|]. rewrite Hdi. lia. }
  split; [done|].
  split.
  { simpl. rewrite insert_insert_eq. apply dom_insert_lookup_L. eauto. }
  split; [apply lookup_delete_eq|].
  split; [by apply (Get_run s2 x hx)|].
  rewrite <- Hc2. by apply (UseCount_run s2 x hx b blk2).
Qed.

(** ** Moves *)

Lemma temporary_fresh s : frame s !! fresh (dom (frame s)) = None.
Proof. apply not_elem_of_dom, is_fresh. Qed.

(** Move assignment between two handles comes down to the destruction of
    the temporary, which then holds what the destination held. *)
Lemma operator_assign_move_unfold s x y hx hy :
  x ≠ y → frame s !! x = Some hx → frame s !! y = Some hy →
  let tmp := fresh (dom (frame s)) in
  operator_assign_move x y s =
    SharedPtr_dtor tmp
      {| heap := heap s; brk := brk s; trace := trace s;
         frame := <[x := hy]> (<[tmp := hx]>
                    (<[y := empty_handle]> (<[tmp := hy]> (frame s)))) |}.
Proof.
  intros Hne Hx Hy tmp. pose proof (temporary_fresh s) as Htmp. fold tmp in Htmp.
  assert (tmp ≠ x) as Htx by congruence. assert (tmp ≠ y) as Hty by congruence.
  unfold operator_assign_move, bind, temporary. fold tmp.
  rewrite (SharedPtr_move_run s tmp y hy) by done.
  erewrite (Swap_run _ tmp x hy hx); [done|done|..]; simpl.
  - rewrite lookup_insert_ne by done. apply lookup_insert_eq.
  - by rewrite !lookup_insert_ne.
Qed.

(** Move assignment of a handle to itself: the temporary takes what the
    handle holds and [Swap] gives it back. *)
Lemma operator_assign_move_same s x h :
  frame s !! x = Some h → operator_assign_move x x s = Ok tt s.
Proof.
  intros Hx. pose proof (temporary_fresh s) as Htmp.
  set (tmp := fresh (dom (frame s))) in *.
  assert (tmp ≠ x) as Hne by congruence.
  unfold operator_assign_move, bind, temporary. fold tmp.
  rewrite (SharedPtr_move_run s tmp x h) by done.
  rewrite (Swap_run _ tmp x h empty_handle);
    [|done|simpl; rewrite lookup_insert_ne by done; apply lookup_insert_eq
     |apply lookup_insert_eq].
  rewrite (SharedPtr_dtor_run_empty _ tmp empty_handle);
    [|simpl; rewrite lookup_insert_ne by done; apply lookup_insert_eq|done].
  simpl. destruct s as [hp bk tr fr]. simpl in *. do 2 f_equal.
  apply map_eq. intros z.
  destruct (decide (tmp = z)) as [<-|Htz]; [by rewrite lookup_delete_eq|].
  rewrite lookup_delete_ne by done.
  destruct (decide (x = z)) as [<-|Hxz]; [by rewrite lookup_insert_eq|].
  by rewrite !lookup_insert_ne by done.
Qed.

(** Two distinct handles on one control block: its counter is at least 2. *)
Lemma owners_two b x y hx hy (fr : gmap var SharedPtr) :
  x ≠ y → fr !! x = Some hx → fr !! y = Some hy → owns b hx → owns b hy →
  2 ≤ owners b fr.
Proof.
  intros Hne Hx Hy Hox Hoy.
  pose proof (owners_delete b x hx fr Hx) as Hd. rewrite (ind_owns b hx Hox) in Hd.
  assert (delete x fr !! y = Some hy) as Hy' by (by rewrite lookup_delete_ne).
  pose proof (owners_pos b y hy (delete x fr) Hy' Hoy). lia.
Qed.

(** C7, amended.  Move construction leaves the moved object's UseCount() as
    it was and the source empty.  Move assignment between two distinct
    handles leaves the source empty and the destination with what the
    source held; the moved object's UseCount() is as it was when the
    destination did not share the control block of the source, and one
    less when it did.  Move assignment of a handle to itself changes
    nothing: UseCount() is as it was, and the handle is not emptied. *)
Theorem move_keeps_UseCount s y hy c :
  Inv s → frame s !! y = Some hy → UseCount y s = Ok c s →
  (∀ x, frame s !! x = None →
   ∃ s', SharedPtr_move x y s = Ok tt s' ∧
         UseCount x s' = Ok c s' ∧
         frame s' !! y = Some {| p_ctrl_block_ := None; raw_ptr_ := nullptr |}) ∧
  (∀ x hx, frame s !! x = Some hx → x ≠ y →
   ∃ s', operator_assign_move x y s = Ok tt s' ∧
         frame s' !! y = Some {| p_ctrl_block_ := None; raw_ptr_ := nullptr |} ∧
         frame s' !! x = Some hy ∧
         ((∀ b, owns b hx → ¬ owns b hy) → UseCount x s' = Ok c s') ∧
         (∀ b, owns b hx → owns b hy → UseCount x s' = Ok (c - 1)%Z s')) ∧
  operator_assign_move y y s = Ok tt s.
Proof.
  intros HI Hy Huse.
  apply UseCount_inv in Huse as (_ & hy' & Hy' & Hcases).
  rewrite Hy in Hy'. injection Hy' as <-.
  split; [|split; [|by apply (operator_assign_move_same s y hy)]].
  - intros x Hx. assert (x ≠ y) as Hne by congruence.
    eexists. split; [by apply (SharedPtr_move_run s x y hy)|].
    split; [|apply lookup_insert_eq].
    destruct Hcases as [[Hc ->]|(b & blk & Hc & Hb & ->)].
    + apply (UseCount_run_empty _ x hy); [|done].
      simpl. rewrite lookup_insert_ne by done. apply lookup_insert_eq.
    + apply (UseCount_run _ x hy b blk); [|done|done].
      simpl. rewrite lookup_insert_ne by done. apply lookup_insert_eq.
  - intros x hx Hx Hne.
    pose proof (temporary_fresh s) as Htmp.
    rewrite (operator_assign_move_unfold s x y hx hy) by done. simpl.
    set (tmp := fresh (dom (frame s))) in *.
    assert (tmp ≠ x) as Htx by congruence. assert (tmp ≠ y) as Hty by congruence.
    set (fr2 := <[x := hy]> (<[tmp := hx]> (<[y := empty_handle]> (<[tmp := hy]> (frame s))))).
    set (s2 := {| heap := heap s; brk := brk s; trace := trace s; frame := fr2 |}).
    assert (fr2 !! tmp = Some hx) as Htmp2.
    { unfold fr2. rewrite lookup_insert_ne by done. apply lookup_insert_eq. }
    assert (delete tmp fr2 !! x = Some hy) as Hx3.
    { rewrite lookup_delete_ne by done. apply lookup_insert_eq. }
    assert (delete tmp fr2 !! y = Some empty_handle) as Hy3.
    { rewrite lookup_delete_ne by done. unfold fr2.
      rewrite !lookup_insert_ne by done. apply lookup_insert_eq. }
    destruct (p_ctrl_block_ hx) as [bx|] eqn:Hcx.
    + destruct (inv_frame s HI x hx bx Hx Hcx) as [blkx Hbx].
      destruct (decide (owns bx hy)) as [Hshare|Hshare].
      * (* the destination shares the control block of the source *)
        destruct Hcases as [[Hc ->]|(b & blk & Hc & Hb & ->)];
          [unfold owns in Hshare; congruence|].
        assert (b = bx) as -> by (unfold owns in Hshare; congruence).
        assert (blkx = blk) as -> by congruence.
        destruct (inv_heap s HI bx blk Hb) as (_ & _ & Hcnt & _).
        pose proof (owners_two bx x y hx hy (frame s) Hne Hx Hy Hcx Hshare) as Htwo.
        pose proof (Inv_count_bound s bx blk HI Hb) as Hbound.
        pose proof (size_t_decr_pos (shared_cnt_ blk) Hbound) as Hdecr.
        eexists. split.
        { eapply (SharedPtr_dtor_run_owner s2 tmp hx bx); [exact Htmp2|exact Hcx|].
          apply (DecrSharedCount_more s2 bx blk Hb). lia. }
        simpl. split; [done|]. split; [done|]. split.
        { intros Hdisj. by destruct (Hdisj bx). }
        intros b Hbx' _. assert (b = bx) as -> by (unfold owns in Hbx'; congruence).
        match goal with
        | |- UseCount x ?st = _ =>
            pose proof (UseCount_run st x hy bx
                          (with_shared_cnt (size_t_decr (shared_cnt_ blk)) blk)
                          Hx3 Hc (lookup_insert_eq _ _ _)) as Huse
        end.
        rewrite shared_cnt_with_shared_cnt in Huse. by rewrite <- Hdecr.
      * destruct (DecrSharedCount_frame s2 bx blkx Hbx) as (s2' & Hrun & Hfr & _ & Hheap).
        eexists. split; [by apply (SharedPtr_dtor_run_owner s2 tmp hx bx s2')|].
        simpl. rewrite Hfr. simpl. split; [done|]. split; [done|]. split.
        { intros _. destruct Hcases as [[Hc ->]|(b & blk & Hc & Hb & ->)].
          - by apply (UseCount_run_empty _ x hy).
          - apply (UseCount_run _ x hy b blk); [done|done|]. simpl.
            rewrite Hheap; [done|]. intros ->. by apply Hshare. }
        intros b Hbx' Hby. assert (b = bx) as -> by (unfold owns in Hbx'; congruence).
        by destruct Hshare.
    + eexists. split; [by apply (SharedPtr_dtor_run_empty s2 tmp hx)|].
      simpl. split; [done|]. split; [done|]. split.
      { intros _. destruct Hcases as [[Hc ->]|(b & blk & Hc & Hb & ->)].
        - by apply (UseCount_run_empty _ x hy).
        - by apply (UseCount_run _ x hy b blk). }
      intros b Hbx'. unfold owns in Hbx'. congruence.
Qed.

(** ** Handles made from a null raw pointer *)

(** C10. A handle constructed from a null raw pointer converts to false and
    its Get() is null, but a control block was allocated for it and its
    UseCount() is 1.  A copy of it is empty: it has no control block, its
    UseCount() is 0, no counter moved and the original's UseCount() is
    still 1. *)
Theorem SharedPtr_from_null_raw_pointer s x y :
  frame s !! x = None → frame s !! y = None → x ≠ y →
  ∃ s1 s2,
    SharedPtr_from_raw x nullptr s = Ok tt s1 ∧
    operator_bool x s1 = Ok false s1 ∧
    Get x s1 = Ok nullptr s1 ∧
    UseCount x s1 = Ok 1%Z s1 ∧
    trace s1 = trace s ++ [EvNewControlBlockPtr (brk s) nullptr] ∧
    frame s1 !! x = Some {| p_ctrl_block_ := Some (brk s); raw_ptr_ := nullptr |} ∧
    SharedPtr_copy y x s1 = Ok tt s2 ∧
    frame s2 !! y = Some {| p_ctrl_block_ := None; raw_ptr_ := nullptr |} ∧
    UseCount y s2 = Ok 0%Z s2 ∧
    heap s2 = heap s1 ∧
    UseCount x s2 = Ok 1%Z s2.
Proof.
  intros Hx Hy Hne.
  set (hx := {| p_ctrl_block_ := Some (brk s); raw_ptr_ := nullptr |}).
  eexists. eexists. split; [by apply SharedPtr_from_raw_run|].
  match goal with |- context [operator_bool x ?s1] => set (st1 := s1) end.
  assert (frame st1 !! x = Some hx) as Hx1 by apply lookup_insert_eq.
  assert (frame st1 !! y = None) as Hy1 by (simpl; by rewrite lookup_insert_ne).
  assert (heap st1 !! brk s = Some (CBPtr (ControlBlockPtr_ctor nullptr))) as Hb1
    by apply lookup_insert_eq.
  split; [by rewrite (operator_bool_run st1 x hx)|].
  split; [by rewrite (Get_run st1 x hx)|].
  split; [by rewrite (UseCount_run st1 x hx (brk s) _ Hx1 eq_refl Hb1)|].
  split; [done|]. split; [done|].
  split; [by apply (SharedPtr_copy_run_empty st1 y x hx)|].
  match goal with |- context [UseCount y ?s2] => set (st2 := s2) end.
  split; [apply lookup_insert_eq|].
  split; [by apply (UseCount_run_empty st2 y empty_handle); [apply lookup_insert_eq|]|].
  split; [done|].
  apply (UseCount_run st2 x hx (brk s) (CBPtr (ControlBlockPtr_ctor nullptr))); [|done|done].
  simpl. by rewrite lookup_insert_ne.
Qed.

(** ** The temporary of Reset and of the assignments *)

Lemma with_shared_cnt_id blk : with_shared_cnt (shared_cnt_ blk) blk = blk.
Proof. by destruct blk as [[]|[]]. Qed.

Lemma with_shared_cnt_twice n m blk :
  with_shared_cnt n (with_shared_cnt m blk) = with_shared_cnt n blk.
Proof. by destruct blk. Qed.

Lemma with_frame_id s : with_frame (frame s) s = s.
Proof. by destruct s. Qed.

(** [DecrSharedCount] does not look at the handle objects. *)
Lemma DecrSharedCount_cases s b :
  (heap s !! b = None ∧ DecrSharedCount b s = UB ∧
   ∀ fr, DecrSharedCount b (with_frame fr s) = UB) ∨
  (∃ s1, frame s1 = frame s ∧ DecrSharedCount b s = Ok tt s1 ∧
         ∀ fr, DecrSharedCount b (with_frame fr s) = Ok tt (with_frame fr s1)).
Proof.
  destruct (heap s !! b) as [blk|] eqn:Hb.
  - right.
    destruct (decide (size_t_decr (shared_cnt_ blk) = 0%Z)) as [Hz|Hnz];
      [destruct (decide (weak_cnt_ blk = 0%Z)) as [Hw|Hw]|].
    + exists {| heap := delete b (heap s); brk := brk s;
                trace := trace s ++ destroy_payload b blk ++ destroy_self b;
                frame := frame s |}.
      split; [done|]. split; [by apply (DecrSharedCount_last s b blk)|]. intros fr.
      by apply (DecrSharedCount_last (with_frame fr s) b blk).
    + exists {| heap := <[b := payload_destroyed (with_shared_cnt 0 blk)]> (heap s);
                brk := brk s; trace := trace s ++ destroy_payload b blk;
                frame := frame s |}.
      split; [done|]. split; [by apply (DecrSharedCount_last_weak s b blk)|]. intros fr.
      by apply (DecrSharedCount_last_weak (with_frame fr s) b blk).
    + exists {| heap := <[b := with_shared_cnt (size_t_decr (shared_cnt_ blk)) blk]> (heap s);
                brk := brk s; trace := trace s; frame := frame s |}.
      split; [done|]. split; [by apply (DecrSharedCount_more s b blk)|]. intros fr.
      by apply (DecrSharedCount_more (with_frame fr s) b blk).
  - left. split; [done|]. split; [by apply DecrSharedCount_dangling|].
    intros fr. by apply DecrSharedCount_dangling.
Qed.

(** Past the construction of the temporary, [Reset] and the assignments:
    the temporary [tmp], holding [t], is swapped with [x] and destroyed. *)
Lemma swap_and_destroy_temporary s tmp x t h :
  tmp ≠ x → frame s !! tmp = None → frame s !! x = Some h →
  (Swap tmp x ;;; SharedPtr_dtor tmp) (with_frame (<[tmp := t]> (frame s)) s) =
  match p_ctrl_block_ h with
  | None => Ok tt (with_frame (<[x := t]> (frame s)) s)
  | Some b =>
      match DecrSharedCount b s with
      | Ok _ s1 => Ok tt (with_frame (<[x := t]> (frame s)) s1)
      | r => r
      end
  end.
Proof.
  intros Hne Htmp Hx. unfold bind.
  rewrite (Swap_run _ tmp x t h); [|done|..]; simpl;
    [|apply lookup_insert_eq|by rewrite lookup_insert_ne].
  set (fr2 := <[x := t]> (<[tmp := h]> (<[tmp := t]> (frame s)))).
  assert (fr2 !! tmp = Some h) as Htmp2.
  { unfold fr2. rewrite lookup_insert_ne by done. apply lookup_insert_eq. }
  assert (delete tmp fr2 = <[x := t]> (frame s)) as Hfr.
  { unfold fr2. rewrite delete_insert_ne, delete_insert_eq, delete_insert_eq by done.
    by rewrite delete_id. }
  unfold SharedPtr_dtor, bind, read. simpl. rewrite Htmp2.
  destruct (p_ctrl_block_ h) as [b|]; [|unfold ret, destroy; simpl; by rewrite Hfr].
  change {| heap := heap s; brk := brk s; trace := trace s; frame := fr2 |}
    with (with_frame fr2 s).
  destruct (DecrSharedCount_cases s b) as [(_ & Hub & Hubf)|(s1 & Hf1 & Hok & Hokf)].
  - by rewrite Hubf, Hub.
  - rewrite Hokf, Hok. unfold destroy. simpl. by rewrite Hfr.
Qed.

(** ** The code against the ownership of the specification *)

Lemma payload_of_with_shared_cnt n blk : payload_of (with_shared_cnt n blk) = payload_of blk.
Proof. by destruct blk. Qed.

Lemma destruction_payload_of b blk : destruction b (payload_of blk) = destroy_payload b blk.
Proof. by destruct blk. Qed.

(** The counter of a block is no part of the ownership. *)
Lemma objects_counted (hp : gmap addr ControlBlockBase) b n blk :
  hp !! b = Some blk →
  payload_of <$> <[b := with_shared_cnt n blk]> hp = payload_of <$> hp.
Proof.
  intros Hb. rewrite fmap_insert, payload_of_with_shared_cnt.
  apply insert_id. by rewrite lookup_fmap, Hb.
Qed.

(** [DecrSharedCount] on a block that counts one owner more than the
    handles [fr'] hold: the object goes when no handle of [fr'] owns it. *)
Lemma DecrSharedCount_settles s b blk fr' :
  heap s !! b = Some blk → weak_cnt_ blk = 0%Z →
  (0 < shared_cnt_ blk ≤ SIZE_MAX)%Z →
  shared_cnt_ blk = Z.of_nat (S (owners b fr')) →
  ∃ s1, DecrSharedCount b s = Ok tt s1 ∧ frame s1 = frame s ∧
        ownership_of (with_frame fr' s1) = settle (Some b) (ownership_of (with_frame fr' s)).
Proof.
  intros Hb Hw Hbound Hcnt.
  pose proof (size_t_decr_pos (shared_cnt_ blk) Hbound) as Hdecr.
  unfold settle, ownership_of. simpl. rewrite lookup_fmap, Hb. simpl.
  destruct (decide (owners b fr' = 0)) as [Hz|Hnz].
  - eexists. split; [apply (DecrSharedCount_last s b blk Hb); [lia|done]|].
    split; [done|]. simpl. by rewrite fmap_delete, destruction_payload_of.
  - eexists. split; [apply (DecrSharedCount_more s b blk Hb); lia|].
    split; [done|]. simpl. by rewrite objects_counted.
Qed.

Lemma SharedPtr_dtor_refines s x h :
  Inv s → frame s !! x = Some h →
  ∃ s', SharedPtr_dtor x s = Ok tt s' ∧
        ownership_of s' =
          settle (p_ctrl_block_ h) (ownership_of (with_frame (delete x (frame s)) s)).
Proof.
  intros HI Hx. destruct (p_ctrl_block_ h) as [b|] eqn:Hc.
  - destruct (inv_frame s HI x h b Hx Hc) as [blk Hb].
    destruct (inv_heap s HI b blk Hb) as (_ & Hw & Hcnt & _).
    pose proof (Inv_count_bound s b blk HI Hb) as Hbound.
    pose proof (owners_delete b x h (frame s) Hx) as Hdel.
    rewrite (ind_owns b h Hc) in Hdel.
    destruct (DecrSharedCount_settles s b blk (delete x (frame s)) Hb Hw Hbound)
      as (s1 & Hrun & Hfr & Hown); [rewrite Hcnt; f_equal; lia|].
    eexists. split; [by apply (SharedPtr_dtor_run_owner s x h b s1)|].
    rewrite <- Hown, Hfr. reflexivity.
  - eexists. split; [by apply (SharedPtr_dtor_run_empty s x h)|]. reflexivity.
Qed.

(** Past the construction of the temporary: [x] holds what the temporary
    held, and what [x] held is let go of. *)
Lemma temporary_refines s0 tmp x t hx :
  Inv (with_frame (<[tmp := t]> (frame s0)) s0) →
  tmp ≠ x → frame s0 !! tmp = None → frame s0 !! x = Some hx →
  ∃ s', (Swap tmp x ;;; SharedPtr_dtor tmp) (with_frame (<[tmp := t]> (frame s0)) s0) =
          Ok tt s' ∧
        ownership_of s' =
          settle (p_ctrl_block_ hx) (ownership_of (with_frame (<[x := t]> (frame s0)) s0)).
Proof.
  intros HI Hne Htmp Hx.
  rewrite (swap_and_destroy_temporary s0 tmp x t hx) by done.
  destruct (p_ctrl_block_ hx) as [b|] eqn:Hc; [|by eexists].
  set (s1 := with_frame (<[tmp := t]> (frame s0)) s0) in *.
  assert (frame s1 !! x = Some hx) as Hx1 by (simpl; by rewrite lookup_insert_ne).
  destruct (inv_frame s1 HI x hx b Hx1 Hc) as [blk Hb].
  destruct (inv_heap s1 HI b blk Hb) as (_ & Hw & Hcnt & _).
  pose proof (Inv_count_bound s1 b blk HI Hb) as Hbound.
  simpl in Hcnt. rewrite owners_insert_new in Hcnt by done.
  pose proof (owners_insert_upd b x t hx (frame s0) Hx) as Hupd.
  rewrite (ind_owns b hx Hc) in Hupd.
  destruct (DecrSharedCount_settles s0 b blk (<[x := t]> (frame s0)) Hb Hw Hbound)
    as (s2 & Hrun & Hfr & Hown); [rewrite Hcnt; f_equal; lia|].
  rewrite Hrun. by eexists.
Qed.

(** The state a constructor leaves is well-formed. *)
Lemma grown_Inv (m : M unit) s s' :
  spec m s (grown s) never False → m s = Ok tt s' → Inv s'.
Proof. intros Hsp Hrun. unfold spec in Hsp. rewrite Hrun in Hsp. by destruct Hsp. Qed.

(** Every statement of the code does what the ownership of the
    specification has it do. *)
Lemma step_refines o s a' :
  Inv s → (Z.of_nat (size (frame s)) < SIZE_MAX)%Z → constructs o →
  own_step o (ownership_of s) = Some a' →
  ∃ s', step o s = Ok tt s' ∧ ownership_of s' = a'.
Proof.
  intros HI Hsz Hcons Hown.
  pose proof (temporary_fresh s) as Htmp.
  set (tmp := fresh (dom (frame s))) in *.
  destruct o as [x|x|x p|x y|x y|x y p|x args|x y|x y|x|x p|x y|x];
    simpl in Hown; simpl.
  - (* SharedPtr() *)
    destruct (frame s !! x) eqn:Hx; [done|]. injection Hown as <-.
    eexists. split; [by apply SharedPtr_default_run|]. reflexivity.
  - (* SharedPtr(nullptr) *)
    destruct (frame s !! x) eqn:Hx; [done|]. injection Hown as <-.
    eexists. split; [unfold SharedPtr_nullptr, construct; by rewrite Hx|]. reflexivity.
  - (* SharedPtr(p) *)
    destruct (frame s !! x) eqn:Hx; [done|]. injection Hown as <-.
    eexists. split; [by apply SharedPtr_from_raw_run|].
    unfold ownership_of, with_handles, with_object. simpl. by rewrite fmap_insert.
  - (* SharedPtr(y) *)
    destruct (frame s !! x) eqn:Hx; [done|].
    destruct (frame s !! y) as [hy|] eqn:Hy; [|done]. injection Hown as <-.
    unfold copy_of. destruct (decide (raw_ptr_ hy = nullptr)) as [Hnull|Hnn].
    + eexists. split; [by apply (SharedPtr_copy_run_empty s x y hy)|]. reflexivity.
    + destruct (p_ctrl_block_ hy) as [b|] eqn:Hc; [|by destruct (inv_raw s HI y hy Hy Hnn)].
      destruct (inv_frame s HI y hy b Hy Hc) as [blk Hb].
      eexists. split; [by apply (SharedPtr_copy_run_shared s x y hy b blk)|].
      unfold ownership_of, with_handles. simpl. by rewrite objects_counted.
  - (* SharedPtr(std::move(y)) *)
    destruct (frame s !! x) eqn:Hx; [done|].
    destruct (frame s !! y) as [hy|] eqn:Hy; [|done]. injection Hown as <-.
    eexists. split; [by apply (SharedPtr_move_run s x y hy)|]. reflexivity.
  - (* SharedPtr(y, p) *)
    destruct (frame s !! x) eqn:Hx; [done|].
    destruct (frame s !! y) as [hy|] eqn:Hy; [|done].
    destruct (p_ctrl_block_ hy) as [b|] eqn:Hc; [|done]. injection Hown as <-.
    destruct (inv_frame s HI y hy b Hy Hc) as [blk Hb].
    eexists. split; [by apply (SharedPtr_alias_run s x y p hy b blk)|].
    unfold ownership_of, with_handles. simpl. by rewrite objects_counted.
  - (* MakeShared *)
    destruct (frame s !! x) eqn:Hx; [done|].
    destruct Hcons as [v Hv]. rewrite Hv in Hown. injection Hown as <-.
    eexists. split; [unfold catch; by rewrite (MakeShared_run_ok s x args v)|].
    unfold ownership_of, with_handles, with_object. simpl. by rewrite fmap_insert.
  - (* x = y *)
    destruct (frame s !! x) as [hx|] eqn:Hx; [|done].
    destruct (frame s !! y) as [hy|] eqn:Hy; [|done]. injection Hown as <-.
    assert (tmp ≠ x) as Hne by congruence.
    pose proof (SharedPtr_copy_spec s tmp y HI Hsz) as Hsp.
    unfold operator_assign. unfold bind at 1 2. unfold temporary. fold tmp.
    unfold copy_of. destruct (decide (raw_ptr_ hy = nullptr)) as [Hnull|Hnn].
    + pose proof (SharedPtr_copy_run_empty s tmp y hy Htmp Hy Hnull) as Hrun.
      pose proof (grown_Inv _ s _ Hsp Hrun) as HI1. rewrite Hrun.
      by apply (temporary_refines s tmp x empty_handle hx).
    + destruct (p_ctrl_block_ hy) as [b|] eqn:Hc; [|by destruct (inv_raw s HI y hy Hy Hnn)].
      destruct (inv_frame s HI y hy b Hy Hc) as [blk Hb].
      pose proof (SharedPtr_copy_run_shared s tmp y hy b blk Htmp Hy Hnn Hc Hb) as Hrun.
      pose proof (grown_Inv _ s _ Hsp Hrun) as HI1. rewrite Hrun.
      set (s0 := {| heap := <[b := with_shared_cnt (size_t_incr (shared_cnt_ blk)) blk]> (heap s);
                    brk := brk s; trace := trace s; frame := frame s |}).
      destruct (temporary_refines s0 tmp x hy hx HI1 Hne Htmp Hx) as (s' & Hrun' & Hown).
      exists s'. split; [exact Hrun'|]. rewrite Hown.
      unfold ownership_of, with_handles, with_frame, s0. simpl. by rewrite objects_counted.
  - (* x = std::move(y) *)
    destruct (frame s !! x) as [hx|] eqn:Hx; [|done].
    destruct (frame s !! y) as [hy|] eqn:Hy; [|done]. injection Hown as <-.
    destruct (decide (x = y)) as [->|Hxy].
    + assert (hy = hx) as -> by congruence.
      exists s. split; [by apply (operator_assign_move_same s y hx)|].
      rewrite insert_insert_eq.
      replace (with_handles (<[y := hx]> (frame s)) (ownership_of s)) with (ownership_of s)
        by (unfold with_handles, ownership_of; simpl; by rewrite insert_id).
      unfold settle. destruct (p_ctrl_block_ hx) as [b|] eqn:Hc; [|done].
      destruct (own_objects (ownership_of s) !! b); [|done].
      rewrite decide_False; [done|]. simpl.
      pose proof (owners_pos b y hx (frame s) Hy Hc). lia.
    + assert (tmp ≠ x) as Hne by congruence. assert (tmp ≠ y) as Hty by congruence.
      pose proof (SharedPtr_move_spec s tmp y HI Hsz) as Hsp.
      pose proof (SharedPtr_move_run s tmp y hy Htmp Hy) as Hrun.
      pose proof (grown_Inv _ s _ Hsp Hrun) as HI1.
      unfold operator_assign_move. unfold bind at 1 2. unfold temporary. fold tmp.
      rewrite Hrun.
      set (s0 := with_frame (<[y := empty_handle]> (frame s)) s).
      assert ({| heap := heap s; brk := brk s; trace := trace s;
                 frame := <[y := empty_handle]> (<[tmp := hy]> (frame s)) |} =
              with_frame (<[tmp := hy]> (frame s0)) s0) as Heq
        by (unfold with_frame, s0; simpl; f_equal; by apply insert_insert_ne).
      rewrite Heq in HI1 |- *.
      apply (temporary_refines s0 tmp x hy hx HI1 Hne); simpl; by rewrite lookup_insert_ne.
  - (* x.Reset() *)
    destruct (frame s !! x) as [hx|] eqn:Hx; [|done]. injection Hown as <-.
    assert (tmp ≠ x) as Hne by congruence.
    pose proof (SharedPtr_default_spec s tmp HI Hsz) as Hsp.
    pose proof (SharedPtr_default_run s tmp Htmp) as Hrun.
    pose proof (grown_Inv _ s _ Hsp Hrun) as HI1.
    unfold Reset. unfold bind at 1 2. unfold temporary. fold tmp. rewrite Hrun.
    by apply (temporary_refines s tmp x empty_handle hx).
  - (* x.Reset(p) *)
    destruct (frame s !! x) as [hx|] eqn:Hx; [|done]. injection Hown as <-.
    assert (tmp ≠ x) as Hne by congruence.
    pose proof (SharedPtr_from_raw_spec s tmp p HI Hsz) as Hsp.
    pose proof (SharedPtr_from_raw_run s tmp p Htmp) as Hrun.
    pose proof (grown_Inv _ s _ Hsp Hrun) as HI1.
    unfold Reset_ptr. unfold bind at 1 2. unfold temporary. fold tmp. rewrite Hrun.
    set (s0 := {| heap := <[brk s := CBPtr (ControlBlockPtr_ctor p)]> (heap s);
                  brk := Pos.succ (brk s);
                  trace := trace s ++ [EvNewControlBlockPtr (brk s) p];
                  frame := frame s |}).
    destruct (temporary_refines s0 tmp x
                {| p_ctrl_block_ := Some (brk s); raw_ptr_ := p |} hx HI1 Hne Htmp Hx)
      as (s' & Hrun' & Hown).
    exists s'. split; [exact Hrun'|]. rewrite Hown.
    unfold ownership_of, with_handles, with_object, with_frame, s0. simpl.
    by rewrite fmap_insert.
  - (* x.Swap(y) *)
    destruct (frame s !! x) as [hx|] eqn:Hx; [|done].
    destruct (frame s !! y) as [hy|] eqn:Hy; [|done]. injection Hown as <-.
    destruct (decide (x = y)) as [->|Hxy].
    + assert (hy = hx) as -> by congruence.
      exists s. split; [by apply (Swap_self s y hx)|].
      unfold with_handles, ownership_of. simpl.
      by rewrite insert_insert_eq, insert_id.
    + eexists. split; [by apply (Swap_run s x y hx hy)|]. reflexivity.
  - (* the destructor *)
    destruct (frame s !! x) as [hx|] eqn:Hx; [|done]. injection Hown as <-.
    by apply SharedPtr_dtor_refines.
Qed.

Lemma ownership_of_init : ownership_of init = own_init.
Proof. unfold ownership_of, own_init. simpl. by rewrite fmap_empty. Qed.

Lemma run_refines prog : ∀ s a',
  Inv s → (Z.of_nat (size (frame s) + length prog) ≤ SIZE_MAX)%Z →
  Forall constructs prog →
  own_run prog (ownership_of s) = Some a' →
  ∃ s', run prog s = Ok tt s' ∧ ownership_of s' = a'.
Proof.
  induction prog as [|o prog IH]; intros s a' HI Hsz Hcons Hown; simpl in *.
  - injection Hown as <-. by exists s.
  - apply Forall_cons in Hcons as [Ho Hcons].
    destruct (own_step o (ownership_of s)) as [a1|] eqn:Hstep; [|done]. simpl in Hown.
    destruct (step_refines o s a1 HI ltac:(lia) Ho Hstep) as (s1 & Hrun1 & <-).
    pose proof (step_spec o s HI ltac:(lia)) as Hsp. unfold spec in Hsp.
    rewrite Hrun1 in Hsp. destruct Hsp as [HI1 Hsz1].
    destruct (IH s1 a' HI1 ltac:(lia) Hcons Hown) as (s' & Hrun' & <-).
    exists s'. split; [|done]. unfold bind. by rewrite Hrun1.
Qed.

Lemma own_run_app pre post a :
  own_run (pre ++ post) a = (a1 ← own_run pre a; own_run post a1).
Proof.
  revert a. induction pre as [|o pre IH]; intros a; simpl; [done|].
  destruct (own_step o a); simpl; [apply IH|done].
Qed.

(** *** What the ownership logs *)

Lemma registrations_settle p b a :
  registrations p (own_log (settle b a)) = registrations p (own_log a).
Proof.
  unfold settle. destruct b as [b|]; [|done].
  destruct (own_objects a !! b) as [pl|]; [|done]. case_decide; [|done]. simpl.
  rewrite !registrations_app. by destruct pl.
Qed.

Lemma own_step_registrations p o a a' :
  own_step o a = Some a' →
  registrations p (own_log a') =
    registrations p (own_log a) + (if hands_over p o then 1 else 0).
Proof.
  intros Hown. destruct o; simpl in *;
    repeat match type of Hown with
           | context [match ?m !! ?k with _ => _ end] => destruct (m !! k)
           | context [match p_ctrl_block_ ?h with _ => _ end] => destruct (p_ctrl_block_ h)
           | context [match T_ctor ?x with _ => _ end] => destruct (T_ctor x)
           end;
    try done; injection Hown as <-; rewrite ?registrations_settle; simpl;
    rewrite ?registrations_app; unfold registrations; simpl;
    try case_bool_decide; simpl; lia.
Qed.

Lemma own_run_registrations p prog : ∀ a a',
  own_run prog a = Some a' →
  registrations p (own_log a') = registrations p (own_log a) + handed_over p prog.
Proof.
  induction prog as [|o prog IH]; intros a a' Hown; simpl in Hown.
  - injection Hown as <-. unfold handed_over. simpl. lia.
  - destruct (own_step o a) as [a1|] eqn:Hstep; [|done]. simpl in Hown.
    rewrite (IH a1 a' Hown), (own_step_registrations p o a a1 Hstep).
    unfold handed_over. simpl. destruct (hands_over p o); simpl; lia.
Qed.

(** With constructors that return, every object in the storage of a
    control block is constructed, and no destructor runs on storage where
    none was. *)
Lemma settle_constructed b a :
  (∀ c k, own_objects a !! c = Some (Inline k) → k = true) →
  (∀ c, EvDestroyHolder c false ∉ own_log a) →
  (∀ c k, own_objects (settle b a) !! c = Some (Inline k) → k = true) ∧
  (∀ c, EvDestroyHolder c false ∉ own_log (settle b a)).
Proof.
  intros Hobj Hlog. unfold settle. destruct b as [b|]; [|done].
  destruct (own_objects a !! b) as [pl|] eqn:Hb; [|done]. case_decide; [|done]. simpl.
  split.
  - intros c k Hc. apply lookup_delete_Some in Hc as [_ Hc]. by apply (Hobj c).
  - intros c Hin. apply elem_of_app in Hin as [Hin|Hin]; [by apply (Hlog c)|].
    destruct pl as [p|k]; simpl in Hin.
    + repeat (apply elem_of_cons in Hin as [Hin|Hin]; [done|]). by apply elem_of_nil in Hin.
    + rewrite (Hobj b k Hb) in Hin.
      repeat (apply elem_of_cons in Hin as [Hin|Hin]; [done|]). by apply elem_of_nil in Hin.
Qed.

Lemma own_step_constructed o a a' :
  constructs o → own_step o a = Some a' →
  (∀ c k, own_objects a !! c = Some (Inline k) → k = true) →
  (∀ c, EvDestroyHolder c false ∉ own_log a) →
  (∀ c k, own_objects a' !! c = Some (Inline k) → k = true) ∧
  (∀ c, EvDestroyHolder c false ∉ own_log a').
Proof.
  intros Hcons Hown Hobj Hlog.
  assert (∀ pl evs,
    (∀ k, pl = Inline k → k = true) → (∀ c, EvDestroyHolder c false ∉ evs) →
    (∀ c k, own_objects (with_object pl evs a) !! c = Some (Inline k) → k = true) ∧
    (∀ c, EvDestroyHolder c false ∉ own_log (with_object pl evs a))) as Hnew.
  { intros pl evs Hpl Hevs. split; simpl.
    - intros c k Hc. apply lookup_insert_Some in Hc as [[_ Hc]|[_ Hc]];
        [by apply Hpl|by apply (Hobj c)].
    - intros c Hin. apply elem_of_app in Hin as [Hin|Hin];
        [by apply (Hlog c)|by apply (Hevs c)]. }
  assert (∀ c p, EvDestroyHolder c false ∉ [EvNewControlBlockPtr (own_next a) p]) as Hev1.
  { intros c p Hin. repeat (apply elem_of_cons in Hin as [Hin|Hin]; [done|]).
    by apply elem_of_nil in Hin. }
  assert (∀ c, EvDestroyHolder c false ∉
               [EvNewControlBlockMakeShared (own_next a); EvPlacementNew (own_next a) true])
    as Hev2.
  { intros c Hin. repeat (apply elem_of_cons in Hin as [Hin|Hin]; [done|]).
    by apply elem_of_nil in Hin. }
  assert (∀ p,
    (∀ c k, own_objects (with_object (Separate p) [EvNewControlBlockPtr (own_next a) p] a)
              !! c = Some (Inline k) → k = true) ∧
    (∀ c, EvDestroyHolder c false ∉
          own_log (with_object (Separate p) [EvNewControlBlockPtr (own_next a) p] a)))
    as Hraw.
  { intros p. apply Hnew; [by intros k [=]|intros c; apply Hev1]. }
  destruct o as [x|x|x p|x y|x y|x y p|x args|x y|x y|x|x p|x y|x]; simpl in Hown.
  - destruct (own_handles a !! x); [done|]. by injection Hown as <-.
  - destruct (own_handles a !! x); [done|]. by injection Hown as <-.
  - destruct (own_handles a !! x); [done|]. injection Hown as <-. apply Hraw.
  - destruct (own_handles a !! x); [done|].
    destruct (own_handles a !! y); [|done]. by injection Hown as <-.
  - destruct (own_handles a !! x); [done|].
    destruct (own_handles a !! y); [|done]. by injection Hown as <-.
  - destruct (own_handles a !! x); [done|].
    destruct (own_handles a !! y) as [hy|]; [|done].
    destruct (p_ctrl_block_ hy); [|done]. by injection Hown as <-.
  - destruct (own_handles a !! x); [done|].
    destruct Hcons as [v Hv]. rewrite Hv in Hown. injection Hown as <-.
    apply (Hnew (Inline true)); [by intros k [= <-]|apply Hev2].
  - destruct (own_handles a !! x); [|done].
    destruct (own_handles a !! y); [|done]. injection Hown as <-.
    by apply settle_constructed.
  - destruct (own_handles a !! x); [|done].
    destruct (own_handles a !! y); [|done]. injection Hown as <-.
    by apply settle_constructed.
  - destruct (own_handles a !! x); [|done]. injection Hown as <-.
    by apply settle_constructed.
  - destruct (own_handles a !! x); [|done]. injection Hown as <-.
    apply settle_constructed; apply Hraw.
  - destruct (own_handles a !! x); [|done].
    destruct (own_handles a !! y); [|done]. by injection Hown as <-.
  - destruct (own_handles a !! x); [|done]. injection Hown as <-.
    by apply settle_constructed.
Qed.

Lemma own_run_constructed prog : ∀ a a',
  Forall constructs prog → own_run prog a = Some a' →
  (∀ c k, own_objects a !! c = Some (Inline k) → k = true) →
  (∀ c, EvDestroyHolder c false ∉ own_log a) →
  (∀ c k, own_objects a' !! c = Some (Inline k) → k = true) ∧
  (∀ c, EvDestroyHolder c false ∉ own_log a').
Proof.
  induction prog as [|o prog IH]; intros a a' Hcons Hown Hobj Hlog; simpl in Hown.
  - by injection Hown as <-.
  - apply Forall_cons in Hcons as [Ho Hcons].
    destruct (own_step o a) as [a1|] eqn:Hstep; [|done]. simpl in Hown.
    destruct (own_step_constructed o a a1 Ho Hstep Hobj Hlog) as [Hobj1 Hlog1].
    by apply (IH a1 a').
Qed.

(** ** The payload is destroyed exactly once *)

(** C1. Take the ownership of the specification: handles are values that
    share in an object or in none, and an object is destroyed, and its
    control block released, by the statement that takes its last owner
    away ([own_run]; no counter, no temporary).  For every caller (fewer
    than 2^64 constructions from a raw pointer, MakeShared with a
    constructor that returns, copies, moves, aliasing constructions,
    assignments, Resets, Swaps and destructions of handles) that this
    ownership gives a meaning, cut at any point into what it has done,
    [pre], and what it goes on to do, [post]: the code runs it and does
    what the ownership says, the same handles, the same objects, and the
    same allocations, constructions and destructions in the same order.
    In the state reached, the payload of a control block has been destroyed
    once when the block was allocated and no live handle owns it, and has
    not been destroyed otherwise; a block is alive exactly while it has
    owners, and its shared counter is their number; the number of
    destructions never decreases; and no destructor runs on storage in
    which no object was constructed.  In terms of the objects: the calls of
    [delete] on a raw pointer and the live control blocks made for it are
    as many as the times the caller handed it to a handle, so an object
    handed over once is deleted once, when no control block holds it any
    more, and not before. *)
Theorem payload_destroyed_exactly_once pre post a a' :
  (Z.of_nat (length (pre ++ post)) ≤ SIZE_MAX)%Z →
  Forall constructs (pre ++ post) →
  own_run pre own_init = Some a → own_run post a = Some a' →
  ∃ s s',
    run pre init = Ok tt s ∧ run post s = Ok tt s' ∧
    ownership_of s = a ∧ ownership_of s' = a' ∧
    (∀ b,
       payload_destructions b (trace s') =
         (if decide ((b < own_next a')%positive ∧ owners b (own_handles a') = 0)
          then 1 else 0) ∧
       (heap s' !! b = None ↔ owners b (own_handles a') = 0) ∧
       (∀ blk, heap s' !! b = Some blk →
          shared_cnt_ blk = Z.of_nat (owners b (own_handles a')) ∧
          (0 < shared_cnt_ blk)%Z) ∧
       payload_destructions b (trace s) ≤ payload_destructions b (trace s') ∧
       EvDestroyHolder b false ∉ trace s') ∧
    (∀ p, object_deletions p (trace s') + holders p (heap s') =
          handed_over p (pre ++ post)) ∧
    (∀ p, handed_over p (pre ++ post) = 1 →
          object_deletions p (trace s') =
            if decide (holders p (heap s') = 0) then 1 else 0).
Proof.
  intros Hlen Hcons Hpre Hpost.
  assert (own_run (pre ++ post) own_init = Some a') as Hall.
  { rewrite own_run_app, Hpre. exact Hpost. }
  apply Forall_app in Hcons as Hcons'. destruct Hcons' as [Hcpre Hcpost].
  rewrite <- ownership_of_init in Hpre, Hall.
  assert (size (frame init) = 0) as Hsz0 by apply map_size_empty.
  destruct (run_refines pre init a Inv_init) as (s & Hrun & Ha); [|done|done|].
  { rewrite Hsz0. rewrite length_app in Hlen. lia. }
  destruct (run_refines (pre ++ post) init a' Inv_init) as (s' & Hrun' & Ha');
    [by rewrite Hsz0|done|done|].
  assert (run post s = Ok tt s') as Hrunpost.
  { rewrite run_app in Hrun'. unfold bind in Hrun'. by rewrite Hrun in Hrun'. }
  pose proof (run_Inv (pre ++ post) s' Hlen Hrun') as HI.
  exists s, s'. split; [done|]. split; [done|]. split; [done|]. split; [done|].
  rewrite <- Ha'. simpl.
  assert (∀ p, object_deletions p (trace s') + holders p (heap s') =
               handed_over p (pre ++ post)) as Hobj.
  { intros p. rewrite (inv_objects s' HI p).
    pose proof (own_run_registrations p (pre ++ post) _ _ Hall) as Hreg.
    rewrite <- Ha' in Hreg. simpl in Hreg. lia. }
  split; [|split; [exact Hobj|]].
  - intros b. pose proof (Inv_owners_zero s' b HI) as Hz.
    split; [|split; [tauto|split; [|split]]].
    + rewrite (inv_trace s' HI b). destruct (heap s' !! b) as [blk|] eqn:Hb.
      * rewrite decide_False; [done|]. intros [_ H0]. by apply Hz in H0.
      * destruct (decide (b < brk s')%positive) as [Hal|Hal].
        -- rewrite decide_True; [done|]. split; [done|]. by apply Hz.
        -- rewrite decide_False; [done|]. by intros [? _].
    + intros blk Hb. destruct (inv_heap s' HI b blk Hb) as (_ & _ & Hc & Hpos).
      split; [done|lia].
    + apply payload_destructions_extends.
      apply (spec_Ok (run post) s tt s' _ _ _ (monotone_run post s) Hrunpost).
    + destruct (own_run_constructed (pre ++ post) _ _ Hcons Hall) as [_ Hlog].
      * intros c k Hc. simpl in Hc. by rewrite fmap_empty, lookup_empty in Hc.
      * intros c Hin. simpl in Hin. by apply elem_of_nil in Hin.
      * rewrite <- Ha' in Hlog. apply Hlog.
  - intros p Hone. specialize (Hobj p). rewrite Hone in Hobj. case_decide; lia.
Qed.

(** ** How the members compose *)

(** X1. [Reset()] on a live handle is its destruction followed by its
    default construction: the same state, or undefined behaviour in both. *)
Theorem Reset_is_destroy_then_construct s x :
  is_Some (frame s !! x) →
  Reset x s = (SharedPtr_dtor x ;;; SharedPtr_default x) s.
Proof.
  intros [h Hx]. pose proof (temporary_fresh s) as Htmp.
  set (tmp := fresh (dom (frame s))) in *.
  assert (tmp ≠ x) as Hne by congruence.
  unfold Reset. unfold bind at 1 2. unfold temporary. fold tmp.
  rewrite (SharedPtr_default_run s tmp) by done.
  change {| heap := heap s; brk := brk s; trace := trace s;
            frame := <[tmp := empty_handle]> (frame s) |}
    with (with_frame (<[tmp := empty_handle]> (frame s)) s).
  rewrite (swap_and_destroy_temporary s tmp x empty_handle h) by done.
  unfold SharedPtr_dtor, read, bind. rewrite Hx.
  assert (∀ s1, frame s1 = frame s →
    SharedPtr_default x (with_frame (delete x (frame s1)) s1) =
    Ok tt (with_frame (<[x := empty_handle]> (frame s)) s1)) as Hdef.
  { intros s1 Hf1. rewrite SharedPtr_default_run by apply lookup_delete_eq.
    unfold with_frame. simpl. by rewrite Hf1, insert_delete_eq. }
  destruct (p_ctrl_block_ h) as [b|].
  - destruct (DecrSharedCount_cases s b) as [(_ & Hub & _)|(s1 & Hf1 & Hok & _)].
    + by rewrite Hub.
    + rewrite Hok. unfold destroy. symmetry. by apply Hdef.
  - unfold ret, destroy. symmetry. by apply Hdef.
Qed.

(** X2. Assigning from a handle whose raw pointer is null, be it [x]
    itself, is [x.Reset()]: [x] gives up what it owned and shares nothing
    with the source, even when the source has a control block. *)
Theorem operator_assign_from_null s x y hy :
  frame s !! y = Some hy → raw_ptr_ hy = nullptr →
  operator_assign x y s = Reset x s.
Proof.
  intros Hy Hr. pose proof (temporary_fresh s) as Htmp.
  unfold operator_assign, Reset, temporary, bind.
  rewrite (SharedPtr_copy_run_empty s _ y hy) by done.
  by rewrite (SharedPtr_default_run s) by done.
Qed.

(** X3. [Swap] twice gives back the state: two exchanges of the same two
    live handles (or of a handle with itself) change nothing. *)
Theorem Swap_involutive s x y :
  is_Some (frame s !! x) → is_Some (frame s !! y) →
  (Swap x y ;;; Swap x y) s = Ok tt s.
Proof.
  intros [a Hx] [b Hy]. unfold bind. destruct (decide (x = y)) as [->|Hne].
  - rewrite (Swap_self s y a) by done. by apply (Swap_self s y a).
  - rewrite (Swap_run s x y a b) by done.
    rewrite (Swap_run _ x y b a); [|done|..]; simpl.
    + f_equal. destruct s as [hp bk tr fr]. simpl in *. f_equal.
      apply map_eq. intros z.
      destruct (decide (y = z)) as [->|Hyz]; [by rewrite lookup_insert_eq|].
      rewrite (lookup_insert_ne _ y z) by done.
      destruct (decide (x = z)) as [->|Hxz]; [by rewrite lookup_insert_eq|].
      by rewrite !lookup_insert_ne by done.
    + rewrite lookup_insert_ne by done. apply lookup_insert_eq.
    + apply lookup_insert_eq.
Qed.

(** X4. [x.Swap(y)] and [y.Swap(x)] are the same, whatever the state: they
    lead to the same state, or are both stuck on a handle that is not
    alive. *)
Theorem Swap_symmetric s x y : Swap x y s = Swap y x s.
Proof.
  destruct (frame s !! x) as [a|] eqn:Hx;
    [|by rewrite (Swap_absent_l s x y), (Swap_absent_r s y x)].
  destruct (frame s !! y) as [b|] eqn:Hy;
    [|by rewrite (Swap_absent_r s x y), (Swap_absent_l s y x)].
  destruct (decide (x = y)) as [->|Hne]; [done|].
  rewrite (Swap_run s x y a b), (Swap_run s y x b a) by done.
  by rewrite insert_insert_ne.
Qed.

Lemma operator_eq_run s x y hx hy :
  frame s !! x = Some hx → frame s !! y = Some hy →
  operator_eq x y s = Ok (bool_decide (raw_ptr_ hx = raw_ptr_ hy)) s.
Proof.
  intros Hx Hy. unfold operator_eq, bind, ret.
  by rewrite (Get_run s x hx), (Get_run s y hy).
Qed.

(** The state after a handle was copied into the temporary of an
    assignment, the temporary aside. *)
Lemma incremented_state s b blk :
  heap s !! b = Some blk →
  let s1 := {| heap := <[b := with_shared_cnt (size_t_incr (shared_cnt_ blk)) blk]> (heap s);
               brk := brk s; trace := trace s; frame := frame s |} in
  (0 < shared_cnt_ blk ≤ SIZE_MAX)%Z →
  DecrSharedCount b s1 = Ok tt s.
Proof.
  intros Hb s1 Hc.
  rewrite (DecrSharedCount_more s1 b (with_shared_cnt (size_t_incr (shared_cnt_ blk)) blk)).
  - rewrite shared_cnt_with_shared_cnt, size_t_decr_incr by (unfold is_size_t; lia).
    simpl. rewrite insert_insert_eq, with_shared_cnt_twice, with_shared_cnt_id.
    rewrite insert_id by done. by destruct s.
  - apply lookup_insert_eq.
  - rewrite shared_cnt_with_shared_cnt, size_t_decr_incr by (unfold is_size_t; lia). lia.
Qed.

(** X5. Self-assignment [h = h] of a handle that is not empty leaves the
    whole state as it was: the same pointer, the same use count, nothing
    destroyed. *)
Theorem operator_assign_self s x h :
  Inv s → frame s !! x = Some h → raw_ptr_ h ≠ nullptr →
  operator_assign x x s = Ok tt s.
Proof.
  intros HI Hx Hr. pose proof (temporary_fresh s) as Htmp.
  set (tmp := fresh (dom (frame s))) in *.
  assert (tmp ≠ x) as Hne by congruence.
  destruct (p_ctrl_block_ h) as [b|] eqn:Hc; [|by destruct (inv_raw s HI x h Hx Hr)].
  destruct (inv_frame s HI x h b Hx Hc) as [blk Hb].
  pose proof (Inv_count_bound s b blk HI Hb) as Hbound.
  unfold operator_assign. unfold bind at 1 2. unfold temporary. fold tmp.
  rewrite (SharedPtr_copy_run_shared s tmp x h b blk) by done.
  set (s1 := {| heap := <[b := with_shared_cnt (size_t_incr (shared_cnt_ blk)) blk]> (heap s);
                brk := brk s; trace := trace s; frame := frame s |}).
  change {| heap := _; brk := brk s; trace := trace s; frame := <[tmp := h]> (frame s) |}
    with (with_frame (<[tmp := h]> (frame s1)) s1).
  rewrite (swap_and_destroy_temporary s1 tmp x h h) by done.
  rewrite Hc. unfold s1. rewrite (incremented_state s b blk Hb Hbound).
  unfold with_frame. simpl. rewrite insert_id by done. by destruct s.
Qed.

(** X6. Copy assignment [x = y] between two distinct handles, from a [y]
    that is not empty: afterwards [x] holds what [y] holds, and both report
    the use count of [y] plus one, or the use count itself when [x]
    already shared the object. *)
Theorem operator_assign_shares s x y hx hy b c :
  Inv s → x ≠ y → frame s !! x = Some hx → frame s !! y = Some hy →
  raw_ptr_ hy ≠ nullptr → owns b hy →
  UseCount y s = Ok c s → (c < SIZE_MAX)%Z →
  ∃ s', operator_assign x y s = Ok tt s' ∧
        frame s' !! x = Some hy ∧ frame s' !! y = Some hy ∧
        UseCount x s' = Ok (if decide (owns b hx) then c else c + 1)%Z s' ∧
        UseCount y s' = Ok (if decide (owns b hx) then c else c + 1)%Z s'.
Proof.
  intros HI Hne Hx Hy Hr Hc Huse Hlt.
  pose proof (temporary_fresh s) as Htmp.
  set (tmp := fresh (dom (frame s))) in *.
  assert (tmp ≠ x) as Htx by congruence. assert (tmp ≠ y) as Hty by congruence.
  destruct (inv_frame s HI y hy b Hy Hc) as [blk Hb].
  pose proof (Inv_count_bound s b blk HI Hb) as Hbound.
  rewrite (UseCount_run s y hy b blk Hy Hc Hb) in Huse. injection Huse as <-.
  unfold operator_assign. unfold bind at 1 2. unfold temporary. fold tmp.
  rewrite (SharedPtr_copy_run_shared s tmp y hy b blk) by done.
  set (blk1 := with_shared_cnt (size_t_incr (shared_cnt_ blk)) blk).
  set (s1 := {| heap := <[b := blk1]> (heap s);
                brk := brk s; trace := trace s; frame := frame s |}).
  change {| heap := _; brk := brk s; trace := trace s; frame := <[tmp := hy]> (frame s) |}
    with (with_frame (<[tmp := hy]> (frame s1)) s1).
  rewrite (swap_and_destroy_temporary s1 tmp x hy hx) by done.
  assert (shared_cnt_ blk1 = (shared_cnt_ blk + 1)%Z) as Hc1.
  { unfold blk1. rewrite shared_cnt_with_shared_cnt. apply size_t_incr_small. lia. }
  assert (∀ s2 blk2, frame s2 = frame s → heap s2 !! b = Some blk2 →
    let s' := with_frame (<[x := hy]> (frame s1)) s2 in
    frame s' !! x = Some hy ∧ frame s' !! y = Some hy ∧
    UseCount x s' = Ok (shared_cnt_ blk2) s' ∧ UseCount y s' = Ok (shared_cnt_ blk2) s')
    as Hfinal.
  { intros s2 blk2 Hf2 Hb2 s'.
    assert (frame s' !! x = Some hy) as Hx' by apply lookup_insert_eq.
    assert (frame s' !! y = Some hy) as Hy' by (simpl; by rewrite lookup_insert_ne).
    split; [done|]. split; [done|].
    split; [by apply (UseCount_run s' x hy b blk2)|by apply (UseCount_run s' y hy b blk2)]. }
  destruct (p_ctrl_block_ hx) as [bx|] eqn:Hcx.
  - destruct (decide (owns b hx)) as [Ho|Ho].
    + assert (bx = b) as -> by (unfold owns in Ho; congruence).
      unfold s1, blk1. rewrite (incremented_state s b blk Hb Hbound).
      eexists. split; [done|]. by apply (Hfinal s blk).
    + assert (bx ≠ b) as Hbne by (intros ->; by apply Ho).
      destruct (inv_frame s HI x hx bx Hx Hcx) as [blkx Hbx].
      destruct (DecrSharedCount_frame s1 bx blkx) as (s2 & Hrun & Hf2 & _ & Hheap).
      { simpl. by rewrite lookup_insert_ne. }
      rewrite Hrun. eexists. split; [done|]. rewrite <- Hc1.
      apply (Hfinal s2 blk1); [done|]. rewrite Hheap by done. apply lookup_insert_eq.
  - rewrite decide_False by (unfold owns; congruence).
    eexists. split; [done|]. rewrite <- Hc1.
    apply (Hfinal s1 blk1); [done|]. apply lookup_insert_eq.
Qed.

(** X7. The destructor of a moved-from handle does nothing: moving [y] into
    a new handle [x] and destroying [y] leaves the control blocks and the
    trace as they were, [x] standing where [y] stood. *)
Theorem move_then_destroy_source s x y h :
  frame s !! x = None → frame s !! y = Some h →
  (SharedPtr_move x y ;;; SharedPtr_dtor y) s =
    Ok tt (with_frame (<[x := h]> (delete y (frame s))) s).
Proof.
  intros Hx Hy. assert (x ≠ y) as Hne by congruence. unfold bind.
  rewrite (SharedPtr_move_run s x y h) by done.
  rewrite (SharedPtr_dtor_run_empty _ y empty_handle); [|apply lookup_insert_eq|done].
  unfold with_frame. simpl. by rewrite delete_insert_eq, delete_insert_ne.
Qed.

(** X8. Copying a live handle and destroying the copy gives back the
    state, whether the handle is empty or not. *)
Theorem copy_then_destroy s x y :
  Inv s → frame s !! x = None → is_Some (frame s !! y) →
  (SharedPtr_copy x y ;;; SharedPtr_dtor x) s = Ok tt s.
Proof.
  intros HI Hx [hy Hy]. unfold bind.
  destruct (decide (raw_ptr_ hy = nullptr)) as [Hnull|Hnn].
  - rewrite (SharedPtr_copy_run_empty s x y hy) by done.
    rewrite (SharedPtr_dtor_run_empty _ x empty_handle); [|apply lookup_insert_eq|done].
    simpl. rewrite delete_insert_id by done. by destruct s.
  - destruct (p_ctrl_block_ hy) as [b|] eqn:Hc; [|by destruct (inv_raw s HI y hy Hy Hnn)].
    destruct (inv_frame s HI y hy b Hy Hc) as [blk Hb].
    pose proof (Inv_count_bound s b blk HI Hb) as Hbound.
    rewrite (SharedPtr_copy_run_shared s x y hy b blk) by done.
    set (s1 := {| heap := <[b := with_shared_cnt (size_t_incr (shared_cnt_ blk)) blk]> (heap s);
                  brk := brk s; trace := trace s; frame := frame s |}).
    change {| heap := _; brk := brk s; trace := trace s; frame := <[x := hy]> (frame s) |}
      with (with_frame (<[x := hy]> (frame s)) s1).
    destruct (DecrSharedCount_cases s1 b) as [(_ & Hub & _)|(s2 & Hf2 & Hok & Hokf)].
    + unfold s1 in Hub. by rewrite (incremented_state s b blk Hb Hbound) in Hub.
    + unfold s1 in Hok. rewrite (incremented_state s b blk Hb Hbound) in Hok.
      injection Hok as <-.
      rewrite (SharedPtr_dtor_run_owner _ x hy b (with_frame (<[x := hy]> (frame s)) s));
        [|apply lookup_insert_eq|done|apply Hokf].
      simpl. rewrite delete_insert_id by done. by destruct s.
Qed.

(** X9. A copy compares equal to the handle it was copied from, whether
    that handle is empty or not. *)
Theorem copy_compares_equal s x y :
  Inv s → frame s !! x = None → is_Some (frame s !! y) →
  ∃ s', SharedPtr_copy x y s = Ok tt s' ∧
        operator_eq x y s' = Ok true s' ∧ operator_eq y x s' = Ok true s'.
Proof.
  intros HI Hx [hy Hy]. assert (x ≠ y) as Hne by congruence.
  destruct (decide (raw_ptr_ hy = nullptr)) as [Hnull|Hnn].
  - eexists. split; [by apply (SharedPtr_copy_run_empty s x y hy)|].
    split.
    + rewrite (operator_eq_run _ x y empty_handle hy);
        [|apply lookup_insert_eq|simpl; by rewrite lookup_insert_ne].
      by rewrite bool_decide_eq_true_2.
    + rewrite (operator_eq_run _ y x hy empty_handle);
        [|simpl; by rewrite lookup_insert_ne|apply lookup_insert_eq].
      by rewrite bool_decide_eq_true_2.
  - destruct (p_ctrl_block_ hy) as [b|] eqn:Hc; [|by destruct (inv_raw s HI y hy Hy Hnn)].
    destruct (inv_frame s HI y hy b Hy Hc) as [blk Hb].
    eexists. split; [by apply (SharedPtr_copy_run_shared s x y hy b blk)|].
    split.
    + rewrite (operator_eq_run _ x y hy hy);
        [|apply lookup_insert_eq|simpl; by rewrite lookup_insert_ne].
      by rewrite bool_decide_eq_true_2.
    + rewrite (operator_eq_run _ y x hy hy);
        [|simpl; by rewrite lookup_insert_ne|apply lookup_insert_eq].
      by rewrite bool_decide_eq_true_2.
Qed.

(** X10. In every state a caller of fewer than 2^64 statements reaches,
    UseCount() of a live handle is the number of live handles that have its
    control block, and 0 when it has none. *)
Theorem UseCount_counts_owners prog s x h :
  (Z.of_nat (length prog) ≤ SIZE_MAX)%Z → run prog init = Ok tt s →
  frame s !! x = Some h →
  UseCount x s =
    Ok (match p_ctrl_block_ h with
        | Some b => Z.of_nat (owners b (frame s))
        | None => 0%Z
        end) s.
Proof.
  intros Hlen Hrun Hx. pose proof (run_Inv prog s Hlen Hrun) as HI.
  destruct (p_ctrl_block_ h) as [b|] eqn:Hc.
  - destruct (inv_frame s HI x h b Hx Hc) as [blk Hb].
    destruct (inv_heap s HI b blk Hb) as (_ & _ & <- & _).
    by apply (UseCount_run s x h b blk).
  - by apply (UseCount_run_empty s x h).
Qed.

(** X11. Self-move-assignment [x = std::move(x)] leaves the state as it
    was: the temporary takes what [x] holds and the swap gives it back. *)
Theorem operator_assign_move_self s x h :
  frame s !! x = Some h → operator_assign_move x x s = Ok tt s.
Proof.
  intros Hx. pose proof (temporary_fresh s) as Htmp.
  set (tmp := fresh (dom (frame s))) in *.
  assert (tmp ≠ x) as Hne by congruence.
  unfold operator_assign_move. unfold bind at 1 2. unfold temporary. fold tmp.
  rewrite (SharedPtr_move_run s tmp x h) by done.
  set (s1 := with_frame (<[x := empty_handle]> (frame s)) s).
  replace {| heap := heap s; brk := brk s; trace := trace s;
             frame := <[x := empty_handle]> (<[tmp := h]> (frame s)) |}
    with (with_frame (<[tmp := h]> (frame s1)) s1)
    by (unfold with_frame; simpl; f_equal; by apply insert_insert_ne).
  rewrite (swap_and_destroy_temporary s1 tmp x h empty_handle);
    [|done|simpl; by rewrite lookup_insert_ne|apply lookup_insert_eq].
  simpl. unfold with_frame. simpl. rewrite insert_insert_eq, insert_id by done.
  by destruct s.
Qed.

(** X12. Move assignment [x = std::move(y)] between two distinct live
    handles does what destroying [x] and move-constructing it from [y]
    does, undefined behaviour included. *)
Theorem operator_assign_move_is_destroy_then_move s x y :
  x ≠ y → is_Some (frame s !! x) → is_Some (frame s !! y) →
  operator_assign_move x y s = (SharedPtr_dtor x ;;; SharedPtr_move x y) s.
Proof.
  intros Hne [hx Hx] [hy Hy]. pose proof (temporary_fresh s) as Htmp.
  set (tmp := fresh (dom (frame s))) in *.
  assert (tmp ≠ x) as Htx by congruence. assert (tmp ≠ y) as Hty by congruence.
  unfold operator_assign_move. unfold bind at 1 2. unfold temporary. fold tmp.
  rewrite (SharedPtr_move_run s tmp y hy) by done.
  set (fr1 := <[y := empty_handle]> (frame s)).
  replace {| heap := heap s; brk := brk s; trace := trace s;
             frame := <[y := empty_handle]> (<[tmp := hy]> (frame s)) |}
    with (with_frame (<[tmp := hy]> (frame (with_frame fr1 s))) (with_frame fr1 s))
    by (unfold with_frame, fr1; simpl; f_equal; by apply insert_insert_ne).
  rewrite (swap_and_destroy_temporary (with_frame fr1 s) tmp x hy hx);
    [|done|simpl; unfold fr1; by rewrite lookup_insert_ne
     |simpl; unfold fr1; by rewrite lookup_insert_ne].
  assert (∀ s', frame s' = frame s →
    SharedPtr_move x y {| heap := heap s'; brk := brk s'; trace := trace s';
                          frame := delete x (frame s') |} =
    Ok tt (with_frame (<[x := hy]> fr1) s')) as Hmove.
  { intros s' Hf. rewrite (SharedPtr_move_run _ x y hy); simpl.
    - unfold with_frame, fr1. do 2 f_equal. rewrite Hf.
      rewrite insert_delete_eq. by apply insert_insert_ne.
    - apply lookup_delete_eq.
    - rewrite Hf. by rewrite lookup_delete_ne. }
  unfold bind, SharedPtr_dtor at 1. unfold bind, read, ret, destroy. rewrite Hx.
  destruct (p_ctrl_block_ hx) as [b|].
  - destruct (DecrSharedCount_cases s b) as [(_ & Hub & Hubf)|(s1 & Hf1 & Hok & Hokf)].
    + by rewrite Hubf, Hub.
    + rewrite Hokf, Hok. by rewrite (Hmove s1 Hf1).
  - by rewrite (Hmove s eq_refl).
Qed.

(** X13. What the destructor of an owner does: the last owner of a control
    block destroys the payload and releases the block; any other owner
    takes one off the counter and destroys nothing. *)
Theorem SharedPtr_dtor_effect s x h b blk :
  Inv s → frame s !! x = Some h → owns b h → heap s !! b = Some blk →
  SharedPtr_dtor x s =
    Ok tt (if decide (owners b (frame s) = 1)
           then {| heap := delete b (heap s); brk := brk s;
                   trace := trace s ++ destroy_payload b blk ++ destroy_self b;
                   frame := delete x (frame s) |}
           else {| heap := <[b := with_shared_cnt (shared_cnt_ blk - 1) blk]> (heap s);
                   brk := brk s; trace := trace s;
                   frame := delete x (frame s) |}).
Proof.
  intros HI Hx Ho Hb.
  destruct (inv_heap s HI b blk Hb) as (_ & Hw & Hc & Hpos).
  pose proof (Inv_count_bound s b blk HI Hb) as Hbound.
  pose proof (size_t_decr_pos (shared_cnt_ blk) Hbound) as Hdecr.
  case_decide as H1.
  - rewrite (SharedPtr_dtor_run_owner s x h b _ Hx Ho
               (DecrSharedCount_last s b blk Hb ltac:(lia) Hw)). done.
  - rewrite (SharedPtr_dtor_run_owner s x h b _ Hx Ho
               (DecrSharedCount_more s b blk Hb ltac:(lia))). simpl. by rewrite Hdecr.
Qed.

(** X14. A handle made by MakeShared and destroyed at once: one allocation,
    one construction in the block, one destruction of the constructed
    object, one release, in this order; the control blocks and the handles
    are what they were. *)
Theorem MakeShared_then_destroy s x args v :
  Inv s → frame s !! x = None → T_ctor args = Some v →
  (MakeShared x args ;;; SharedPtr_dtor x) s =
    Ok tt {| heap := heap s; brk := Pos.succ (brk s);
             trace := trace s ++ [EvNewControlBlockMakeShared (brk s);
                                  EvPlacementNew (brk s) true;
                                  EvDestroyHolder (brk s) true;
                                  EvDeleteThis (brk s)];
             frame := frame s |}.
Proof.
  intros HI Hx Hv. pose proof (Inv_fresh_block s HI) as Hfresh. unfold bind.
  rewrite (MakeShared_run_ok s x args v) by done.
  erewrite SharedPtr_dtor_run_owner;
    [|apply lookup_insert_eq|done|
     apply (DecrSharedCount_last _ (brk s)
              (CBMakeShared {| cbm_weak_cnt_ := 0; cbm_shared_cnt_ := 1; holder_ := Some v |}));
     [apply lookup_insert_eq|done|done]].
  simpl. rewrite !delete_insert_id by done. by rewrite <- app_assoc.
Qed.

(** X15. A handle made from a raw pointer and destroyed at once: the
    control block is allocated, [delete] is called on the pointer, the
    block is released; the control blocks and the handles are what they
    were.  The pointer may be null. *)
Theorem from_raw_then_destroy s x p :
  Inv s → frame s !! x = None →
  (SharedPtr_from_raw x p ;;; SharedPtr_dtor x) s =
    Ok tt {| heap := heap s; brk := Pos.succ (brk s);
             trace := trace s ++ [EvNewControlBlockPtr (brk s) p;
                                  EvDeleteObj (brk s) p;
                                  EvDeleteThis (brk s)];
             frame := frame s |}.
Proof.
  intros HI Hx. pose proof (Inv_fresh_block s HI) as Hfresh. unfold bind.
  rewrite (SharedPtr_from_raw_run s x p) by done.
  erewrite SharedPtr_dtor_run_owner;
    [|apply lookup_insert_eq|done|
     apply (DecrSharedCount_last _ (brk s) (CBPtr (ControlBlockPtr_ctor p)));
     [apply lookup_insert_eq|done|done]].
  simpl. rewrite !delete_insert_id by done. by rewrite <- app_assoc.
Qed.

(** X16. IncrSharedCount followed by DecrSharedCount on a block whose
    counter is positive gives back the state, also when the increment wraps
    around at 2^64 - 1. *)
Theorem IncrSharedCount_then_DecrSharedCount s b blk :
  heap s !! b = Some blk → (0 < shared_cnt_ blk ≤ SIZE_MAX)%Z →
  (IncrSharedCount b ;;; DecrSharedCount b) s = Ok tt s.
Proof.
  intros Hb Hc. unfold bind. rewrite (IncrSharedCount_run s b blk Hb).
  by apply incremented_state.
Qed.

(** X17. The aliasing constructor dereferences the control-block pointer of
    its argument without a test: from a handle that has none, its behaviour
    is undefined, whatever the pointer. *)
Theorem SharedPtr_alias_of_empty s x y p o :
  frame s !! y = Some o → p_ctrl_block_ o = None →
  SharedPtr_alias x y p s = UB.
Proof.
  intros Hy Hc. unfold SharedPtr_alias, bind.
  rewrite (operator_bool_run s y o) by done.
  unfold read. by rewrite Hy, Hc.
Qed.

(** X18. A raw pointer handed to two handles gets two control blocks, and
    [delete] is called on it twice when both handles are destroyed. *)
Theorem raw_pointer_registered_twice s x y p :
  Inv s → x ≠ y → frame s !! x = None → frame s !! y = None →
  ∃ s', run [OpFromRaw x p; OpFromRaw y p; OpDestroy x; OpDestroy y] s = Ok tt s' ∧
        object_deletions p (trace s') = object_deletions p (trace s) + 2 ∧
        heap s' = heap s ∧ frame s' = frame s.
Proof.
  intros HI Hne Hx Hy. pose proof (Inv_fresh_block s HI) as Hfresh.
  assert (brk s ≠ Pos.succ (brk s)) as Hbne by lia.
  eexists. split.
  - simpl. unfold bind, ret.
    rewrite (SharedPtr_from_raw_run s x p) by done.
    rewrite (SharedPtr_from_raw_run _ y p) by (simpl; by rewrite lookup_insert_ne).
    simpl.
    erewrite (SharedPtr_dtor_run_owner _ x);
      [|simpl; rewrite lookup_insert_ne by done; apply lookup_insert_eq|done|
       apply (DecrSharedCount_last _ (brk s) (CBPtr (ControlBlockPtr_ctor p)));
       [simpl; rewrite lookup_insert_ne by done; apply lookup_insert_eq|done|done]].
    simpl.
    erewrite (SharedPtr_dtor_run_owner _ y);
      [|simpl; rewrite lookup_delete_ne by done; apply lookup_insert_eq|done|
       apply (DecrSharedCount_last _ (Pos.succ (brk s)) (CBPtr (ControlBlockPtr_ctor p)));
       [simpl; rewrite lookup_delete_ne by done; apply lookup_insert_eq|done|done]].
    done.
  - simpl. split; [|split].
    + rewrite !object_deletions_app. simpl.
      unfold object_deletions. simpl. rewrite !bool_decide_eq_true_2 by done. simpl. lia.
    + assert (heap s !! Pos.succ (brk s) = None) as Hfresh2.
      { destruct (heap s !! Pos.succ (brk s)) as [blk|] eqn:E; [|done].
        destruct (inv_heap s HI _ _ E) as [Ha _]. unfold allocated in Ha. lia. }
      rewrite (delete_insert_ne _ (brk s) (Pos.succ (brk s))) by done.
      rewrite !delete_insert_eq. rewrite (delete_id (heap s) (brk s)) by done.
      by rewrite delete_id.
    + rewrite (delete_insert_ne _ x y) by done.
      rewrite !delete_insert_eq. rewrite (delete_id (frame s) x) by done.
      by rewrite delete_id.
Qed.

(** X19. After [x.Reset(p)] on a live handle, [x] holds [p] through a new
    control block and is its only owner. *)
Theorem Reset_ptr_sole_owner s x p :
  Inv s → is_Some (frame s !! x) →
  ∃ s', Reset_ptr x p s = Ok tt s' ∧
        frame s' !! x = Some {| p_ctrl_block_ := Some (brk s); raw_ptr_ := p |} ∧
        Get x s' = Ok p s' ∧ UseCount x s' = Ok 1%Z s'.
Proof.
  intros HI [h Hx]. pose proof (temporary_fresh s) as Htmp.
  pose proof (Inv_fresh_block s HI) as Hfresh.
  set (tmp := fresh (dom (frame s))) in *.
  assert (tmp ≠ x) as Hne by congruence.
  unfold Reset_ptr. unfold bind at 1 2. unfold temporary. fold tmp.
  rewrite (SharedPtr_from_raw_run s tmp p) by done.
  set (new := {| p_ctrl_block_ := Some (brk s); raw_ptr_ := p |}).
  set (s0 := {| heap := <[brk s := CBPtr (ControlBlockPtr_ctor p)]> (heap s);
                brk := Pos.succ (brk s);
                trace := trace s ++ [EvNewControlBlockPtr (brk s) p];
                frame := frame s |}).
  change {| heap := _; brk := _; trace := _; frame := <[tmp := new]> (frame s) |}
    with (with_frame (<[tmp := new]> (frame s0)) s0).
  rewrite (swap_and_destroy_temporary s0 tmp x new h) by done.
  assert (∀ s1, heap s1 !! brk s = Some (CBPtr (ControlBlockPtr_ctor p)) →
    let s' := with_frame (<[x := new]> (frame s0)) s1 in
    frame s' !! x = Some new ∧ Get x s' = Ok p s' ∧ UseCount x s' = Ok 1%Z s') as Hfinal.
  { intros s1 Hb s'. assert (frame s' !! x = Some new) as Hx' by apply lookup_insert_eq.
    split; [done|]. split; [by apply (Get_run s' x new)|].
    by apply (UseCount_run s' x new (brk s) (CBPtr (ControlBlockPtr_ctor p))). }
  destruct (p_ctrl_block_ h) as [b|] eqn:Hc.
  - destruct (inv_frame s HI x h b Hx Hc) as [blk Hb].
    assert (b ≠ brk s) as Hbne by congruence.
    destruct (DecrSharedCount_frame s0 b blk) as (s1 & Hrun & _ & _ & Hheap).
    { simpl. by rewrite lookup_insert_ne. }
    rewrite Hrun. eexists. split; [done|]. apply Hfinal.
    rewrite Hheap by done. apply lookup_insert_eq.
  - eexists. split; [done|]. apply Hfinal. apply lookup_insert_eq.
Qed.

(** X20. [x.Reset(x.Get())] on the only owner of an object: [delete] is
    called on the object, and [x] still holds it, through a new control
    block that will delete it again. *)
Theorem Reset_ptr_to_own_pointer s x h b c :
  Inv s → frame s !! x = Some h → owns b h → heap s !! b = Some (CBPtr c) →
  p_obj_ c = raw_ptr_ h → owners b (frame s) = 1 →
  ∃ s', Reset_ptr x (raw_ptr_ h) s = Ok tt s' ∧
        Get x s' = Ok (raw_ptr_ h) s' ∧
        object_deletions (raw_ptr_ h) (trace s') =
          object_deletions (raw_ptr_ h) (trace s) + 1 ∧
        heap s' !! brk s = Some (CBPtr (ControlBlockPtr_ctor (raw_ptr_ h))).
Proof.
  intros HI Hx Ho Hb Hp H1. pose proof (temporary_fresh s) as Htmp.
  pose proof (Inv_fresh_block s HI) as Hfresh.
  set (tmp := fresh (dom (frame s))) in *.
  assert (tmp ≠ x) as Hne by congruence.
  assert (b ≠ brk s) as Hbne by congruence.
  destruct (inv_heap s HI b _ Hb) as (_ & Hw & Hcnt & _).
  unfold Reset_ptr. unfold bind at 1 2. unfold temporary. fold tmp.
  rewrite (SharedPtr_from_raw_run s tmp (raw_ptr_ h)) by done.
  set (new := {| p_ctrl_block_ := Some (brk s); raw_ptr_ := raw_ptr_ h |}).
  set (s0 := {| heap := <[brk s := CBPtr (ControlBlockPtr_ctor (raw_ptr_ h))]> (heap s);
                brk := Pos.succ (brk s);
                trace := trace s ++ [EvNewControlBlockPtr (brk s) (raw_ptr_ h)];
                frame := frame s |}).
  change {| heap := _; brk := _; trace := _; frame := <[tmp := new]> (frame s) |}
    with (with_frame (<[tmp := new]> (frame s0)) s0).
  rewrite (swap_and_destroy_temporary s0 tmp x new h) by done.
  rewrite Ho.
  rewrite (DecrSharedCount_last s0 b (CBPtr c));
    [|simpl; by rewrite lookup_insert_ne|rewrite Hcnt, H1; done|done].
  eexists. split; [done|]. split; [|split].
  - apply (Get_run _ x new). apply lookup_insert_eq.
  - simpl. rewrite !object_deletions_app. simpl.
    unfold object_deletions. simpl. rewrite Hp, bool_decide_eq_true_2 by done. simpl. lia.
  - simpl. rewrite lookup_delete_ne by done. apply lookup_insert_eq.
Qed.

(** X21. No leak: when a caller has destroyed every handle, no control
    block is left, and [delete] was called on every raw pointer as many
    times as it was handed to a handle. *)
Theorem no_leak prog s :
  (Z.of_nat (length prog) ≤ SIZE_MAX)%Z → run prog init = Ok tt s →
  frame s = ∅ →
  heap s = ∅ ∧ ∀ p, object_deletions p (trace s) = registrations p (trace s).
Proof.
  intros Hlen Hrun Hfr. pose proof (run_Inv prog s Hlen Hrun) as HI.
  assert (heap s = ∅) as Hhp.
  { apply map_empty. intros b. apply (Inv_owners_zero s b HI).
    rewrite Hfr. apply owners_none. intros x h Hx. by rewrite lookup_empty in Hx. }
  split; [done|]. intros p. pose proof (inv_objects s HI p) as Hobj.
  rewrite Hhp in Hobj. unfold holders, count_if in Hobj.
  rewrite map_filter_empty, map_size_empty in Hobj. lia.
Qed.

End Shared.

Arguments Ok {T A} a s.
Arguments Throw {T A} s.
Arguments Stuck {T A}.
Arguments UB {T A}.

(** * MakeShared with a constructor that throws *)

(** C8. MakeShared<T>(-1), with a T whose constructor throws on it: the
    exception propagates and the control block is released, but on the way
    the destructor of T is called on the storage in which no T was
    constructed. *)
Theorem MakeShared_throwing_constructor :
  MakeShared nonneg_ctor 0 (-1)%Z init =
    Throw {| heap := ∅; brk := 2%positive;
             trace := [EvNewControlBlockMakeShared 1; EvPlacementNew 1 false;
                       EvDestroyHolder 1 false; EvDeleteThis 1];
             frame := ∅ |}.
Proof. by rewrite MakeShared_run_throw. Qed.

(** * UniquePtr *)

(** C9. For every UniquePtr, whatever pointer it holds, Release() returns
    the pointer held in the member raw_ptr_ and leaves the handle with a
    null raw_ptr_ (Get() returns null, the handle converts to false) and
    its deleter in del_; no deleter is called, neither by Release() nor by
    the destruction of the released handle. *)
Theorem UniquePtr_Release_relinquishes {Deleter : Type}
    (this : UniquePtr.t Deleter) (calls : list (Deleter * ptr)) :
  ∃ this',
    UniquePtr.Release this calls = ((UniquePtr.raw_ptr_ this, this'), calls) ∧
    UniquePtr.raw_ptr_ this' = nullptr ∧
    UniquePtr.del_ this' = UniquePtr.del_ this ∧
    UniquePtr.Get this' = nullptr ∧
    UniquePtr.operator_bool this' = false ∧
    UniquePtr.dtor this' calls = (tt, calls).
Proof.
  exists {| UniquePtr.raw_ptr_ := nullptr; UniquePtr.del_ := UniquePtr.del_ this |}.
  split; [reflexivity|]. split; [reflexivity|]. split; [reflexivity|].
  split; [reflexivity|]. split; [reflexivity|]. reflexivity.
Qed.

(** ** Callers of UniquePtr *)

Section UniquePtrProperties.

Context {Deleter : Type} `{!UniquePtr.Moves Deleter}.

Implicit Types (h : UniquePtr.t Deleter) (m : UniquePtr.machine Deleter).
Implicit Types (cs : list (Deleter * ptr)).

Lemma UniquePtr_Reset_run h q cs :
  UniquePtr.Reset h q cs =
    ({| UniquePtr.raw_ptr_ := q; UniquePtr.del_ := UniquePtr.del_ h |},
     cs ++ if decide (UniquePtr.raw_ptr_ h = nullptr) then []
           else [(UniquePtr.del_ h, UniquePtr.raw_ptr_ h)]).
Proof.
  unfold UniquePtr.Reset, UniquePtr.bind, UniquePtr.ret, UniquePtr.invoke,
    UniquePtr.GetDeleter.
  case_decide; simpl; [by rewrite app_nil_r|done].
Qed.

Lemma UniquePtr_dtor_run h cs :
  UniquePtr.dtor h cs =
    (tt, cs ++ if decide (UniquePtr.raw_ptr_ h = nullptr) then []
               else [(UniquePtr.del_ h, UniquePtr.raw_ptr_ h)]).
Proof.
  unfold UniquePtr.dtor, UniquePtr.ret, UniquePtr.invoke, UniquePtr.GetDeleter.
  case_decide; simpl; [by rewrite app_nil_r|done].
Qed.

Lemma deleter_calls_app p cs cs' :
  UniquePtr.deleter_calls p (cs ++ cs') =
    UniquePtr.deleter_calls p cs + UniquePtr.deleter_calls p cs'.
Proof. unfold UniquePtr.deleter_calls. by rewrite List.filter_app, length_app. Qed.

Lemma handed_back_app p ps ps' :
  UniquePtr.handed_back p (ps ++ ps') =
    UniquePtr.handed_back p ps + UniquePtr.handed_back p ps'.
Proof. unfold UniquePtr.handed_back. by rewrite List.filter_app, length_app. Qed.

(** The deleter calls of [Reset] and of the destructor, counted. *)
Lemma deleter_calls_of_handle p h :
  p ≠ nullptr →
  UniquePtr.deleter_calls p
    (if decide (UniquePtr.raw_ptr_ h = nullptr) then []
     else [(UniquePtr.del_ h, UniquePtr.raw_ptr_ h)]) =
  if decide (UniquePtr.raw_ptr_ h = p) then 1 else 0.
Proof.
  intros Hp. unfold UniquePtr.deleter_calls.
  destruct (decide (UniquePtr.raw_ptr_ h = nullptr)) as [Hn|Hn]; simpl.
  - rewrite decide_False; [done|congruence].
  - destruct (decide (UniquePtr.raw_ptr_ h = p)) as [He|He].
    + by rewrite bool_decide_eq_true_2.
    + by rewrite bool_decide_eq_false_2.
Qed.

Lemma holding_insert_new p x h (hs : gmap var (UniquePtr.t Deleter)) :
  hs !! x = None →
  holding p (<[x := h]> hs) =
    holding p hs + (if decide (UniquePtr.raw_ptr_ h = p) then 1 else 0).
Proof. intros Hx. unfold holding. by rewrite (count_if_insert_new _ hs x h Hx). Qed.

Lemma holding_insert_upd p x h h0 (hs : gmap var (UniquePtr.t Deleter)) :
  hs !! x = Some h0 →
  holding p (<[x := h]> hs) + (if decide (UniquePtr.raw_ptr_ h0 = p) then 1 else 0) =
    holding p hs + (if decide (UniquePtr.raw_ptr_ h = p) then 1 else 0).
Proof.
  intros Hx. exact (count_if_insert_upd (fun h => UniquePtr.raw_ptr_ h = p) hs x h h0 Hx).
Qed.

Lemma holding_delete p x h (hs : gmap var (UniquePtr.t Deleter)) :
  hs !! x = Some h →
  holding p (delete x hs) + (if decide (UniquePtr.raw_ptr_ h = p) then 1 else 0) =
    holding p hs.
Proof.
  intros Hx. exact (count_if_delete (fun h => UniquePtr.raw_ptr_ h = p) hs x h Hx).
Qed.

(** *** What the statements do to the store *)

Lemma UniquePtr_member_run {A} x (f : UniquePtr.t Deleter → UniquePtr.D (A * UniquePtr.t Deleter))
    m h a h' cs' :
  UniquePtr.handles m !! x = Some h → f h (UniquePtr.calls m) = ((a, h'), cs') →
  UniquePtr.member x f m =
    Some (a, {| UniquePtr.handles := <[x := h']> (UniquePtr.handles m);
                UniquePtr.calls := cs';
                UniquePtr.released := UniquePtr.released m |}).
Proof. intros Hx Hf. unfold UniquePtr.member. rewrite Hx. simpl. by rewrite Hf. Qed.

Lemma UMoveNew_run m x y h :
  UniquePtr.handles m !! x = None → UniquePtr.handles m !! y = Some h →
  UniquePtr.step (UniquePtr.UMoveNew x y) m =
    Some (tt, {| UniquePtr.handles :=
                   <[x := h]> (<[y := {| UniquePtr.raw_ptr_ := nullptr;
                                          UniquePtr.del_ :=
                                            UniquePtr.moved_from (UniquePtr.del_ h) |}]>
                                 (UniquePtr.handles m));
                 UniquePtr.calls := UniquePtr.calls m;
                 UniquePtr.released := UniquePtr.released m |}).
Proof.
  intros Hx Hy. assert (x ≠ y) as Hne by congruence. simpl.
  erewrite UniquePtr_member_run; [|done|reflexivity]. simpl.
  unfold UniquePtr.construct. simpl. rewrite lookup_insert_ne by done. rewrite Hx.
  by destruct h.
Qed.

Lemma UMoveAssign_run m x y hx hy :
  x ≠ y → UniquePtr.handles m !! x = Some hx → UniquePtr.handles m !! y = Some hy →
  UniquePtr.step (UniquePtr.UMoveAssign x y) m =
    Some (tt, {| UniquePtr.handles :=
                   <[y := {| UniquePtr.raw_ptr_ := nullptr;
                             UniquePtr.del_ :=
                               UniquePtr.move_assigned_from (UniquePtr.del_ hx)
                                 (UniquePtr.del_ hy) |}]>
                     (<[x := hy]> (UniquePtr.handles m));
                 UniquePtr.calls :=
                   UniquePtr.calls m ++
                     (if decide (UniquePtr.raw_ptr_ hx = nullptr) then []
                      else [(UniquePtr.del_ hx, UniquePtr.raw_ptr_ hx)]);
                 UniquePtr.released := UniquePtr.released m |}).
Proof.
  intros Hne Hx Hy. simpl.
  erewrite UniquePtr_member_run; [|done|reflexivity]. simpl.
  erewrite UniquePtr_member_run;
    [|simpl; by rewrite lookup_insert_ne
     |unfold UniquePtr.bind; by rewrite UniquePtr_Reset_run].
  unfold UniquePtr.observe, UniquePtr.update, UniquePtr.member. simpl.
  repeat (first [rewrite lookup_insert_eq | rewrite lookup_insert_ne by done]; simpl).
  rewrite decide_False by done. simpl.
  repeat (first [rewrite lookup_insert_eq | rewrite lookup_insert_ne by done]; simpl).
  destruct hy as [py dy]. simpl. do 3 f_equal.
  apply map_eq. intros z.
  destruct (decide (y = z)) as [->|Hyz]; [by rewrite !lookup_insert_eq|].
  rewrite !(lookup_insert_ne _ y z) by done.
  destruct (decide (x = z)) as [->|Hxz]; [by rewrite !lookup_insert_eq|].
  by rewrite !lookup_insert_ne by done.
Qed.

Lemma UMoveAssign_self m x h :
  UniquePtr.handles m !! x = Some h →
  UniquePtr.step (UniquePtr.UMoveAssign x x) m =
    Some (tt, {| UniquePtr.handles :=
                   <[x := {| UniquePtr.raw_ptr_ := UniquePtr.raw_ptr_ h;
                             UniquePtr.del_ :=
                               UniquePtr.self_move_assigned (UniquePtr.del_ h) |}]>
                     (UniquePtr.handles m);
                 UniquePtr.calls := UniquePtr.calls m;
                 UniquePtr.released := UniquePtr.released m |}).
Proof.
  intros Hx. simpl.
  erewrite UniquePtr_member_run; [|done|reflexivity]. simpl.
  erewrite UniquePtr_member_run;
    [|apply lookup_insert_eq|unfold UniquePtr.bind; by rewrite UniquePtr_Reset_run].
  unfold UniquePtr.observe, UniquePtr.update, UniquePtr.member. simpl.
  repeat (rewrite lookup_insert_eq; simpl).
  rewrite decide_True by done. simpl.
  repeat (rewrite lookup_insert_eq; simpl).
  by rewrite !insert_insert_eq, app_nil_r.
Qed.

Lemma USwap_run m x y hx hy :
  UniquePtr.handles m !! x = Some hx → UniquePtr.handles m !! y = Some hy →
  UniquePtr.step (UniquePtr.USwap x y) m =
    Some (tt, {| UniquePtr.handles := <[y := hx]> (<[x := hy]> (UniquePtr.handles m));
                 UniquePtr.calls := UniquePtr.calls m;
                 UniquePtr.released := UniquePtr.released m |}).
Proof.
  intros Hx Hy. simpl. unfold UniquePtr.observe, UniquePtr.update, UniquePtr.member.
  destruct (decide (x = y)) as [->|Hne].
  - assert (hy = hx) as -> by congruence.
    repeat (first [rewrite lookup_insert_eq | rewrite Hx]; simpl).
    rewrite !insert_insert_eq. by destruct hx.
  - repeat (first [rewrite lookup_insert_eq | rewrite lookup_insert_ne by done
                  | rewrite Hx | rewrite Hy]; simpl).
    destruct hx, hy. simpl. do 3 f_equal.
    apply map_eq. intros z.
    destruct (decide (y = z)) as [->|Hyz]; [by rewrite !lookup_insert_eq|].
    rewrite !(lookup_insert_ne _ y z) by done.
    destruct (decide (x = z)) as [->|Hxz]; [by rewrite !lookup_insert_eq|].
    by rewrite !lookup_insert_ne by done.
Qed.

(** *** Every statement keeps the account of the pointers *)

Lemma UniquePtr_step_account p o m m' :
  p ≠ nullptr → UniquePtr.step o m = Some (tt, m') →
  holding p (UniquePtr.handles m') + UniquePtr.deleter_calls p (UniquePtr.calls m') +
    UniquePtr.handed_back p (UniquePtr.released m') =
  holding p (UniquePtr.handles m) + UniquePtr.deleter_calls p (UniquePtr.calls m) +
    UniquePtr.handed_back p (UniquePtr.released m) +
    (if UniquePtr.hands_over p o then 1 else 0).
Proof.
  intros Hp Hstep.
  assert (∀ d : Deleter,
            (if decide (UniquePtr.raw_ptr_
                  {| UniquePtr.raw_ptr_ := nullptr; UniquePtr.del_ := d |} = p)
             then 1 else 0) = 0) as Hnull.
  { intros d. rewrite decide_False; [done|simpl; congruence]. }
  destruct o as [x q d|x y|x y|x|x|x q|x y|x]; simpl UniquePtr.hands_over.
  - simpl in Hstep. unfold UniquePtr.construct in Hstep.
    destruct (UniquePtr.handles m !! x) as [h|] eqn:Hx; [done|].
    injection Hstep as <-. simpl. rewrite holding_insert_new by done. simpl.
    destruct (decide (q = p)) as [->|Hq].
    + rewrite bool_decide_eq_true_2 by done. lia.
    + rewrite bool_decide_eq_false_2 by done. lia.
  - destruct (UniquePtr.handles m !! y) as [hy|] eqn:Hy;
      [|simpl in Hstep; unfold UniquePtr.member in Hstep; by rewrite Hy in Hstep].
    destruct (UniquePtr.handles m !! x) as [hx|] eqn:Hx.
    { simpl in Hstep. erewrite UniquePtr_member_run in Hstep; [|done|reflexivity].
      simpl in Hstep. unfold UniquePtr.construct in Hstep. simpl in Hstep.
      destruct (decide (x = y)) as [->|Hne].
      - by rewrite lookup_insert_eq in Hstep.
      - rewrite lookup_insert_ne in Hstep by done. by rewrite Hx in Hstep. }
    rewrite (UMoveNew_run m x y hy) in Hstep by done. injection Hstep as <-. simpl.
    rewrite holding_insert_new by (rewrite lookup_insert_ne by congruence; done).
    pose proof (holding_insert_upd p y
      {| UniquePtr.raw_ptr_ := nullptr;
         UniquePtr.del_ := UniquePtr.moved_from (UniquePtr.del_ hy) |}
      hy (UniquePtr.handles m) Hy) as Hupd.
    rewrite Hnull in Hupd. lia.
  - destruct (UniquePtr.handles m !! y) as [hy|] eqn:Hy;
      [|simpl in Hstep; unfold UniquePtr.member in Hstep; by rewrite Hy in Hstep].
    destruct (decide (x = y)) as [->|Hne].
    { rewrite (UMoveAssign_self m y hy) in Hstep by done. injection Hstep as <-. simpl.
      pose proof (holding_insert_upd p y
        {| UniquePtr.raw_ptr_ := UniquePtr.raw_ptr_ hy;
           UniquePtr.del_ := UniquePtr.self_move_assigned (UniquePtr.del_ hy) |}
        hy (UniquePtr.handles m) Hy) as Hupd. simpl in Hupd. lia. }
    destruct (UniquePtr.handles m !! x) as [hx|] eqn:Hx.
    2:{ simpl in Hstep. erewrite UniquePtr_member_run in Hstep; [|done|reflexivity].
        simpl in Hstep. unfold UniquePtr.member in Hstep. simpl in Hstep.
        rewrite lookup_insert_ne in Hstep by done. by rewrite Hx in Hstep. }
    rewrite (UMoveAssign_run m x y hx hy) in Hstep by done. injection Hstep as <-. simpl.
    rewrite deleter_calls_app, deleter_calls_of_handle by done.
    pose proof (holding_insert_upd p x hy hx (UniquePtr.handles m) Hx) as Hupd.
    pose proof (holding_insert_upd p y
      {| UniquePtr.raw_ptr_ := nullptr;
         UniquePtr.del_ := UniquePtr.move_assigned_from (UniquePtr.del_ hx)
                             (UniquePtr.del_ hy) |}
      hy (<[x := hy]> (UniquePtr.handles m))) as Hupd2.
    rewrite lookup_insert_ne in Hupd2 by done. specialize (Hupd2 Hy).
    rewrite Hnull in Hupd2. lia.
  - simpl in Hstep. unfold UniquePtr.member in Hstep.
    destruct (UniquePtr.handles m !! x) as [h|] eqn:Hx; [|done]. simpl in Hstep.
    unfold UniquePtr.bind, UniquePtr.operator_assign_nullptr in Hstep.
    rewrite UniquePtr_Reset_run in Hstep. simpl in Hstep. injection Hstep as <-. simpl.
    rewrite deleter_calls_app, deleter_calls_of_handle by done.
    pose proof (holding_insert_upd p x
      {| UniquePtr.raw_ptr_ := nullptr; UniquePtr.del_ := UniquePtr.del_ h |}
      h (UniquePtr.handles m) Hx) as Hupd.
    rewrite Hnull in Hupd. lia.
  - simpl in Hstep. unfold UniquePtr.member in Hstep.
    destruct (UniquePtr.handles m !! x) as [h|] eqn:Hx; [|done]. simpl in Hstep.
    injection Hstep as <-. simpl.
    rewrite handed_back_app.
    pose proof (holding_insert_upd p x
      {| UniquePtr.raw_ptr_ := nullptr; UniquePtr.del_ := UniquePtr.del_ h |}
      h (UniquePtr.handles m) Hx) as Hupd.
    rewrite Hnull in Hupd. unfold UniquePtr.handed_back at 2. simpl.
    unfold UniquePtr.Get.
    destruct (decide (UniquePtr.raw_ptr_ h = p)) as [He|He].
    + rewrite bool_decide_eq_true_2 by done. simpl. lia.
    + rewrite bool_decide_eq_false_2 by done. simpl. lia.
  - simpl in Hstep. unfold UniquePtr.member in Hstep.
    destruct (UniquePtr.handles m !! x) as [h|] eqn:Hx; [|done]. simpl in Hstep.
    unfold UniquePtr.bind in Hstep.
    rewrite UniquePtr_Reset_run in Hstep. simpl in Hstep. injection Hstep as <-. simpl.
    rewrite deleter_calls_app, deleter_calls_of_handle by done.
    pose proof (holding_insert_upd p x
      {| UniquePtr.raw_ptr_ := q; UniquePtr.del_ := UniquePtr.del_ h |}
      h (UniquePtr.handles m) Hx) as Hupd. simpl in Hupd.
    destruct (decide (q = p)) as [->|Hq].
    + rewrite bool_decide_eq_true_2 by done. lia.
    + rewrite bool_decide_eq_false_2 by done. lia.
  - destruct (UniquePtr.handles m !! x) as [hx|] eqn:Hx;
      [|simpl in Hstep; unfold UniquePtr.observe in Hstep; by rewrite Hx in Hstep].
    destruct (UniquePtr.handles m !! y) as [hy|] eqn:Hy;
      [|simpl in Hstep; unfold UniquePtr.observe in Hstep; rewrite Hx in Hstep;
        simpl in Hstep; by rewrite Hy in Hstep].
    rewrite (USwap_run m x y hx hy) in Hstep by done. injection Hstep as <-. simpl.
    pose proof (holding_insert_upd p x hy hx (UniquePtr.handles m) Hx) as Hupd.
    destruct (decide (x = y)) as [->|Hne].
    + rewrite insert_insert_eq. rewrite insert_id by done. lia.
    + pose proof (holding_insert_upd p y hx hy (<[x := hy]> (UniquePtr.handles m))) as Hupd2.
      rewrite lookup_insert_ne in Hupd2 by done. specialize (Hupd2 Hy). lia.
  - simpl in Hstep.
    destruct (UniquePtr.handles m !! x) as [h|] eqn:Hx; [|done]. simpl in Hstep.
    rewrite UniquePtr_dtor_run in Hstep. injection Hstep as <-. simpl.
    rewrite deleter_calls_app, deleter_calls_of_handle by done.
    pose proof (holding_delete p x h (UniquePtr.handles m) Hx). lia.
Qed.

Lemma UniquePtr_run_account p prog : ∀ m m',
  p ≠ nullptr → UniquePtr.run prog m = Some m' →
  holding p (UniquePtr.handles m') + UniquePtr.deleter_calls p (UniquePtr.calls m') +
    UniquePtr.handed_back p (UniquePtr.released m') =
  holding p (UniquePtr.handles m) + UniquePtr.deleter_calls p (UniquePtr.calls m) +
    UniquePtr.handed_back p (UniquePtr.released m) + UniquePtr.handed_over p prog.
Proof.
  induction prog as [|o prog IH]; intros m m' Hp Hrun; simpl in Hrun.
  - injection Hrun as <-. unfold UniquePtr.handed_over. simpl. lia.
  - destruct (UniquePtr.step o m) as [[[] m1]|] eqn:Hstep; [|done]. simpl in Hrun.
    rewrite (IH m1 m' Hp Hrun), (UniquePtr_step_account p o m m1 Hp Hstep).
    unfold UniquePtr.handed_over. simpl. destruct (UniquePtr.hands_over p o); simpl; lia.
Qed.

(** *** No deleter is called on a null pointer *)

Lemma UniquePtr_step_calls o m m' :
  UniquePtr.step o m = Some (tt, m') →
  ∃ cs, UniquePtr.calls m' = UniquePtr.calls m ++ cs ∧ Forall (fun c => c.2 ≠ nullptr) cs.
Proof.
  assert (∀ h, Forall (fun c : Deleter * ptr => c.2 ≠ nullptr)
    (if decide (UniquePtr.raw_ptr_ h = nullptr) then []
     else [(UniquePtr.del_ h, UniquePtr.raw_ptr_ h)])) as Hcall.
  { intros h. case_decide; [done|]. by apply Forall_singleton. }
  assert (∀ cs : list (Deleter * ptr),
    ∃ cs', cs = cs ++ cs' ∧ Forall (fun c => c.2 ≠ nullptr) cs') as Hsame.
  { intros cs. exists []. by rewrite app_nil_r. }
  intros Hstep.
  destruct o as [x q d|x y|x y|x|x|x q|x y|x].
  - simpl in Hstep. unfold UniquePtr.construct in Hstep.
    destruct (UniquePtr.handles m !! x); [done|]. injection Hstep as <-. apply Hsame.
  - simpl in Hstep. unfold UniquePtr.member, UniquePtr.construct in Hstep.
    destruct (UniquePtr.handles m !! y); [|done]. simpl in Hstep.
    destruct (_ !! x) in Hstep; [done|]. injection Hstep as <-. apply Hsame.
  - destruct (UniquePtr.handles m !! y) as [hy|] eqn:Hy;
      [|simpl in Hstep; unfold UniquePtr.member in Hstep; by rewrite Hy in Hstep].
    destruct (decide (x = y)) as [->|Hne].
    { rewrite (UMoveAssign_self m y hy) in Hstep by done. injection Hstep as <-.
      apply Hsame. }
    destruct (UniquePtr.handles m !! x) as [hx|] eqn:Hx.
    2:{ simpl in Hstep. erewrite UniquePtr_member_run in Hstep; [|done|reflexivity].
        simpl in Hstep. unfold UniquePtr.member in Hstep. simpl in Hstep.
        rewrite lookup_insert_ne in Hstep by done. by rewrite Hx in Hstep. }
    rewrite (UMoveAssign_run m x y hx hy) in Hstep by done. injection Hstep as <-. simpl.
    eexists. split; [done|]. apply Hcall.
  - simpl in Hstep. unfold UniquePtr.member in Hstep.
    destruct (UniquePtr.handles m !! x) as [h|]; [|done]. simpl in Hstep.
    unfold UniquePtr.bind, UniquePtr.operator_assign_nullptr in Hstep.
    rewrite UniquePtr_Reset_run in Hstep. simpl in Hstep.
    injection Hstep as <-. simpl. eexists. split; [done|]. apply Hcall.
  - simpl in Hstep. unfold UniquePtr.member in Hstep.
    destruct (UniquePtr.handles m !! x) as [h|]; [|done]. simpl in Hstep.
    injection Hstep as <-. apply Hsame.
  - simpl in Hstep. unfold UniquePtr.member in Hstep.
    destruct (UniquePtr.handles m !! x) as [h|]; [|done]. simpl in Hstep.
    unfold UniquePtr.bind in Hstep.
    rewrite UniquePtr_Reset_run in Hstep. simpl in Hstep.
    injection Hstep as <-. simpl. eexists. split; [done|]. apply Hcall.
  - destruct (UniquePtr.handles m !! x) as [hx|] eqn:Hx;
      [|simpl in Hstep; unfold UniquePtr.observe in Hstep; by rewrite Hx in Hstep].
    destruct (UniquePtr.handles m !! y) as [hy|] eqn:Hy;
      [|simpl in Hstep; unfold UniquePtr.observe in Hstep; rewrite Hx in Hstep;
        simpl in Hstep; by rewrite Hy in Hstep].
    rewrite (USwap_run m x y hx hy) in Hstep by done. injection Hstep as <-.
    apply Hsame.
  - simpl in Hstep.
    destruct (UniquePtr.handles m !! x) as [h|]; [|done]. simpl in Hstep.
    rewrite UniquePtr_dtor_run in Hstep.
    injection Hstep as <-. simpl. eexists. split; [done|]. apply Hcall.
Qed.

(** X22. Every pointer is accounted for.  For every caller and every
    pointer that is not null: the number of live handles that hold it, plus
    the number of deleter calls on it, plus the number of times Release()
    returned it, is the number of times the caller handed it to a handle
    (to a constructor or to Reset).  So a pointer handed over once is held
    by one handle, or was released to the caller, or was deleted once. *)
Theorem UniquePtr_accounts_for_every_pointer prog m p :
  p ≠ nullptr → UniquePtr.run prog UniquePtr.start = Some m →
  holding p (UniquePtr.handles m) + UniquePtr.deleter_calls p (UniquePtr.calls m) +
    UniquePtr.handed_back p (UniquePtr.released m) = UniquePtr.handed_over p prog.
Proof.
  intros Hp Hrun. by rewrite (UniquePtr_run_account p prog UniquePtr.start m Hp Hrun).
Qed.

(** X23. No caller makes a deleter run on a null pointer. *)
Theorem UniquePtr_never_deletes_null prog : ∀ m m',
  UniquePtr.run prog m = Some m' →
  ∃ cs, UniquePtr.calls m' = UniquePtr.calls m ++ cs ∧ Forall (fun c => c.2 ≠ nullptr) cs.
Proof.
  induction prog as [|o prog IH]; intros m m' Hrun; simpl in Hrun.
  - injection Hrun as <-. exists []. by rewrite app_nil_r.
  - destruct (UniquePtr.step o m) as [[[] m1]|] eqn:Hstep; [|done]. simpl in Hrun.
    destruct (UniquePtr_step_calls o m m1 Hstep) as (cs1 & Hcs1 & Hok1).
    destruct (IH m1 m' Hrun) as (cs2 & Hcs2 & Hok2).
    exists (cs1 ++ cs2). split; [by rewrite Hcs2, Hcs1, app_assoc|by apply Forall_app].
Qed.

(** X24. Self-move-assignment [x = std::move(x)] of a live handle calls no
    deleter and releases nothing; the handle keeps its pointer, every other
    handle is untouched, and its deleter is what the move assignment of the
    deleter to itself leaves. *)
Theorem UniquePtr_self_move_assignment m x h :
  UniquePtr.handles m !! x = Some h →
  UniquePtr.run [UniquePtr.UMoveAssign x x] m =
    Some {| UniquePtr.handles :=
              <[x := {| UniquePtr.raw_ptr_ := UniquePtr.raw_ptr_ h;
                        UniquePtr.del_ :=
                          UniquePtr.self_move_assigned (UniquePtr.del_ h) |}]>
                (UniquePtr.handles m);
            UniquePtr.calls := UniquePtr.calls m;
            UniquePtr.released := UniquePtr.released m |}.
Proof.
  intros Hx. cbn [UniquePtr.run]. by rewrite (UMoveAssign_self m x h).
Qed.

(** X25. Move assignment [x = std::move(y)] between two distinct handles:
    [x] takes the pointer of [y] and the value of its deleter; [y] holds
    nothing, and its deleter is what the move assignment leaves in the
    object moved from; the pointer [x] held, when not null, is deleted by
    the deleter [x] had, not by the one it receives. *)
Theorem UniquePtr_move_assignment m x y hx hy :
  x ≠ y → UniquePtr.handles m !! x = Some hx → UniquePtr.handles m !! y = Some hy →
  ∃ m', UniquePtr.run [UniquePtr.UMoveAssign x y] m = Some m' ∧
        UniquePtr.handles m' !! x = Some hy ∧
        UniquePtr.handles m' !! y =
          Some {| UniquePtr.raw_ptr_ := nullptr;
                  UniquePtr.del_ :=
                    UniquePtr.move_assigned_from (UniquePtr.del_ hx) (UniquePtr.del_ hy) |} ∧
        (∀ z, z ≠ x → z ≠ y → UniquePtr.handles m' !! z = UniquePtr.handles m !! z) ∧
        UniquePtr.calls m' =
          UniquePtr.calls m ++
            (if decide (UniquePtr.raw_ptr_ hx = nullptr) then []
             else [(UniquePtr.del_ hx, UniquePtr.raw_ptr_ hx)]) ∧
        UniquePtr.released m' = UniquePtr.released m.
Proof.
  intros Hne Hx Hy. eexists. split.
  - cbn [UniquePtr.run]. by rewrite (UMoveAssign_run m x y hx hy).
  - simpl. split; [|split; [|split; [|done]]].
    + rewrite lookup_insert_ne by done. apply lookup_insert_eq.
    + apply lookup_insert_eq.
    + intros z Hzx Hzy. by rewrite !lookup_insert_ne by done.
Qed.

(** X26. [x.Reset(x.Get())] on a handle that holds a pointer calls the
    deleter on the pointer and keeps holding it, so that the destructor
    calls the deleter on it a second time. *)
Theorem UniquePtr_Reset_to_own_pointer h cs :
  UniquePtr.raw_ptr_ h ≠ nullptr →
  UniquePtr.bind (UniquePtr.Reset h (UniquePtr.Get h)) UniquePtr.dtor cs =
    (tt, cs ++ [(UniquePtr.del_ h, UniquePtr.raw_ptr_ h);
                (UniquePtr.del_ h, UniquePtr.raw_ptr_ h)]).
Proof.
  intros Hp. unfold UniquePtr.bind. rewrite UniquePtr_Reset_run, UniquePtr_dtor_run.
  simpl. unfold UniquePtr.Get. rewrite !decide_False by done. by rewrite <- app_assoc.
Qed.

(** X27. Swap exchanges the pointers together with the deleters, so that
    swapping twice gives back the state, whether or not the two handles are
    one. *)
Theorem UniquePtr_Swap_involutive m x y :
  is_Some (UniquePtr.handles m !! x) → is_Some (UniquePtr.handles m !! y) →
  UniquePtr.run [UniquePtr.USwap x y; UniquePtr.USwap x y] m = Some m.
Proof.
  intros [hx Hx] [hy Hy]. cbn [UniquePtr.run].
  rewrite (USwap_run m x y hx hy) by done. cbn [mbind option_bind].
  destruct (decide (x = y)) as [->|Hne].
  - assert (hy = hx) as -> by congruence.
    rewrite (USwap_run _ y y hx hx) by apply lookup_insert_eq. simpl.
    rewrite !insert_insert_eq, insert_id by done. by destruct m.
  - rewrite (USwap_run _ x y hy hx);
      [|simpl; rewrite lookup_insert_ne by done; apply lookup_insert_eq
       |apply lookup_insert_eq].
    simpl. f_equal. destruct m as [hs cs rs]. simpl in *. f_equal.
    apply map_eq. intros z.
    destruct (decide (y = z)) as [->|Hyz]; [by rewrite lookup_insert_eq|].
    rewrite lookup_insert_ne by done.
    destruct (decide (x = z)) as [->|Hxz]; [by rewrite lookup_insert_eq|].
    by rewrite !lookup_insert_ne by done.
Qed.


(** X29. The destructor of a moved-from handle calls no deleter: move
    construction followed by the destruction of the source leaves the new
    handle where the source stood, with its pointer and its deleter. *)
Theorem UniquePtr_move_then_destroy_source m x y h :
  UniquePtr.handles m !! x = None → UniquePtr.handles m !! y = Some h →
  UniquePtr.run [UniquePtr.UMoveNew x y; UniquePtr.UDestroy y] m =
    Some {| UniquePtr.handles := <[x := h]> (delete y (UniquePtr.handles m));
            UniquePtr.calls := UniquePtr.calls m;
            UniquePtr.released := UniquePtr.released m |}.
Proof.
  intros Hx Hy. assert (x ≠ y) as Hne by congruence. cbn [UniquePtr.run].
  rewrite (UMoveNew_run m x y h) by done. cbn [mbind option_bind].
  simpl. rewrite lookup_insert_ne by done. rewrite lookup_insert_eq. simpl.
  by rewrite delete_insert_ne, delete_insert_eq by done.
Qed.

End UniquePtrProperties.

(** * The theorems at work: examples of each, and of what does not hold

    The payload of these examples is [nonneg_ctor]. *)

Lemma one_owner_reached :
  run nonneg_ctor [OpFromRaw 0 (ObjPtr 5)] init = Ok tt one_owner.
Proof. reflexivity. Qed.

Lemma one_owner_Inv : Inv (one_owner (T:=Z)).
Proof.
  apply (run_Inv nonneg_ctor [OpFromRaw 0 (ObjPtr 5)]); [by vm_compute|].
  apply one_owner_reached.
Qed.

Lemma two_objects_reached :
  run nonneg_ctor [OpFromRaw 0 (ObjPtr 5); OpFromRaw 1 (ObjPtr 6)] init = Ok tt two_objects.
Proof. reflexivity. Qed.

Lemma two_objects_Inv : Inv (two_objects (T:=Z)).
Proof.
  apply (run_Inv nonneg_ctor [OpFromRaw 0 (ObjPtr 5); OpFromRaw 1 (ObjPtr 6)]);
    [by vm_compute|].
  apply two_objects_reached.
Qed.

(** C1 at work: an object is shared by two handles, another is made by
    MakeShared and its handle is assigned over; then the handles go. *)
Lemma payload_destroyed_exactly_once_example :
  ∃ a a',
    own_run nonneg_ctor
      [OpFromRaw 0 (ObjPtr 5); OpCopy 1 0; OpMakeShared 2 7%Z; OpAssign 2 1; OpDestroy 0]
      own_init = Some a ∧
    own_run nonneg_ctor [OpDestroy 1; OpDestroy 2] a = Some a' ∧
    own_log a' = [EvNewControlBlockPtr 1 (ObjPtr 5);
                  EvNewControlBlockMakeShared 2; EvPlacementNew 2 true;
                  EvDestroyHolder 2 true; EvDeleteThis 2;
                  EvDeleteObj 1 (ObjPtr 5); EvDeleteThis 1] ∧
    ∃ s s',
      run nonneg_ctor
        [OpFromRaw 0 (ObjPtr 5); OpCopy 1 0; OpMakeShared 2 7%Z; OpAssign 2 1; OpDestroy 0]
        init = Ok tt s ∧
      run nonneg_ctor [OpDestroy 1; OpDestroy 2] s = Ok tt s' ∧
      ownership_of s = a ∧ ownership_of s' = a' ∧
      (∀ b,
         payload_destructions b (trace s') =
           (if decide ((b < own_next a')%positive ∧ owners b (own_handles a') = 0)
            then 1 else 0) ∧
         (heap s' !! b = None ↔ owners b (own_handles a') = 0) ∧
         (∀ blk, heap s' !! b = Some blk →
            shared_cnt_ blk = Z.of_nat (owners b (own_handles a')) ∧
            (0 < shared_cnt_ blk)%Z) ∧
         payload_destructions b (trace s) ≤ payload_destructions b (trace s') ∧
         EvDestroyHolder b false ∉ trace s') ∧
      (∀ p, object_deletions p (trace s') + holders p (heap s') =
            handed_over p
              ([OpFromRaw (Args:=Z) 0 (ObjPtr 5); OpCopy 1 0; OpMakeShared 2 7%Z;
                OpAssign 2 1; OpDestroy 0] ++ [OpDestroy 1; OpDestroy 2])) ∧
      (∀ p, handed_over p
              ([OpFromRaw (Args:=Z) 0 (ObjPtr 5); OpCopy 1 0; OpMakeShared 2 7%Z;
                OpAssign 2 1; OpDestroy 0] ++ [OpDestroy 1; OpDestroy 2]) = 1 →
            object_deletions p (trace s') =
              if decide (holders p (heap s') = 0) then 1 else 0).
Proof.
  eexists. eexists. split; [vm_compute; reflexivity|]. split; [vm_compute; reflexivity|].
  split; [reflexivity|].
  apply (payload_destroyed_exactly_once nonneg_ctor
           [OpFromRaw 0 (ObjPtr 5); OpCopy 1 0; OpMakeShared 2 7%Z; OpAssign 2 1; OpDestroy 0]
           [OpDestroy 1; OpDestroy 2]).
  - by vm_compute.
  - repeat (apply Forall_cons; split; [by vm_compute; eauto|]). by apply Forall_nil.
  - vm_compute. reflexivity.
  - vm_compute. reflexivity.
Defined.

(** The run of that caller: the object at 5 is destroyed by the statement
    that destroys its second handle, the object of MakeShared by the
    assignment over its only handle. *)
Lemma payload_destroyed_exactly_once_run :
  run nonneg_ctor
    [OpFromRaw 0 (ObjPtr 5); OpCopy 1 0; OpMakeShared 2 7%Z; OpAssign 2 1; OpDestroy 0]
    init =
    Ok tt {| heap := {[ 1%positive := CBPtr {| cbp_weak_cnt_ := 0; cbp_shared_cnt_ := 2;
                                               p_obj_ := ObjPtr 5 |} ]};
             brk := 3%positive;
             trace := [EvNewControlBlockPtr 1 (ObjPtr 5);
                       EvNewControlBlockMakeShared 2; EvPlacementNew 2 true;
                       EvDestroyHolder 2 true; EvDeleteThis 2];
             frame := {[ 1 := {| p_ctrl_block_ := Some 1%positive; raw_ptr_ := ObjPtr 5 |};
                         2 := {| p_ctrl_block_ := Some 1%positive; raw_ptr_ := ObjPtr 5 |} ]} |} ∧
  run nonneg_ctor
    [OpFromRaw 0 (ObjPtr 5); OpCopy 1 0; OpMakeShared 2 7%Z; OpAssign 2 1; OpDestroy 0;
     OpDestroy 1; OpDestroy 2] init =
    Ok tt {| heap := ∅;
             brk := 3%positive;
             trace := [EvNewControlBlockPtr 1 (ObjPtr 5);
                       EvNewControlBlockMakeShared 2; EvPlacementNew 2 true;
                       EvDestroyHolder 2 true; EvDeleteThis 2;
                       EvDeleteObj 1 (ObjPtr 5); EvDeleteThis 1];
             frame := ∅ |}.
Proof. split; by vm_compute. Qed.

(** C2 does not hold as stated: the handle constructed from a null raw
    pointer has a control block and no raw pointer. *)
Lemma handle_from_null_unpaired :
  ∃ s h, run nonneg_ctor [OpFromRaw 0 nullptr] init = Ok tt s ∧
         frame s !! 0 = Some h ∧
         ¬ (p_ctrl_block_ h = None ↔ raw_ptr_ h = nullptr).
Proof.
  eexists. eexists. split; [reflexivity|]. split; [reflexivity|].
  simpl. intros [_ H]. by specialize (H eq_refl).
Qed.

(** C2, amended, at work: handle [0] is made from a null pointer and moved
    into [3]; the other handles, and [0] once moved from, keep the
    invariant. *)
Lemma handles_paired_example :
  ∃ s,
    run nonneg_ctor
      [OpFromRaw 0 nullptr; OpFromRaw 1 (ObjPtr 5); OpDefault 2; OpMove 3 0; OpCopy 4 1]
      init = Ok tt s ∧
    from_null (Args:=Z)
      [OpFromRaw 0 nullptr; OpFromRaw 1 (ObjPtr 5); OpDefault 2; OpMove 3 0; OpCopy 4 1] =
      {[3]} ∧
    ∀ x h, frame s !! x = Some h →
      (p_ctrl_block_ h = None → raw_ptr_ h = nullptr) ∧
      (x ∉ from_null (Args:=Z)
             [OpFromRaw 0 nullptr; OpFromRaw 1 (ObjPtr 5); OpDefault 2; OpMove 3 0;
              OpCopy 4 1] →
       (p_ctrl_block_ h = None ↔ raw_ptr_ h = nullptr)).
Proof.
  eexists. split; [vm_compute; reflexivity|]. split; [by vm_compute|].
  apply (handles_paired nonneg_ctor); [by vm_compute|vm_compute; reflexivity].
Defined.

(** C3 does not hold as stated: an empty handle is copied twice, and its
    UseCount() is 0, not 3. *)
Lemma copies_of_empty_handle :
  ∃ s, run nonneg_ctor (OpDefault 0 :: map (fun d => OpCopy d 0) [1; 2]) init = Ok tt s ∧
       is_Some (frame s !! 0) ∧ is_Some (frame s !! 1) ∧ is_Some (frame s !! 2) ∧
       UseCount 0 s = Ok 0%Z s ∧
       UseCount 0 s ≠ Ok (Z.of_nat (length [1; 2]) + 1)%Z s.
Proof.
  eexists. split; [reflexivity|]. repeat split; try (vm_compute; by eauto).
Qed.

(** C3, amended, at work: three copies of the only owner. *)
Lemma UseCount_after_copies_example :
  (Get 0 (one_owner (T:=Z)) = Ok (ObjPtr 5) one_owner ∧
   ObjPtr 5 ≠ nullptr ∧
   UseCount 0 (one_owner (T:=Z)) = Ok 1%Z one_owner ∧
   NoDup [1; 2; 3] ∧
   (∀ d, d ∈ [1; 2; 3] → frame (one_owner (T:=Z)) !! d = None) ∧
   (Z.of_nat (length [1; 2; 3]) < SIZE_MAX)%Z) ∧
  ∃ s',
    run nonneg_ctor (map (fun d => OpCopy d 0) [1; 2; 3]) one_owner = Ok tt s' ∧
    is_Some (frame s' !! 0) ∧ (∀ d, d ∈ [1; 2; 3] → is_Some (frame s' !! d)) ∧
    UseCount 0 s' = Ok (Z.of_nat (length [1; 2; 3]) + 1)%Z s' ∧
    (∀ d, d ∈ [1; 2; 3] → UseCount d s' = Ok (Z.of_nat (length [1; 2; 3]) + 1)%Z s').
Proof.
  assert (NoDup [1; 2; 3]) as Hnd by (apply (bool_decide_unpack _); by vm_compute).
  assert (∀ d, d ∈ [1; 2; 3] → frame (one_owner (T:=Z)) !! d = None) as Hfresh.
  { intros d Hd. repeat (apply elem_of_cons in Hd as [->|Hd]; [reflexivity|]).
    by apply elem_of_nil in Hd. }
  split; [repeat split; done|].
  apply (UseCount_after_copies nonneg_ctor one_owner 0 (ObjPtr 5) [1; 2; 3]); done.
Defined.

(** C4 at work: the last owner of a block without weak references goes. *)
Lemma DecrSharedCount_decrements_example :
  (heap (one_owner (T:=Z)) !! 1%positive = Some (CBPtr (ControlBlockPtr_ctor (ObjPtr 5))) ∧
   (0 < shared_cnt_ (T:=Z) (CBPtr (ControlBlockPtr_ctor (ObjPtr 5))) ≤ SIZE_MAX)%Z) ∧
  ∃ s',
    DecrSharedCount 1%positive (one_owner (T:=Z)) = Ok tt s' ∧
    frame s' = frame (one_owner (T:=Z)) ∧ brk s' = brk (one_owner (T:=Z)) ∧
    (∀ b, b ≠ 1%positive → heap s' !! b = heap (one_owner (T:=Z)) !! b) ∧
    trace s' = trace (one_owner (T:=Z)) ++ [EvDeleteObj 1 (ObjPtr 5)] ++ [EvDeleteThis 1] ∧
    heap s' !! 1%positive = None.
Proof.
  split; [split; [reflexivity|by vm_compute]|].
  apply (DecrSharedCount_decrements one_owner 1%positive
           (CBPtr (ControlBlockPtr_ctor (ObjPtr 5)))); [reflexivity|by vm_compute].
Defined.

(** C5 at work. *)
Lemma MakeShared_single_allocation_example :
  frame (init (T:=Z)) !! 0 = None ∧
  ∃ s', MakeShared nonneg_ctor 0 7%Z init = Ok tt s' ∧
    trace s' = trace (init (T:=Z)) ++ [EvNewControlBlockMakeShared 1; EvPlacementNew 1 true] ∧
    allocations (trace s') = S (allocations (trace (init (T:=Z)))) ∧
    heap s' !! 1%positive =
      Some (CBMakeShared {| cbm_weak_cnt_ := 0; cbm_shared_cnt_ := 1; holder_ := Some 7%Z |}) ∧
    (∀ b, b ≠ 1%positive → heap s' !! b = heap (init (T:=Z)) !! b) ∧
    Get 0 s' = Ok (HolderPtr 1) s' ∧
    UseCount 0 s' = Ok 1%Z s'.
Proof.
  split; [reflexivity|].
  apply (MakeShared_single_allocation nonneg_ctor init 0 7%Z). reflexivity.
Defined.

(** C6 at work: an aliasing handle outlives the handle it was made from. *)
Lemma aliasing_handle_example :
  (Inv (one_owner (T:=Z)) ∧
   frame (one_owner (T:=Z)) !! 0 =
     Some {| p_ctrl_block_ := Some 1%positive; raw_ptr_ := ObjPtr 5 |} ∧
   ObjPtr 5 ≠ nullptr ∧
   frame (one_owner (T:=Z)) !! 1 = None) ∧
  ∃ c (s1 s2 : state (T:=Z)),
    UseCount 0 (one_owner (T:=Z)) = Ok c one_owner ∧ (0 < c ≤ SIZE_MAX)%Z ∧
    SharedPtr_alias 1 0 (ObjPtr 9) one_owner = Ok tt s1 ∧
    Get 1 s1 = Ok (ObjPtr 9) s1 ∧
    UseCount 1 s1 = Ok (size_t_incr c) s1 ∧
    UseCount 0 s1 = Ok (size_t_incr c) s1 ∧
    ((c < SIZE_MAX)%Z → size_t_incr c = (c + 1)%Z) ∧
    SharedPtr_dtor 0 s1 = Ok tt s2 ∧
    trace s2 = trace (one_owner (T:=Z)) ∧
    dom (heap s2) = dom (heap (one_owner (T:=Z))) ∧
    frame s2 !! 0 = None ∧
    Get 1 s2 = Ok (ObjPtr 9) s2 ∧
    UseCount 1 s2 = Ok c s2.
Proof.
  split; [split; [apply one_owner_Inv|split; [reflexivity|split; [done|reflexivity]]]|].
  apply (aliasing_handle one_owner 0 1 (ObjPtr 9)
           {| p_ctrl_block_ := Some 1%positive; raw_ptr_ := ObjPtr 5 |});
    [apply one_owner_Inv|reflexivity|done|reflexivity].
Defined.

(** C7 does not hold as stated.  Two handles share an object, UseCount() 2:
    after one is move-assigned to the other, UseCount() is 1.  And a handle
    move-assigned to itself is not left empty. *)
Lemma move_assignment_between_sharers :
  ∃ s s' s'',
    run nonneg_ctor [OpFromRaw 0 (ObjPtr 5); OpCopy 1 0] init = Ok tt s ∧
    UseCount 1 s = Ok 2%Z s ∧
    operator_assign_move 0 1 s = Ok tt s' ∧
    UseCount 0 s' = Ok 1%Z s' ∧
    operator_assign_move 1 1 s = Ok tt s'' ∧
    frame s'' !! 1 = Some {| p_ctrl_block_ := Some 1%positive; raw_ptr_ := ObjPtr 5 |}.
Proof.
  eexists. eexists. eexists.
  split; [vm_compute; reflexivity|]. split; [vm_compute; reflexivity|].
  split; [vm_compute; reflexivity|]. split; [vm_compute; reflexivity|].
  split; vm_compute; reflexivity.
Qed.

(** C7, amended, at work: a move construction from [1], a move
    assignment of [1] to [0], which owns another object, and the move
    assignment of [1] to itself. *)
Lemma move_keeps_UseCount_example :
  (Inv (two_objects (T:=Z)) ∧
   frame (two_objects (T:=Z)) !! 1 =
     Some {| p_ctrl_block_ := Some 2%positive; raw_ptr_ := ObjPtr 6 |} ∧
   UseCount 1 (two_objects (T:=Z)) = Ok 1%Z two_objects) ∧
  (∃ s', SharedPtr_move 2 1 (two_objects (T:=Z)) = Ok tt s' ∧
         UseCount 2 s' = Ok 1%Z s' ∧
         frame s' !! 1 = Some {| p_ctrl_block_ := None; raw_ptr_ := nullptr |}) ∧
  (∃ s', operator_assign_move 0 1 (two_objects (T:=Z)) = Ok tt s' ∧
         frame s' !! 1 = Some {| p_ctrl_block_ := None; raw_ptr_ := nullptr |} ∧
         frame s' !! 0 = Some {| p_ctrl_block_ := Some 2%positive; raw_ptr_ := ObjPtr 6 |} ∧
         UseCount 0 s' = Ok 1%Z s') ∧
  operator_assign_move 1 1 (two_objects (T:=Z)) = Ok tt two_objects.
Proof.
  split; [split; [apply two_objects_Inv|split; reflexivity]|].
  destruct (move_keeps_UseCount two_objects 1
              {| p_ctrl_block_ := Some 2%positive; raw_ptr_ := ObjPtr 6 |} 1%Z
              two_objects_Inv eq_refl eq_refl) as (Hctor & Hassign & Hself).
  split; [by apply Hctor|]. split; [|exact Hself].
  destruct (Hassign 0 {| p_ctrl_block_ := Some 1%positive; raw_ptr_ := ObjPtr 5 |}
              eq_refl ltac:(done)) as (s' & Hrun & Hy & Hx & Hkeep & _).
  exists s'. split; [done|]. split; [done|]. split; [done|].
  apply Hkeep. intros b Hbx Hby. unfold owns in *. simpl in *. congruence.
Defined.

(** C10 at work. *)
Lemma SharedPtr_from_null_raw_pointer_example :
  (frame (init (T:=Z)) !! 0 = None ∧ frame (init (T:=Z)) !! 1 = None ∧ 0 ≠ 1) ∧
  ∃ s1 s2,
    SharedPtr_from_raw 0 nullptr (init (T:=Z)) = Ok tt s1 ∧
    operator_bool 0 s1 = Ok false s1 ∧
    Get 0 s1 = Ok nullptr s1 ∧
    UseCount 0 s1 = Ok 1%Z s1 ∧
    trace s1 = trace (init (T:=Z)) ++ [EvNewControlBlockPtr 1 nullptr] ∧
    frame s1 !! 0 = Some {| p_ctrl_block_ := Some 1%positive; raw_ptr_ := nullptr |} ∧
    SharedPtr_copy 1 0 s1 = Ok tt s2 ∧
    frame s2 !! 1 = Some {| p_ctrl_block_ := None; raw_ptr_ := nullptr |} ∧
    UseCount 1 s2 = Ok 0%Z s2 ∧
    heap s2 = heap s1 ∧
    UseCount 0 s2 = Ok 1%Z s2.
Proof.
  split; [repeat split; done|].
  apply (SharedPtr_from_null_raw_pointer init 0 1); done.
Defined.

(** *** How the members compose, at work *)

Lemma Reset_is_destroy_then_construct_example :
  Reset 0 (one_owner (T:=Z)) =
    bind (SharedPtr_dtor 0) (fun _ => SharedPtr_default 0) one_owner.
Proof. apply Reset_is_destroy_then_construct. vm_compute. eauto. Defined.

Lemma operator_assign_from_null_example :
  operator_assign 2 0 (aliased_and_moved (T:=Z)) = Reset 2 aliased_and_moved.
Proof. apply (operator_assign_from_null _ 2 0 empty_handle); reflexivity. Defined.

Lemma Swap_involutive_example :
  bind (Swap 0 1) (fun _ => Swap 0 1) (two_objects (T:=Z)) = Ok tt two_objects.
Proof. apply Swap_involutive; vm_compute; eauto. Defined.

Lemma operator_assign_self_example :
  operator_assign 0 0 (one_owner (T:=Z)) = Ok tt one_owner.
Proof.
  apply (operator_assign_self _ 0 {| p_ctrl_block_ := Some 1%positive; raw_ptr_ := ObjPtr 5 |});
    [apply one_owner_Inv|reflexivity|done].
Defined.

Lemma operator_assign_shares_example :
  ∃ s', operator_assign 0 1 (two_objects (T:=Z)) = Ok tt s' ∧
        frame s' !! 0 = Some {| p_ctrl_block_ := Some 2%positive; raw_ptr_ := ObjPtr 6 |} ∧
        frame s' !! 1 = Some {| p_ctrl_block_ := Some 2%positive; raw_ptr_ := ObjPtr 6 |} ∧
        UseCount 0 s' =
          Ok (if decide (owns 2%positive
                           {| p_ctrl_block_ := Some 1%positive; raw_ptr_ := ObjPtr 5 |})
              then 1 else 1 + 1)%Z s' ∧
        UseCount 1 s' =
          Ok (if decide (owns 2%positive
                           {| p_ctrl_block_ := Some 1%positive; raw_ptr_ := ObjPtr 5 |})
              then 1 else 1 + 1)%Z s'.
Proof.
  apply (operator_assign_shares two_objects 0 1);
    [apply two_objects_Inv|done|reflexivity|reflexivity|done|reflexivity
    |by vm_compute|by vm_compute].
Defined.

Lemma move_then_destroy_source_example :
  bind (SharedPtr_move 1 0) (fun _ => SharedPtr_dtor 0) (one_owner (T:=Z)) =
    Ok tt (with_frame
             (<[1 := {| p_ctrl_block_ := Some 1%positive; raw_ptr_ := ObjPtr 5 |}]>
                (delete 0 (frame (one_owner (T:=Z))))) one_owner).
Proof. apply move_then_destroy_source; reflexivity. Defined.

Lemma copy_then_destroy_example :
  bind (SharedPtr_copy 1 0) (fun _ => SharedPtr_dtor 1) (one_owner (T:=Z)) = Ok tt one_owner.
Proof.
  apply copy_then_destroy; [apply one_owner_Inv|reflexivity|vm_compute; eauto].
Defined.

Lemma copy_compares_equal_example :
  ∃ s', SharedPtr_copy 1 0 (one_owner (T:=Z)) = Ok tt s' ∧
        operator_eq 1 0 s' = Ok true s' ∧ operator_eq 0 1 s' = Ok true s'.
Proof.
  apply copy_compares_equal; [apply one_owner_Inv|reflexivity|vm_compute; eauto].
Defined.

Lemma UseCount_counts_owners_example :
  UseCount 0 (one_owner (T:=Z)) =
    Ok (Z.of_nat (owners 1%positive (frame (one_owner (T:=Z))))) one_owner.
Proof.
  apply (UseCount_counts_owners nonneg_ctor [OpFromRaw 0 (ObjPtr 5)] one_owner 0
           {| p_ctrl_block_ := Some 1%positive; raw_ptr_ := ObjPtr 5 |});
    [by vm_compute|reflexivity|reflexivity].
Defined.

Lemma operator_assign_move_self_example :
  operator_assign_move 0 0 (one_owner (T:=Z)) = Ok tt one_owner.
Proof.
  apply (operator_assign_move_self _ 0
           {| p_ctrl_block_ := Some 1%positive; raw_ptr_ := ObjPtr 5 |}).
  reflexivity.
Defined.

Lemma operator_assign_move_is_destroy_then_move_example :
  operator_assign_move 0 1 (two_objects (T:=Z)) =
    bind (SharedPtr_dtor 0) (fun _ => SharedPtr_move 0 1) two_objects.
Proof.
  apply operator_assign_move_is_destroy_then_move; [done|vm_compute; eauto..].
Defined.

(** The only owner goes: the object and the block go with it. *)
Lemma SharedPtr_dtor_effect_example :
  SharedPtr_dtor 0 (one_owner (T:=Z)) =
    Ok tt (if decide (owners 1%positive (frame (one_owner (T:=Z))) = 1)
           then {| heap := delete 1%positive (heap (one_owner (T:=Z))); brk := brk (one_owner (T:=Z));
                   trace := trace (one_owner (T:=Z)) ++
                            destroy_payload (T:=Z) 1%positive
                              (CBPtr (ControlBlockPtr_ctor (ObjPtr 5))) ++
                            destroy_self 1%positive;
                   frame := delete 0 (frame (one_owner (T:=Z))) |}
           else {| heap := <[1%positive :=
                               with_shared_cnt
                                 (shared_cnt_ (T:=Z) (CBPtr (ControlBlockPtr_ctor (ObjPtr 5))) - 1)
                                 (CBPtr (ControlBlockPtr_ctor (ObjPtr 5)))]> (heap (one_owner (T:=Z)));
                   brk := brk (one_owner (T:=Z)); trace := trace (one_owner (T:=Z));
                   frame := delete 0 (frame (one_owner (T:=Z))) |}).
Proof.
  apply (SharedPtr_dtor_effect one_owner 0
           {| p_ctrl_block_ := Some 1%positive; raw_ptr_ := ObjPtr 5 |});
    [apply one_owner_Inv|reflexivity|reflexivity|reflexivity].
Defined.

Lemma MakeShared_then_destroy_example :
  bind (MakeShared nonneg_ctor 0 7%Z) (fun _ => SharedPtr_dtor 0) init =
    Ok tt {| heap := heap (init (T:=Z)); brk := Pos.succ (brk (init (T:=Z)));
             trace := trace (init (T:=Z)) ++
                      [EvNewControlBlockMakeShared (brk (init (T:=Z)));
                       EvPlacementNew (brk (init (T:=Z))) true;
                       EvDestroyHolder (brk (init (T:=Z))) true;
                       EvDeleteThis (brk (init (T:=Z)))];
             frame := frame (init (T:=Z)) |}.
Proof.
  apply (MakeShared_then_destroy nonneg_ctor init 0 7%Z 7%Z);
    [apply Inv_init|reflexivity|reflexivity].
Defined.

Lemma from_raw_then_destroy_example :
  bind (SharedPtr_from_raw 0 (ObjPtr 5)) (fun _ => SharedPtr_dtor 0) (init (T:=Z)) =
    Ok tt {| heap := heap (init (T:=Z)); brk := Pos.succ (brk (init (T:=Z)));
             trace := trace (init (T:=Z)) ++
                      [EvNewControlBlockPtr (brk (init (T:=Z))) (ObjPtr 5);
                       EvDeleteObj (brk (init (T:=Z))) (ObjPtr 5);
                       EvDeleteThis (brk (init (T:=Z)))];
             frame := frame (init (T:=Z)) |}.
Proof. apply from_raw_then_destroy; [apply Inv_init|reflexivity]. Defined.

Lemma IncrSharedCount_then_DecrSharedCount_example :
  bind (IncrSharedCount 1%positive) (fun _ => DecrSharedCount 1%positive)
    (one_owner (T:=Z)) = Ok tt one_owner.
Proof.
  apply (IncrSharedCount_then_DecrSharedCount one_owner 1%positive
           (CBPtr (ControlBlockPtr_ctor (ObjPtr 5))));
    [reflexivity|by vm_compute].
Defined.

(** The aliasing constructor on a moved-from handle. *)
Lemma SharedPtr_alias_of_empty_example :
  SharedPtr_alias 4 0 (ObjPtr 9) (aliased_and_moved (T:=Z)) = UB.
Proof. apply (SharedPtr_alias_of_empty _ 4 0 (ObjPtr 9) empty_handle); reflexivity. Defined.

Lemma raw_pointer_registered_twice_example :
  ∃ s', run nonneg_ctor
          [OpFromRaw 0 (ObjPtr 5); OpFromRaw 1 (ObjPtr 5); OpDestroy 0; OpDestroy 1] init =
          Ok tt s' ∧
        object_deletions (ObjPtr 5) (trace s') =
          object_deletions (ObjPtr 5) (trace (init (T:=Z))) + 2 ∧
        heap s' = heap (init (T:=Z)) ∧ frame s' = frame (init (T:=Z)).
Proof.
  apply (raw_pointer_registered_twice nonneg_ctor init 0 1 (ObjPtr 5));
    [apply Inv_init|done|reflexivity|reflexivity].
Defined.

Lemma Reset_ptr_sole_owner_example :
  ∃ s', Reset_ptr 0 (ObjPtr 6) (one_owner (T:=Z)) = Ok tt s' ∧
        frame s' !! 0 =
          Some {| p_ctrl_block_ := Some (brk (one_owner (T:=Z))); raw_ptr_ := ObjPtr 6 |} ∧
        Get 0 s' = Ok (ObjPtr 6) s' ∧ UseCount 0 s' = Ok 1%Z s'.
Proof.
  apply Reset_ptr_sole_owner; [apply one_owner_Inv|vm_compute; eauto].
Defined.

Lemma Reset_ptr_to_own_pointer_example :
  ∃ s', Reset_ptr 0 (ObjPtr 5) (one_owner (T:=Z)) = Ok tt s' ∧
        Get 0 s' = Ok (ObjPtr 5) s' ∧
        object_deletions (ObjPtr 5) (trace s') =
          object_deletions (ObjPtr 5) (trace (one_owner (T:=Z))) + 1 ∧
        heap s' !! brk (one_owner (T:=Z)) =
          Some (CBPtr (ControlBlockPtr_ctor (ObjPtr 5))).
Proof.
  apply (Reset_ptr_to_own_pointer one_owner 0
           {| p_ctrl_block_ := Some 1%positive; raw_ptr_ := ObjPtr 5 |}
           1%positive (ControlBlockPtr_ctor (ObjPtr 5)));
    [apply one_owner_Inv|reflexivity|reflexivity|reflexivity|reflexivity|by vm_compute].
Defined.

Lemma no_leak_example :
  ∃ s, run nonneg_ctor
         [OpFromRaw 0 (ObjPtr 5); OpCopy 1 0; OpMakeShared 2 7%Z; OpDestroy 0;
          OpDestroy 2; OpDestroy 1] init = Ok tt s ∧
       heap s = ∅ ∧
       ∀ p, object_deletions p (trace s) = registrations p (trace s).
Proof.
  eexists. split; [vm_compute; reflexivity|].
  apply (no_leak nonneg_ctor
           [OpFromRaw 0 (ObjPtr 5); OpCopy 1 0; OpMakeShared 2 7%Z; OpDestroy 0;
            OpDestroy 2; OpDestroy 1]);
    [by vm_compute|vm_compute; reflexivity|reflexivity].
Defined.

(** *** UniquePtr at work *)

(** The object at 5 is deleted by the move assignment, the object at 6 is
    released to the caller. *)
Lemma UniquePtr_accounts_for_every_pointer_example :
  ∃ m, UniquePtr.run
         [UniquePtr.UNew 0 (ObjPtr 5) 7; UniquePtr.UNew 1 (ObjPtr 6) 8;
          UniquePtr.UMoveAssign 0 1; UniquePtr.URelease 0;
          UniquePtr.UDestroy 0; UniquePtr.UDestroy 1] UniquePtr.start = Some m ∧
       UniquePtr.calls m = [(7, ObjPtr 5)] ∧ UniquePtr.released m = [ObjPtr 6] ∧
       holding (ObjPtr 5) (UniquePtr.handles m) +
         UniquePtr.deleter_calls (ObjPtr 5) (UniquePtr.calls m) +
         UniquePtr.handed_back (ObjPtr 5) (UniquePtr.released m) =
       UniquePtr.handed_over (ObjPtr 5)
         [UniquePtr.UNew 0 (ObjPtr 5) 7; UniquePtr.UNew 1 (ObjPtr 6) 8;
          UniquePtr.UMoveAssign 0 1; UniquePtr.URelease 0;
          UniquePtr.UDestroy 0; UniquePtr.UDestroy 1].
Proof.
  eexists. split; [vm_compute; reflexivity|]. split; [reflexivity|]. split; [reflexivity|].
  apply UniquePtr_accounts_for_every_pointer; [done|vm_compute; reflexivity].
Defined.

Lemma UniquePtr_never_deletes_null_example :
  ∃ m,
    UniquePtr.run
      [UniquePtr.UReset 0 nullptr; UniquePtr.UMoveAssign 0 1; UniquePtr.UDestroy 1;
       UniquePtr.UDestroy 0] two_unique = Some m ∧
    ∃ cs, UniquePtr.calls m = UniquePtr.calls two_unique ++ cs ∧
          Forall (fun c => c.2 ≠ nullptr) cs.
Proof.
  eexists. split; [vm_compute; reflexivity|].
  apply (UniquePtr_never_deletes_null
           [UniquePtr.UReset 0 nullptr; UniquePtr.UMoveAssign 0 1; UniquePtr.UDestroy 1;
            UniquePtr.UDestroy 0] two_unique).
  vm_compute. reflexivity.
Defined.

Lemma UniquePtr_self_move_assignment_example :
  UniquePtr.run [UniquePtr.UMoveAssign 0 0] two_unique =
    Some {| UniquePtr.handles :=
              <[0 := {| UniquePtr.raw_ptr_ := ObjPtr 5; UniquePtr.del_ := 0 |}]>
                (UniquePtr.handles two_unique);
            UniquePtr.calls := UniquePtr.calls two_unique;
            UniquePtr.released := UniquePtr.released two_unique |}.
Proof.
  exact (UniquePtr_self_move_assignment two_unique 0
           {| UniquePtr.raw_ptr_ := ObjPtr 5; UniquePtr.del_ := 7 |} eq_refl).
Defined.

Lemma UniquePtr_move_assignment_example :
  ∃ m', UniquePtr.run [UniquePtr.UMoveAssign 0 1] two_unique = Some m' ∧
        UniquePtr.handles m' !! 0 =
          Some {| UniquePtr.raw_ptr_ := ObjPtr 6; UniquePtr.del_ := 8 |} ∧
        UniquePtr.handles m' !! 1 =
          Some {| UniquePtr.raw_ptr_ := nullptr; UniquePtr.del_ := 0 |} ∧
        (∀ z, z ≠ 0 → z ≠ 1 →
              UniquePtr.handles m' !! z = UniquePtr.handles two_unique !! z) ∧
        UniquePtr.calls m' = UniquePtr.calls two_unique ++ [(7, ObjPtr 5)] ∧
        UniquePtr.released m' = UniquePtr.released two_unique.
Proof.
  assert (0 ≠ 1) as Hne by done.
  exact (UniquePtr_move_assignment two_unique 0 1
           {| UniquePtr.raw_ptr_ := ObjPtr 5; UniquePtr.del_ := 7 |}
           {| UniquePtr.raw_ptr_ := ObjPtr 6; UniquePtr.del_ := 8 |}
           Hne eq_refl eq_refl).
Defined.

Lemma UniquePtr_Reset_to_own_pointer_example :
  UniquePtr.bind
    (UniquePtr.Reset {| UniquePtr.raw_ptr_ := ObjPtr 5; UniquePtr.del_ := 7 |} (ObjPtr 5))
    UniquePtr.dtor [] =
    (tt, [(7, ObjPtr 5); (7, ObjPtr 5)]).
Proof.
  apply (UniquePtr_Reset_to_own_pointer
           {| UniquePtr.raw_ptr_ := ObjPtr 5; UniquePtr.del_ := 7 |} []).
  done.
Defined.

Lemma UniquePtr_Swap_involutive_example :
  UniquePtr.run [UniquePtr.USwap 0 1; UniquePtr.USwap 0 1] two_unique = Some two_unique.
Proof. apply UniquePtr_Swap_involutive; vm_compute; eauto. Defined.

Lemma UniquePtr_move_then_destroy_source_example :
  UniquePtr.run [UniquePtr.UMoveNew 2 0; UniquePtr.UDestroy 0] two_unique =
    Some {| UniquePtr.handles :=
              <[2 := {| UniquePtr.raw_ptr_ := ObjPtr 5; UniquePtr.del_ := 7 |}]>
                (delete 0 (UniquePtr.handles two_unique));
            UniquePtr.calls := UniquePtr.calls two_unique;
            UniquePtr.released := UniquePtr.released two_unique |}.
Proof. apply UniquePtr_move_then_destroy_source; reflexivity. Defined.
